(** * concatfs: the concatenation engine of [src/concatfs.c]

    A shallow embedding of the description parser, the open-file registry,
    the segmented read and the path classifier of concatfs, together with
    the part of the C library and of the operating system they call; of
    the filesystem operations built on them ([getattr], [open], [read],
    [release]); and of the parser, the read and the classifier of the
    proof of concept [src/poc_concatfs.c], from which concatfs grew.

    Conventions.
    - A C string is the list of its characters before the terminating NUL.
    - Integers are in [Z].  The running total of the parser is an [off_t]
      sum that can leave [off_t]: it is checked ([off_t_add]).  The other
      [off_t] operations are written in [Z]; the conversions the source
      performs between integer types ([size_t] comparison operands, the
      [int] result of [read_concat_file]) are written out.
    - A step of the C program that has no defined behaviour (a store through
      a null pointer, a store before the start of an array, a string routine
      run over an unterminated buffer, a signed sum out of range) yields
      [Undefined].
    - The C library is glibc, the system Linux on a 64-bit machine. *)

From Stdlib Require Import ZArith Ascii String Bool Lia List.
Import ListNotations.
Local Open Scope Z_scope.

(** ** Bytes, C strings and constants *)

Abbreviation byte := ascii (only parsing).
Abbreviation cstr := (list ascii) (only parsing).

Definition str (s : string) : cstr := list_ascii_of_string s.

Definition NUL : ascii := "000"%char.
Definition LF : ascii := "010"%char.
Definition SLASH : ascii := "/"%char.
Definition COLON : ascii := ":"%char.

Definition PATH_MAX : nat := 4096.
Definition OFF_T_MAX : Z := ((2 ^ 62 - 1) * 2 + 1).
Definition INT_MAX : Z := 2 ^ 31 - 1.

Definition MIN (a b : Z) : Z := if a <? b then a else b.
Definition MAX (a b : Z) : Z := if a >? b then a else b.
Definition CLAMP (x m M : Z) : Z := MIN M (MAX x m).

(** Conversion to [size_t] (64-bit, unsigned) and to [int] (32-bit, two's
    complement). *)
Definition to_size_t (x : Z) : Z := x mod 2 ^ 64.
Definition to_int (x : Z) : Z := (x + 2 ^ 31) mod 2 ^ 32 - 2 ^ 31.

(** Outcome of a C computation. *)
Inductive run (A : Type) : Type :=
| Undefined : run A
| Ret : A -> run A.
Arguments Undefined {A}.
Arguments Ret {A} _.

Definition run_bind {A B} (r : run A) (k : A -> run B) : run B :=
  match r with
  | Undefined => Undefined
  | Ret a => k a
  end.

Notation "x <- r ;; k" := (run_bind r (fun x => k))
  (at level 61, r at next level, right associativity).

(** ** The C library routines the engine calls *)

(** What the string routines see of a character buffer: everything before
    the first NUL. *)
Fixpoint c_str (buf : list ascii) : cstr :=
  match buf with
  | [] => []
  | c :: t => if (c =? NUL)%char then [] else c :: c_str t
  end.

(** [strchr s c]: the text before the first [c] and the text after it. *)
Fixpoint strchr (s : cstr) (c : ascii) : option (cstr * cstr) :=
  match s with
  | [] => None
  | x :: t =>
      if (x =? c)%char then Some ([], t)
      else match strchr t c with
           | Some (pre, post) => Some (x :: pre, post)
           | None => None
           end
  end.

Fixpoint is_prefix (p s : cstr) : bool :=
  match p, s with
  | [], _ => true
  | a :: p', b :: s' => (a =? b)%char && is_prefix p' s'
  | _ :: _, [] => false
  end.

(** [strstr hay needle]: the suffix of [hay] starting at the first
    occurrence of [needle], [None] for the null pointer. *)
Fixpoint strstr (hay needle : cstr) : option cstr :=
  if is_prefix needle hay then Some hay
  else match hay with
       | [] => None
       | _ :: t => strstr t needle
       end.

Fixpoint dropwhile {A} (p : A -> bool) (l : list A) : list A :=
  match l with
  | [] => []
  | x :: t => if p x then dropwhile p t else l
  end.

Fixpoint takewhile {A} (p : A -> bool) (l : list A) : list A :=
  match l with
  | [] => []
  | x :: t => if p x then x :: takewhile p t else []
  end.

Definition is_slash (c : ascii) : bool := (c =? SLASH)%char.
Definition not_slash (c : ascii) : bool := negb (is_slash c).

(** POSIX [dirname] of <libgen.h>, by the cases of the C library routine:
    trailing slashes are skipped, the last component is removed, then the
    slashes before it; a path of slashes only gives "/" (or "//" when it
    is exactly two slashes), a path without directory part gives ".". *)
Definition dirname (p : cstr) : cstr :=
  match p with
  | [] => str "."
  | _ =>
      match dropwhile is_slash (rev p) with
      | [] => if (List.length p =? 2)%nat then str "//" else str "/"
      | body =>
          match dropwhile not_slash body with
          | [] => str "."
          | sl =>
              match dropwhile is_slash sl with
              | [] => if (List.length sl =? 2)%nat then str "//" else str "/"
              | d => rev d
              end
          end
      end
  end.

(** POSIX [basename] of <libgen.h> (the file includes <libgen.h>, which
    selects this variant): trailing slashes are not part of the name. *)
Definition basename (p : cstr) : cstr :=
  match p with
  | [] => str "."
  | _ =>
      match dropwhile is_slash (rev p) with
      | [] => str "/"
      | body => rev (takewhile not_slash body)
      end
  end.

(** [sscanf(s, "%jd", &x)]: white space is skipped, then an optional sign
    and a non-empty run of decimal digits is converted; a value outside
    [intmax_t] saturates.  [None] when nothing is converted (the variable
    keeps its previous value). *)
Definition isspace (c : ascii) : bool :=
  let n := nat_of_ascii c in
  ((n =? 32) || ((9 <=? n) && (n <=? 13)))%nat.

Definition digit_val (c : ascii) : option Z :=
  let n := Z.of_nat (nat_of_ascii c) in
  if (48 <=? n) && (n <=? 57) then Some (n - 48) else None.

Fixpoint scan_digits (acc : Z) (s : cstr) : Z :=
  match s with
  | [] => acc
  | c :: t =>
      match digit_val c with
      | Some d => scan_digits (10 * acc + d) t
      | None => acc
      end
  end.

Definition saturate (v : Z) : Z := Z.max (- OFF_T_MAX - 1) (Z.min OFF_T_MAX v).

Definition scan_jd (s : cstr) : option Z :=
  let s1 := dropwhile isspace s in
  let '(neg, s2) :=
    match s1 with
    | c :: t =>
        if (c =? "-")%char then (true, t)
        else if (c =? "+")%char then (false, t)
        else (false, s1)
    | [] => (false, s1)
    end in
  match s2 with
  | c :: _ =>
      match digit_val c with
      | Some _ =>
          let v := scan_digits 0 s2 in
          Some (saturate (if neg then - v else v))
      | None => None
      end
  | [] => None
  end.

(** What the same call does to [errno] in the C library concatfs is built
    with (glibc): [errno] is cleared when the input ends before a
    character other than white space is read, set to ERANGE when the
    number read does not fit [intmax_t], and left as it is in every other
    case.  [None] when it is left as it is. *)
Definition ERANGE : Z := 34.

Definition scan_jd_errno (s : cstr) : option Z :=
  match dropwhile isspace s with
  | [] => Some 0
  | c :: t =>
      let '(neg, s2) :=
        if (c =? "-")%char then (true, t)
        else if (c =? "+")%char then (false, t)
        else (false, c :: t) in
      match s2 with
      | d :: _ =>
          match digit_val d with
          | Some _ =>
              let v := scan_digits 0 s2 in
              let x := if neg then - v else v in
              if x =? saturate x then None else Some ERANGE
          | None => None
          end
      | [] => None
      end
  end.

(** [fgets(buf, n + 1, fp)]: at most [n] characters, stopping after a
    newline; the characters read and the rest of the stream. *)
Fixpoint fgets (n : nat) (s : list byte) : list byte * list byte :=
  match n, s with
  | S n', c :: t =>
      if (c =? LF)%char then ([c], t)
      else let '(l, r) := fgets n' t in (c :: l, r)
  | _, _ => ([], s)
  end.

(** The buffers that the loop [while (fgets(fpath, sizeof(fpath), fp))]
    sees, in order; [fuel] bounds the number of iterations. *)
Fixpoint read_lines (fuel : nat) (s : list byte) : list (list byte) :=
  match fuel with
  | O => []
  | S f =>
      match s with
      | [] => []
      | _ => let '(l, r) := fgets PATH_MAX s in l :: read_lines f r
      end
  end.

(** [snprintf(buf, n, "%s/%s", a, b)]: at most [n - 1] characters. *)
Definition snprintf_path (n : nat) (a b : cstr) : cstr :=
  firstn (n - 1) (a ++ SLASH :: b).

(** ** The operating system: name space, descriptor table, system calls *)

(** The part of the system the engine observes.  The name space maps the
    components of a path to a file (there are no symbolic links, and ".."
    is a name like any other); the files do not change.  The descriptor
    table gives, for every descriptor in use, the file it is open on.  A
    system call returns its result and the system it leaves: a new table
    after [open], [dup] and [close], and [errno] set after a failure. *)

Definition ENOENT : Z := 2.
Definition EBADF : Z := 9.
Definition EACCES : Z := 13.
Definition ENOTDIR : Z := 20.
Definition EISDIR : Z := 21.
Definition EINVAL : Z := 22.
Definition EMFILE : Z := 24.
Definition EOVERFLOW : Z := 75.

Inductive access : Type := O_RDONLY | O_WRONLY | O_RDWR.

(** A file of the name space: a regular file with its bytes and whether the
    process may read and write it, or a directory with the size [stat]
    reports for it. *)
Inductive node : Type :=
| Regular (data : list byte) (r w : bool)
| Directory (size : N).

(** An open file description: the file, the access mode of the [open] and
    the file position. *)
Record ofile : Type := mk_ofile {
  of_node : node;
  of_acc : access;
  of_pos : nat
}.

(** What the kernel does with one positional read of a regular file: it
    transfers all the bytes it can, at most [k] of them, or fails. *)
Inductive xfer : Type :=
| Complete
| Partial (k : Z)
| Fault (errno : Z).

Record os : Type := mk_os {
  os_fs : list cstr -> option node;   (* the files, by path components *)
  os_cwd : list cstr;                 (* the working directory *)
  os_fds : list (option ofile);       (* descriptor table, indexed by fd *)
  os_nofile : nat;                    (* descriptor limit *)
  os_io : Z -> Z -> Z -> xfer;        (* pread fd count offset *)
  os_errno : Z
}.

Definition set_errno (e : Z) (o : os) : os :=
  mk_os (os_fs o) (os_cwd o) (os_fds o) (os_nofile o) (os_io o) e.

Definition set_fds (fds : list (option ofile)) (o : os) : os :=
  mk_os (os_fs o) (os_cwd o) fds (os_nofile o) (os_io o) (os_errno o).

(** Path components: the names between slashes; empty names and "." do
    not move. *)
Fixpoint split_on (sep : ascii) (s : cstr) : list cstr :=
  match s with
  | [] => [[]]
  | c :: t =>
      if (c =? sep)%char then [] :: split_on sep t
      else match split_on sep t with
           | w :: ws => (c :: w) :: ws
           | [] => [[c]]
           end
  end.

Definition cstr_eqb (a b : cstr) : bool :=
  String.eqb (string_of_list_ascii a) (string_of_list_ascii b).

Definition moves (name : cstr) : bool :=
  negb (cstr_eqb name [] || cstr_eqb name (str ".")).

Definition components (p : cstr) : list cstr := filter moves (split_on SLASH p).

Definition is_absolute (p : cstr) : bool :=
  match p with
  | c :: _ => is_slash c
  | [] => false
  end.

Definition ends_with_slash (p : cstr) : bool :=
  match rev p with
  | c :: _ => is_slash c
  | [] => false
  end.

(** Path resolution: the file a path names, or the error number. *)
Definition namei (o : os) (p : cstr) : Z + node :=
  match p with
  | [] => inl ENOENT
  | _ =>
      let comps := (if is_absolute p then [] else os_cwd o) ++ components p in
      match os_fs o comps with
      | None => inl ENOENT
      | Some (Regular d r w) =>
          if ends_with_slash p then inl ENOTDIR else inr (Regular d r w)
      | Some (Directory n) => inr (Directory n)
      end
  end.

Definition node_size (nd : node) : Z :=
  match nd with
  | Regular d _ _ => Z.of_nat (List.length d)
  | Directory n => Z.of_N n
  end.

(** [stat(path, &stbuf) == 0], with [stbuf.st_size]. *)
Definition sys_stat (o : os) (p : cstr) : option Z * os :=
  match namei o p with
  | inl e => (None, set_errno e o)
  | inr nd =>
      if node_size nd <=? OFF_T_MAX then (Some (node_size nd), o)
      else (None, set_errno EOVERFLOW o)
  end.

Definition fd_lookup (o : os) (fd : Z) : option ofile :=
  if fd <? 0 then None
  else match nth_error (os_fds o) (Z.to_nat fd) with
       | Some (Some f) => Some f
       | _ => None
       end.

Fixpoint lowest_free (fds : list (option ofile)) : nat :=
  match fds with
  | Some _ :: t => S (lowest_free t)
  | _ => O
  end.

Fixpoint fd_set (i : nat) (v : option ofile) (fds : list (option ofile))
  : list (option ofile) :=
  match i, fds with
  | O, [] => [v]
  | O, _ :: t => v :: t
  | S i', [] => None :: fd_set i' v []
  | S i', x :: t => x :: fd_set i' v t
  end.

(** A new descriptor: the lowest unused number, below the limit. *)
Definition install (o : os) (f : ofile) : Z * os :=
  let i := lowest_free (os_fds o) in
  if (i <? os_nofile o)%nat
  then (Z.of_nat i, set_fds (fd_set i (Some f) (os_fds o)) o)
  else (-1, set_errno EMFILE o).

Definition permits (nd : node) (a : access) : option Z :=
  match nd, a with
  | Directory _, O_RDONLY => None
  | Directory _, _ => Some EISDIR
  | Regular _ r w, O_RDONLY => if r then None else Some EACCES
  | Regular _ r w, O_WRONLY => if w then None else Some EACCES
  | Regular _ r w, O_RDWR => if r && w then None else Some EACCES
  end.

(** [open(path, flags)]: the descriptor, or -1. *)
Definition sys_open (o : os) (p : cstr) (a : access) : Z * os :=
  match namei o p with
  | inl e => (-1, set_errno e o)
  | inr nd =>
      match permits nd a with
      | Some e => (-1, set_errno e o)
      | None => install o (mk_ofile nd a 0)
      end
  end.

Definition sys_close (o : os) (fd : Z) : Z * os :=
  match fd_lookup o fd with
  | Some _ => (0, set_fds (fd_set (Z.to_nat fd) None (os_fds o)) o)
  | None => (-1, set_errno EBADF o)
  end.

Definition sys_dup (o : os) (fd : Z) : Z * os :=
  match fd_lookup o fd with
  | Some f => install o f
  | None => (-1, set_errno EBADF o)
  end.

(** A stdio stream opened for reading: its descriptor and the bytes it
    will deliver (none for a directory, whose reads fail).  Where reading
    the stream leaves the file position is not recorded: the engine reads
    backing files by position only. *)
Definition stream_text (f : ofile) : list byte :=
  match of_node f with
  | Regular d _ _ => skipn (of_pos f) d
  | Directory _ => []
  end.

(** [fdopen(d, "r")]: fails on a bad descriptor and on one opened for
    writing only. *)
Definition fdopen_r (o : os) (d : Z) : option (Z * list byte) * os :=
  match fd_lookup o d with
  | None => (None, set_errno EBADF o)
  | Some f =>
      match of_acc f with
      | O_WRONLY => (None, set_errno EINVAL o)
      | _ => (Some (d, stream_text f), o)
      end
  end.

(** [fopen(path, "r")]. *)
Definition fopen_r (o : os) (p : cstr) : option (Z * list byte) * os :=
  let '(d, o1) := sys_open o p O_RDONLY in
  if d <? 0 then (None, o1) else fdopen_r o1 d.

(** [pread(fd, buf, n, off)]: the return value, the bytes stored in
    [buf], and the system afterwards ([errno] set on failure). *)
Definition sys_pread (o : os) (fd n off : Z) : Z * list byte * os :=
  match fd_lookup o fd with
  | None => (-1, [], set_errno EBADF o)
  | Some f =>
      match of_acc f with
      | O_WRONLY => (-1, [], set_errno EBADF o)
      | _ =>
          if off <? 0 then (-1, [], set_errno EINVAL o)
          else
            match of_node f with
            | Directory _ => (-1, [], set_errno EISDIR o)
            | Regular d _ _ =>
                match os_io o fd n off with
                | Fault e => (-1, [], set_errno e o)
                | Complete =>
                    let got := firstn (Z.to_nat n) (skipn (Z.to_nat off) d) in
                    (Z.of_nat (List.length got), got, o)
                | Partial k =>
                    let got :=
                      firstn (Z.to_nat (Z.min n k)) (skipn (Z.to_nat off) d) in
                    (Z.of_nat (List.length got), got, o)
                end
            end
      end
  end.

(** [strncpy(dst, src, n)] followed by a string routine reading [dst]:
    the copy is terminated only when [src] is shorter than [n]. *)
Definition strncpy (n : nat) (src : cstr) : run cstr :=
  if (List.length src <? n)%nat then Ret src else Undefined.

(** ** Data of concatfs *)

(** [struct chunk]; the [next] pointers are the order of the list that
    holds the chunks. *)
Record chunk : Type := mk_chunk {
  c_fd : Z;
  c_startOffset : Z;
  c_fsize : Z
}.

(** [struct concat_file]; [next] is the order of the registry list. *)
Record concat_file : Type := mk_concat_file {
  cf_chunks : list chunk;
  cf_fd : Z;
  cf_fsize : Z;
  cf_refcount : Z
}.

Definition registry := list concat_file.

(** ** The description parser *)

(** The numbers after the path, as [try_parse_line_offsets] scans them:
    [s] starts at -1 and [l] at [OFF_T_MAX], and each is overwritten only
    when [sscanf] converts a number. *)
Definition scan_start (offs : option cstr) : Z :=
  match offs with
  | Some r =>
      match scan_jd r with
      | Some v => v
      | None => -1
      end
  | None => -1
  end.

Definition scan_length (offs : option cstr) : Z :=
  match offs with
  | Some r =>
      match strchr r COLON with
      | Some (_, r2) =>
          match scan_jd r2 with
          | Some v => v
          | None => OFF_T_MAX
          end
      | None => OFF_T_MAX
      end
  | None => OFF_T_MAX
  end.

(** The line is cut at its first colon (the cut is not undone), so the
    caller sees the path part afterwards. *)
Definition cut_line (line : cstr) : cstr * option cstr :=
  match strchr line COLON with
  | Some (path, rest) => (path, Some rest)
  | None => (line, None)
  end.

(** What the [sscanf] calls of [try_parse_line_offsets] leave in [errno]:
    the call for the start, then the call for the length when there is a
    second colon. *)
Definition sscanf_errno (s : cstr) (o : os) : os :=
  match scan_jd_errno s with
  | Some e => set_errno e o
  | None => o
  end.

Definition scan_errno (offs : option cstr) (o : os) : os :=
  match offs with
  | Some r =>
      let o1 := sscanf_errno r o in
      match strchr r COLON with
      | Some (_, r2) => sscanf_errno r2 o1
      | None => o1
      end
  | None => o
  end.

(** [try_parse_line_offsets(line, &startOffset, &length)]: [Some] for
    [true], with the line as the call leaves it and the two outputs. *)
Definition try_parse_line_offsets (o : os) (line : cstr)
  : option (cstr * Z * Z) * os :=
  match line with
  | [] => (None, o)
  | _ =>
      let '(path, offs) := cut_line line in
      match sys_stat o path with
      | (None, o1) => (None, o1)
      | (Some st_size, o1) =>
          if st_size <? 1 then (None, o1)
          else
            let s := CLAMP (scan_start offs) 0 (st_size - 1) in
            let l := CLAMP (scan_length offs) 1 (st_size - s) in
            (Some (path, s, l), scan_errno offs o1)
      end
  end.

(** The path a line names ([tpath]): the line as it is when it starts
    with a slash, the line put after [base_dir] otherwise. *)
Definition entry_path (base_dir fpath : cstr) : run cstr :=
  if is_absolute fpath then strncpy PATH_MAX fpath
  else Ret (snprintf_path PATH_MAX base_dir fpath).

(** The head of one loop iteration of [open_concat_file]:
    [fpath[strlen(fpath) - 1] = 0] overwrites the last character of the
    line (a store outside the buffer when the string is empty), then the
    path is resolved. *)
Definition line_path (base_dir : cstr) (buf : list byte) : run cstr :=
  match c_str buf with
  | [] => Undefined
  | s => entry_path base_dir (removelast s)
  end.

(** An addition of two [off_t]: a sum that [off_t] cannot hold has no
    defined behaviour. *)
Definition off_t_add (a b : Z) : run Z :=
  if (- OFF_T_MAX - 1 <=? a + b) && (a + b <=? OFF_T_MAX) then Ret (a + b)
  else Undefined.

(** [rv->fsize += length]. *)
Definition add_size (cf : concat_file) (n : Z) : run concat_file :=
  total <- off_t_add (cf_fsize cf) n ;;
  Ret (mk_concat_file (cf_chunks cf) (cf_fd cf) total (cf_refcount cf)).

Definition add_chunk (cf : concat_file) (c : chunk) : concat_file :=
  mk_concat_file (cf_chunks cf ++ [c]) (cf_fd cf) (cf_fsize cf) (cf_refcount cf).

(** One iteration of the loop of [open_concat_file]. *)
Definition parse_line (fd : Z) (base_dir : cstr) (st : os * concat_file)
  (buf : list byte) : run (os * concat_file) :=
  let '(o, cf) := st in
  tpath <- line_path base_dir buf ;;
  match try_parse_line_offsets o tpath with
  | (None, o1) => Ret (o1, cf)
  | (Some (tpath', startOffset, length), o1) =>
      cf1 <- add_size cf length ;;
      if fd >=? 0 then
        let '(d, o2) := sys_open o1 tpath' O_RDONLY in
        Ret (o2, add_chunk cf1 (mk_chunk d startOffset length))
      else Ret (o1, cf1)
  end.

Fixpoint parse_lines (fd : Z) (base_dir : cstr) (st : os * concat_file)
  (bufs : list (list byte)) : run (os * concat_file) :=
  match bufs with
  | [] => Ret st
  | b :: rest =>
      st1 <- parse_line fd base_dir st b ;;
      parse_lines fd base_dir st1 rest
  end.

(** The stream [open_concat_file] reads: [fdopen(dup(fd), "r")] for a
    descriptor, [fopen(path, "r")] otherwise. *)
Definition open_stream (o : os) (fd : Z) (path : cstr)
  : option (Z * list byte) * os :=
  if fd >=? 0 then
    let '(d, o1) := sys_dup o fd in fdopen_r o1 d
  else fopen_r o path.

(** [open_concat_file(fd, path)]; [None] is the null pointer.  The
    allocations are taken to succeed. *)
Definition open_concat_file (o : os) (fd : Z) (path : cstr)
  : run (option concat_file * os) :=
  match open_stream o fd path with
  | (None, o1) => Ret (None, o1)
  | (Some (sfd, text), o1) =>
      bpath <- strncpy (PATH_MAX + 1) path ;;
      let base_dir := dirname bpath in
      st <- parse_lines fd base_dir (o1, mk_concat_file [] fd 0 1)
              (read_lines (List.length text) text) ;;
      let '(_, o3) := sys_close (fst st) sfd in
      Ret (Some (snd st), o3)
  end.

Definition close_concat_file (o : os) (cf : option concat_file) : os :=
  match cf with
  | None => o
  | Some c =>
      let o1 := fold_left (fun a ch => snd (sys_close a (c_fd ch)))
                  (cf_chunks c) o in
      snd (sys_close o1 (cf_fd c))
  end.

Definition get_concat_file_size (o : os) (path : cstr) : run (Z * os) :=
  r <- open_concat_file o (-1) path ;;
  match fst r with
  | None => Ret (0, snd r)
  | Some c => Ret (cf_fsize c, close_concat_file (snd r) (Some c))
  end.

(** ** The registry of open files *)

(** The list [open_files]; every operation runs under the lock and is one
    step here. *)

Fixpoint open_files_find (reg : registry) (fd : Z) : option concat_file :=
  match reg with
  | [] => None
  | cf :: rest => if cf_fd cf =? fd then Some cf else open_files_find rest fd
  end.

(** [cf->next = open_files] stores through [cf]: a null [cf] has no
    defined behaviour. *)
Definition open_files_push_front (cf : option concat_file) (reg : registry)
  : run registry :=
  match cf with
  | None => Undefined
  | Some c => Ret (c :: reg)
  end.

Fixpoint open_files_erase (reg : registry) (fd : Z)
  : option concat_file * registry :=
  match reg with
  | [] => (None, [])
  | cf :: rest =>
      if cf_fd cf =? fd then (Some cf, rest)
      else let '(rv, rest') := open_files_erase rest fd in (rv, cf :: rest')
  end.

(** ** The segmented read *)

(** One [pread] issued by the engine: descriptor, count, position, and
    what the call returned. *)
Record pread_call : Type := mk_call {
  pc_fd : Z;
  pc_count : Z;
  pc_offset : Z;
  pc_rv : Z
}.

(** Result of a read: the value returned, the bytes stored from the start
    of the caller's buffer, the positional reads issued in order, and the
    system afterwards. *)
Record read_result : Type := mk_result {
  rr_ret : Z;
  rr_buf : list byte;
  rr_trace : list pread_call;
  rr_os : os
}.

(** First loop: [for (; c && offset > c->fsize; c = c->next)]. *)
Fixpoint skip_chunks (cs : list chunk) (offset : Z) : list chunk * Z :=
  match cs with
  | [] => ([], offset)
  | c :: rest =>
      if offset >? c_fsize c then skip_chunks rest (offset - c_fsize c)
      else (cs, offset)
  end.

(** The statement after the loops: [if (c && count > 0)] with [c] the
    current chunk. *)
Definition read_last (o : os) (c : chunk) (count offset bytes_read : Z)
  : read_result :=
  if count >? 0 then
    let '(rv, got, o1) := sys_pread o (c_fd c) count (offset + c_startOffset c) in
    let call := mk_call (c_fd c) count (offset + c_startOffset c) rv in
    if rv <? 0 then mk_result (- os_errno o1) [] [call] o1
    else mk_result (bytes_read + rv) got [call] o1
  else mk_result bytes_read [] [] o.

Definition after_call (call : pread_call) (got : list byte) (r : read_result)
  : read_result :=
  mk_result (rr_ret r) (got ++ rr_buf r) (call :: rr_trace r) (rr_os r).

(** Second loop, [for (; c && count > c->fsize - offset; c = c->next)],
    and what follows it.  The comparison is made in [size_t], the type of
    [count]; [buf] advances by every full read, so the bytes stored are the
    bytes of the successive reads (a full read has a count of 0 or more:
    the first loop leaves [offset <= c->fsize], and chunk sizes are
    positive in the objects the parser builds). *)
Fixpoint read_chunks (o : os) (cs : list chunk) (count offset bytes_read : Z)
  : read_result :=
  match cs with
  | [] => mk_result bytes_read [] [] o
  | c :: rest =>
      let want := c_fsize c - offset in
      if count >? to_size_t want then
        let '(rv, got, o1) :=
          sys_pread o (c_fd c) (to_size_t want) (offset + c_startOffset c) in
        let call :=
          mk_call (c_fd c) (to_size_t want) (offset + c_startOffset c) rv in
        if rv =? want then
          after_call call got
            (read_chunks o1 rest (to_size_t (count - rv)) 0 (bytes_read + rv))
        else if rv >? 0 then mk_result (bytes_read + rv) got [call] o1
        else mk_result (- os_errno o1) [] [call] o1
      else read_last o c count offset bytes_read
  end.

(** [read_concat_file(fd, buf, count, offset)]; the function returns
    [int]. *)
Definition read_concat_file (reg : registry) (o : os) (fd count offset : Z)
  : read_result :=
  match open_files_find reg fd with
  | None => mk_result (- EINVAL) [] [] o
  | Some cf =>
      if offset >? cf_fsize cf then mk_result 0 [] [] o
      else
        let '(cs, off) := skip_chunks (cf_chunks cf) offset in
        let r := read_chunks o cs count off 0 in
        mk_result (to_int (rr_ret r)) (rr_buf r) (rr_trace r) (rr_os r)
  end.

(** ** The path classifier and the filesystem operations on it *)

Definition marker : cstr := str "-concat-".

Definition is_concatfs_file (path : cstr) : run bool :=
  fpath <- strncpy PATH_MAX path ;;
  Ret (match strstr (basename fpath) marker with
       | Some _ => true
       | None => false
       end).

(** Result of [concatfs_open]: the value returned and [fi->fh] when it
    was set.  Of [fi->flags] the access mode is modelled. *)
Record open_result : Type := mk_open_result {
  or_ret : Z;
  or_fh : option Z;
  or_os : os;
  or_reg : registry
}.

Definition concatfs_open (src_dir : cstr) (o : os) (reg : registry)
  (path : cstr) (flags : access) : run open_result :=
  let fpath := snprintf_path PATH_MAX src_dir path in
  let '(fd, o1) := sys_open o fpath flags in
  if fd <? 0 then Ret (mk_open_result (- os_errno o1) None o1 reg)
  else
    v <- is_concatfs_file path ;;
    if v : bool then
      r <- open_concat_file o1 fd fpath ;;
      reg' <- open_files_push_front (fst r) reg ;;
      Ret (mk_open_result 0 (Some fd) (snd r) reg')
    else Ret (mk_open_result 0 (Some fd) o1 reg).

Definition concatfs_read (o : os) (reg : registry) (path : cstr)
  (fh size offset : Z) : run read_result :=
  v <- is_concatfs_file path ;;
  if v : bool then Ret (read_concat_file reg o fh size offset)
  else
    let '(rv, got, o1) := sys_pread o fh size offset in
    if to_int rv <? 0 then Ret (mk_result (- os_errno o1) got [] o1)
    else Ret (mk_result (to_int rv) got [] o1).

Definition concatfs_release (o : os) (reg : registry) (path : cstr) (fh : Z)
  : run (os * registry) :=
  v <- is_concatfs_file path ;;
  if v : bool then
    let '(cf, reg') := open_files_erase reg fh in
    Ret (close_concat_file o cf, reg')
  else Ret (snd (sys_close o fh), reg).

(** [concatfs_getattr], the size it reports ([lstat] is [stat] here: the
    name space has no symbolic links). *)
Definition concatfs_getattr (src_dir : cstr) (o : os) (path : cstr)
  : run (Z * option Z * os) :=
  let fpath := snprintf_path PATH_MAX src_dir path in
  match sys_stat o fpath with
  | (None, o1) => Ret (- os_errno o1, None, o1)
  | (Some st_size, o1) =>
      v <- is_concatfs_file path ;;
      if v : bool then
        r <- get_concat_file_size o1 fpath ;;
        Ret (0, Some (fst r), snd r)
      else Ret (0, Some st_size, o1)
  end.

(** The classifier of the proof-of-concept program [src/poc_concatfs.c],
    which searches the whole path. *)
Module Poc.

Definition is_concatfs_file (path : cstr) : bool :=
  match strstr path marker with
  | Some _ => true
  | None => false
  end.

(** [struct chunk] and [struct concat_file] of the proof of concept: a
    chunk is a whole backing file, without a start offset. *)
Record chunk : Type := mk_chunk {
  c_fd : Z;
  c_fsize : Z
}.

Record concat_file : Type := mk_concat_file {
  cf_chunks : list chunk;
  cf_fd : Z;
  cf_fsize : Z;
  cf_refcount : Z
}.

(** [rv->fsize += stbuf.st_size]. *)
Definition add_size (cf : concat_file) (n : Z) : run concat_file :=
  total <- off_t_add (cf_fsize cf) n ;;
  Ret (mk_concat_file (cf_chunks cf) (cf_fd cf) total (cf_refcount cf)).

Definition add_chunk (cf : concat_file) (c : chunk) : concat_file :=
  mk_concat_file (cf_chunks cf ++ [c]) (cf_fd cf) (cf_fsize cf) (cf_refcount cf).

(** One iteration of the loop of its [open_concat_file]: every line whose
    path stats is taken, with the size [stat] reports. *)
Definition parse_line (fd : Z) (base_dir : cstr) (st : os * concat_file)
  (buf : list byte) : run (os * concat_file) :=
  let '(o, cf) := st in
  tpath <- line_path base_dir buf ;;
  match sys_stat o tpath with
  | (None, o1) => Ret (o1, cf)
  | (Some st_size, o1) =>
      cf1 <- add_size cf st_size ;;
      if fd >=? 0 then
        let '(d, o2) := sys_open o1 tpath O_RDONLY in
        Ret (o2, add_chunk cf1 (mk_chunk d st_size))
      else Ret (o1, cf1)
  end.

Fixpoint parse_lines (fd : Z) (base_dir : cstr) (st : os * concat_file)
  (bufs : list (list byte)) : run (os * concat_file) :=
  match bufs with
  | [] => Ret st
  | b :: rest =>
      st1 <- parse_line fd base_dir st b ;;
      parse_lines fd base_dir st1 rest
  end.

Definition open_concat_file (o : os) (fd : Z) (path : cstr)
  : run (option concat_file * os) :=
  match open_stream o fd path with
  | (None, o1) => Ret (None, o1)
  | (Some (sfd, text), o1) =>
      bpath <- strncpy (PATH_MAX + 1) path ;;
      let base_dir := dirname bpath in
      st <- parse_lines fd base_dir (o1, mk_concat_file [] fd 0 1)
              (read_lines (List.length text) text) ;;
      let '(_, o3) := sys_close (fst st) sfd in
      Ret (Some (snd st), o3)
  end.

Fixpoint open_files_find (reg : list concat_file) (fd : Z)
  : option concat_file :=
  match reg with
  | [] => None
  | cf :: rest => if cf_fd cf =? fd then Some cf else open_files_find rest fd
  end.

Fixpoint skip_chunks (cs : list chunk) (offset : Z) : list chunk * Z :=
  match cs with
  | [] => ([], offset)
  | c :: rest =>
      if offset >? c_fsize c then skip_chunks rest (offset - c_fsize c)
      else (cs, offset)
  end.

Definition read_last (o : os) (c : chunk) (count offset bytes_read : Z)
  : read_result :=
  if count >? 0 then
    let '(rv, got, o1) := sys_pread o (c_fd c) count offset in
    let call := mk_call (c_fd c) count offset rv in
    if rv <? 0 then mk_result (- os_errno o1) [] [call] o1
    else mk_result (bytes_read + rv) got [call] o1
  else mk_result bytes_read [] [] o.

Fixpoint read_chunks (o : os) (cs : list chunk) (count offset bytes_read : Z)
  : read_result :=
  match cs with
  | [] => mk_result bytes_read [] [] o
  | c :: rest =>
      let want := c_fsize c - offset in
      if count >? to_size_t want then
        let '(rv, got, o1) := sys_pread o (c_fd c) (to_size_t want) offset in
        let call := mk_call (c_fd c) (to_size_t want) offset rv in
        if rv =? want then
          after_call call got
            (read_chunks o1 rest (to_size_t (count - rv)) 0 (bytes_read + rv))
        else if rv >? 0 then mk_result (bytes_read + rv) got [call] o1
        else mk_result (- os_errno o1) [] [call] o1
      else read_last o c count offset bytes_read
  end.

Definition read_concat_file (reg : list concat_file) (o : os)
  (fd count offset : Z) : read_result :=
  match open_files_find reg fd with
  | None => mk_result (- EINVAL) [] [] o
  | Some cf =>
      if offset >? cf_fsize cf then mk_result 0 [] [] o
      else
        let '(cs, off) := skip_chunks (cf_chunks cf) offset in
        let r := read_chunks o cs count off 0 in
        mk_result (to_int (rr_ret r)) (rr_buf r) (rr_trace r) (rr_os r)
  end.

End Poc.

(** ** Notions the statements below use *)

(** Representation invariant of the objects the parser builds. *)
Definition chunk_wf (c : chunk) : Prop :=
  0 <= c_startOffset c /\ 1 <= c_fsize c <= OFF_T_MAX.

Definition sum_sizes (cs : list chunk) : Z :=
  fold_right (fun c acc => c_fsize c + acc) 0 cs.

Definition cf_wf (cf : concat_file) : Prop :=
  Forall chunk_wf (cf_chunks cf) /\ cf_fsize cf = sum_sizes (cf_chunks cf).

(** The bytes of the file a descriptor is open on (none when it is not
    open on a regular file). *)
Definition fd_data (o : os) (fd : Z) : list byte :=
  match fd_lookup o fd with
  | Some f =>
      match of_node f with
      | Regular d _ _ => d
      | Directory _ => []
      end
  | None => []
  end.

(** [len] bytes of [d] from position [start]; positions the file does not
    have are filled with NUL, so that a slice always has [len] bytes. *)
Definition pslice (d : list byte) (start len : nat) : list byte :=
  firstn len (skipn start d ++ repeat NUL len).

(** The backing slice of a segment, and the virtual file: the slices of
    the segments in order. *)
Definition backing_slice (o : os) (c : chunk) : list byte :=
  pslice (fd_data o (c_fd c)) (Z.to_nat (c_startOffset c)) (Z.to_nat (c_fsize c)).

Definition virtual_bytes (o : os) (cf : concat_file) : list byte :=
  concat (map (backing_slice o) (cf_chunks cf)).

Definition full_read (c : pread_call) : Prop := pc_rv c = pc_count c.

Definition sum_rv (t : list pread_call) : Z :=
  fold_right (fun c acc => pc_rv c + acc) 0 t.

(** The numbers a line gives after its path, when it gives them. *)
Definition start_field (offs : option cstr) : option Z :=
  match offs with
  | Some r => scan_jd r
  | None => None
  end.

Definition length_field (offs : option cstr) : option Z :=
  match offs with
  | Some r =>
      match strchr r COLON with
      | Some (_, r2) => scan_jd r2
      | None => None
      end
  | None => None
  end.

Definition or_default (d : Z) (v : option Z) : Z :=
  match v with
  | Some x => x
  | None => d
  end.

Definition same_files (a b : os) : Prop :=
  os_fs a = os_fs b /\ os_cwd a = os_cwd b.

(** ** A small name space for concrete runs *)

Fixpoint path_eqb (a b : list cstr) : bool :=
  match a, b with
  | [], [] => true
  | x :: a', y :: b' => cstr_eqb x y && path_eqb a' b'
  | _, _ => false
  end.

Fixpoint lookup_path (tbl : list (list cstr * node)) (p : list cstr)
  : option node :=
  match tbl with
  | [] => None
  | (k, v) :: t => if path_eqb k p then Some v else lookup_path t p
  end.

(** Directory /s with the backing files a, b, c, d, the empty file z, the
    file u that may not be read, and the description m-concat-x holding
    [desc]. *)
Definition sample_fs (desc : list byte) : list cstr -> option node :=
  lookup_path
    [ ([str "s"], Directory 4096);
      ([str "s"; str "a"], Regular (str "AAAA") true true);
      ([str "s"; str "b"], Regular (str "BB") true true);
      ([str "s"; str "c"], Regular (str "CCC") true true);
      ([str "s"; str "d"], Regular (str "0123456789") true true);
      ([str "s"; str "z"], Regular [] true true);
      ([str "s"; str "u"], Regular (str "UUU") false true);
      ([str "s"; str "m-concat-x"], Regular desc true true) ].

(** Descriptors 0, 1 and 2 are in use, as in a running process. *)
Definition std_fds : list (option ofile) :=
  let tty := Some (mk_ofile (Regular [] true true) O_RDWR 0) in
  [tty; tty; tty].

Definition sample_os (desc : list byte) : os :=
  mk_os (sample_fs desc) [] std_fds 64 (fun _ _ _ => Complete) 0.

(** The same system with a kernel that transfers at most [k] bytes in a
    positional read. *)
Definition short_os (desc : list byte) (k : Z) : os :=
  mk_os (sample_fs desc) [] std_fds 64 (fun _ _ _ => Partial k) 0.

Definition lines (l : list string) : list byte :=
  concat (map (fun s => str s ++ [LF]) l).

(** The description of three lines a, b, c; the description path as the
    filesystem operations build it; the sample system once the description
    has been opened for reading (descriptor 3). *)
Definition abc : list byte := lines ["a"%string; "b"%string; "c"%string].

Definition desc_path : cstr := str "/s//m-concat-x".

Definition opened (desc : list byte) : os :=
  snd (sys_open (sample_os desc) desc_path O_RDONLY).

(** The description of three lines b, d, c, and the system with a kernel
    that transfers at most [k] bytes per read, once that description has
    been opened for reading. *)
Definition bdc : list byte := lines ["b"%string; "d"%string; "c"%string].

Definition short_opened (k : Z) : os :=
  snd (sys_open (short_os bdc k) desc_path O_RDONLY).

(** The system an [open_concat_file] leaves ([o] itself when the run is
    undefined). *)
Definition os_after (o : os) (r : run (option concat_file * os)) : os :=
  match r with
  | Ret x => snd x
  | Undefined => o
  end.

(** The objects the full parse builds for the two descriptions, and the
    systems the parse leaves. *)
Definition abc_object : concat_file :=
  mk_concat_file [mk_chunk 5 0 4; mk_chunk 6 0 2; mk_chunk 7 0 3] 3 9 1.

Definition abc_served : os :=
  os_after (opened abc) (open_concat_file (opened abc) 3 desc_path).

Definition bdc_object : concat_file :=
  mk_concat_file [mk_chunk 5 0 2; mk_chunk 6 0 10; mk_chunk 7 0 3] 3 15 1.

Definition bdc_served (k : Z) : os :=
  os_after (short_opened k) (open_concat_file (short_opened k) 3 desc_path).

(** The description of two lines a, u (u cannot be opened), the object the
    full parse builds for it and the system the parse leaves. *)
Definition au : list byte := lines ["a"%string; "u"%string].

Definition au_object : concat_file :=
  mk_concat_file [mk_chunk 5 0 4; mk_chunk (-1) 0 3] 3 7 1.

Definition au_served : os :=
  os_after (opened au) (open_concat_file (opened au) 3 desc_path).

(** The system [abc_served] after the file a has been emptied, with the
    EBADF in [errno] that an earlier [get_concat_file_size] leaves there
    (its [close_concat_file] closes the descriptor -1). *)
Definition abc_shrunk : os :=
  mk_os (os_fs abc_served) (os_cwd abc_served)
    (fd_set 5 (Some (mk_ofile (Regular [] true true) O_RDONLY 0))
       (os_fds abc_served))
    (os_nofile abc_served) (os_io abc_served) EBADF.

(** A name space with a node h for which [stat] reports 2^62 bytes,
    beside the description m-concat-x holding [desc]. *)
Definition huge_fs (desc : list byte) : list cstr -> option node :=
  lookup_path
    [ ([str "s"], Directory 4096);
      ([str "s"; str "h"], Directory (2 ^ 62));
      ([str "s"; str "m-concat-x"], Regular desc true true) ].

Definition huge_os (desc : list byte) : os :=
  mk_os (huge_fs desc) [] std_fds 64 (fun _ _ _ => Complete) 0.

(** The object a parser run ends with, when it ends. *)
Definition result_cf (r : run (os * concat_file)) : option concat_file :=
  match r with
  | Ret st => Some (snd st)
  | Undefined => None
  end.

Definition empty_cf (fd : Z) : concat_file := mk_concat_file [] fd 0 1.

(** The open file in slot [i] of a descriptor table. *)
Definition slot (fds : list (option ofile)) (i : nat) : option ofile :=
  match nth_error fds i with
  | Some (Some f) => Some f
  | _ => None
  end.

(** The segments of a description as the parser accepts them: path,
    start and length of every accepted line, in order (up to a line that
    starts with a NUL byte, where the parser stops having a defined
    behaviour). *)
Fixpoint accepted_lines (o : os) (base : cstr) (bufs : list (list byte))
  : list (cstr * Z * Z) :=
  match bufs with
  | [] => []
  | b :: rest =>
      match line_path base b with
      | Undefined => []
      | Ret tpath =>
          match fst (try_parse_line_offsets o tpath) with
          | Some seg => seg :: accepted_lines o base rest
          | None => accepted_lines o base rest
          end
      end
  end.

(** A chunk is bound to a segment: it has the segment's start and length,
    and its descriptor is -1 (the open failed) or, in [o], is open for
    reading on the file the segment's path names; it is not the descriptor
    [sfd] of the stream the parser reads. *)
Definition bound (sfd : Z) (o : os) (c : chunk) (seg : cstr * Z * Z) : Prop :=
  c_startOffset c = snd (fst seg) /\ c_fsize c = snd seg /\
  c_fd c <> sfd /\
  (c_fd c = -1 \/
   exists nd, namei o (fst (fst seg)) = inr nd /\
              fd_lookup o (c_fd c) = Some (mk_ofile nd O_RDONLY 0)).

(** Two parser runs agree when both are undefined, or both end over the
    same files with the same total size. *)
Definition agree (r1 r2 : run (os * concat_file)) : Prop :=
  match r1, r2 with
  | Ret st1, Ret st2 =>
      same_files (fst st1) (fst st2) /\ cf_fsize (snd st1) = cf_fsize (snd st2)
  | Undefined, Undefined => True
  | _, _ => False
  end.

(** Invariant of the parser loop. *)
Definition parse_inv (fd : Z) (cf : concat_file) : Prop :=
  Forall chunk_wf (cf_chunks cf) /\
  (0 <= fd -> cf_fsize cf = sum_sizes (cf_chunks cf)) /\
  cf_fd cf = fd.

(** ** Descriptors, windows and bytes *)

(** The descriptors an object carries: its own and those of its chunks. *)
Definition chunk_fds (cf : concat_file) : list Z := map c_fd (cf_chunks cf).

Definition owned (cf : concat_file) : list Z := cf_fd cf :: chunk_fds cf.

Definition mem_fd (d : Z) (ds : list Z) : bool := existsb (Z.eqb d) ds.

(** A positional read lies within the window of a chunk. *)
Definition in_window (c : chunk) (call : pread_call) : Prop :=
  pc_fd call = c_fd c /\ 0 <= pc_count call /\
  c_startOffset c <= pc_offset call /\
  pc_offset call + pc_count call <= c_startOffset c + c_fsize c.

Definition sum_count (t : list pread_call) : Z :=
  fold_right (fun c acc => pc_count c + acc) 0 t.

Definition sum_lengths (segs : list (cstr * Z * Z)) : Z :=
  fold_right (fun seg acc => snd seg + acc) 0 segs.

(** The bytes of the regular file a path names. *)
Definition file_bytes (o : os) (p : cstr) : option (list byte) :=
  match namei o p with
  | inr (Regular d _ _) => Some d
  | _ => None
  end.

(** The bytes a segment (path, start, length) denotes. *)
Definition segment_bytes (o : os) (seg : cstr * Z * Z) : list byte :=
  match file_bytes o (fst (fst seg)) with
  | Some d => firstn (Z.to_nat (snd seg)) (skipn (Z.to_nat (snd (fst seg))) d)
  | None => []
  end.

(** The line buffers the parser reads from the description [path] names. *)
Definition description_lines (o : os) (path : cstr) : list (list byte) :=
  match namei o path with
  | inr nd =>
      let text := stream_text (mk_ofile nd O_RDONLY 0) in
      read_lines (List.length text) text
  | inl _ => []
  end.

(** A chunk serves a segment: same start and length, and a descriptor that
    is -1 or is open for reading on the file the segment's path names. *)
Definition serves (o : os) (c : chunk) (seg : cstr * Z * Z) : Prop :=
  c_startOffset c = snd (fst seg) /\ c_fsize c = snd seg /\
  (c_fd c = -1 \/
   exists nd, namei o (fst (fst seg)) = inr nd /\
              fd_lookup o (c_fd c) = Some (mk_ofile nd O_RDONLY 0)).

(** The line buffers the parser reads through the descriptor [fd]: the
    text of the file the descriptor is open on, from its position. *)
Definition stream_lines (o : os) (fd : Z) : list (list byte) :=
  match fd_lookup o fd with
  | Some f => read_lines (List.length (stream_text f)) (stream_text f)
  | None => []
  end.

(** The backing-file slice of a segment (path, start, length): [length]
    bytes, from [start], of the file the path names.  (A directory has
    no bytes to read; its slice is padding, like the positions a file does
    not have.) *)
Definition segment_slice (o : os) (seg : cstr * Z * Z) : list byte :=
  pslice (match file_bytes o (fst (fst seg)) with
          | Some d => d
          | None => []
          end)
    (Z.to_nat (snd (fst seg))) (Z.to_nat (snd seg)).

(** The virtual file a description denotes: the slices of its accepted
    segments, in the order of its lines. *)
Definition described_bytes (o : os) (base : cstr) (bufs : list (list byte))
  : list byte :=
  concat (map (segment_slice o) (accepted_lines o base bufs)).

(** [sl] stands for the backing slice of the chunk [c]: it has the length
    of the chunk, and it is the slice of the file the descriptor of the
    chunk is open on whenever that descriptor is open. *)
Definition stands_for (o : os) (c : chunk) (sl : list byte) : Prop :=
  List.length sl = Z.to_nat (c_fsize c) /\
  (fd_lookup o (c_fd c) <> None -> sl = backing_slice o c).

(** Two systems that differ at most in [errno]. *)
Definition same_but_errno (a b : os) : Prop :=
  os_fs a = os_fs b /\ os_cwd a = os_cwd b /\ os_fds a = os_fds b /\
  os_nofile a = os_nofile b /\ os_io a = os_io b.

(** A chunk whose reads the system serves in full: its descriptor is open
    read-only on a regular file that holds the whole window, and the
    kernel transfers all the bytes asked for. *)
Definition servable (o : os) (c : chunk) : Prop :=
  exists d r w pos,
    fd_lookup o (c_fd c) = Some (mk_ofile (Regular d r w) O_RDONLY pos) /\
    c_startOffset c + c_fsize c <= Z.of_nat (List.length d) /\
    forall n off, os_io o (c_fd c) n off = Complete.

(** An object of the proof of concept as an object of concatfs: every
    chunk starts at offset 0 of its backing file. *)
Definition lift_chunk (c : Poc.chunk) : chunk :=
  mk_chunk (Poc.c_fd c) 0 (Poc.c_fsize c).

Definition lift_file (cf : Poc.concat_file) : concat_file :=
  mk_concat_file (map lift_chunk (Poc.cf_chunks cf)) (Poc.cf_fd cf)
    (Poc.cf_fsize cf) (Poc.cf_refcount cf).

(** The descriptors that are descriptors (0 or more), and those the
    registered objects carry. *)
Definition live (ds : list Z) : list Z := filter (fun d => 0 <=? d) ds.

Definition reg_fds (reg : registry) : list Z := flat_map owned reg.

(** Invariant of the registry: no descriptor is carried twice, by one
    object or by two, and every descriptor carried is open. *)
Definition reg_inv (o : os) (reg : registry) : Prop :=
  NoDup (live (reg_fds reg)) /\
  Forall (fun d => fd_lookup o d <> None) (live (reg_fds reg)).

Ltac close_fields :=
  cbv zeta; simpl or_default; f_equal; f_equal; f_equal; [f_equal|]; lia.

(** * Properties *)

(** ** C library routines *)

Lemma is_prefix_app (p s : cstr) :
  is_prefix p s = true <-> exists post, s = p ++ post.
Proof.
  revert s; induction p as [|a p IH]; intros s; simpl.
  - split; [intros _; exists s; reflexivity | reflexivity].
  - destruct s as [|b s].
    + split; [discriminate | intros [post H]; discriminate].
    + rewrite andb_true_iff, Ascii.eqb_eq, IH. split.
      * intros [-> [post ->]]. exists post. reflexivity.
      * intros [post H]. injection H as -> ->. split; [reflexivity | eauto].
Qed.

Lemma strstr_occurs (hay needle : cstr) :
  (exists r, strstr hay needle = Some r) <->
  (exists pre post, hay = pre ++ needle ++ post).
Proof.
  split.
  - induction hay as [|a t IH]; simpl.
    + destruct (is_prefix needle []) eqn:E; intros [r H]; [|discriminate].
      apply is_prefix_app in E. destruct E as [post E].
      exists [], post. exact E.
    + destruct (is_prefix needle (a :: t)) eqn:E; intros [r H].
      * apply is_prefix_app in E. destruct E as [post E].
        exists [], post. exact E.
      * destruct IH as [pre [post ->]]; [eauto|].
        exists (a :: pre), post. reflexivity.
  - intros [pre [post ->]]. induction pre as [|a pre IH]; simpl.
    + assert (E : is_prefix needle (needle ++ post) = true)
        by (apply is_prefix_app; eauto).
      destruct (needle ++ post); simpl; rewrite E; eauto.
    + destruct (is_prefix needle (a :: pre ++ needle ++ post)); eauto.
Qed.

Lemma dropwhile_head {A} (p : A -> bool) (x : A) (l : list A) :
  p x = false -> dropwhile p (x :: l) = x :: l.
Proof. intros H; simpl; rewrite H; reflexivity. Qed.

Lemma takewhile_app_stop {A} (p : A -> bool) (l : list A) (x : A) (r : list A) :
  forallb p l = true -> p x = false -> takewhile p (l ++ x :: r) = l.
Proof.
  intros Hl Hx. induction l as [|a l IH]; simpl in *.
  - rewrite Hx; reflexivity.
  - apply andb_true_iff in Hl. destruct Hl as [Ha Hl].
    rewrite Ha, IH by assumption. reflexivity.
Qed.

Lemma forallb_rev {A} (p : A -> bool) (l : list A) :
  forallb p (rev l) = forallb p l.
Proof.
  induction l as [|a l IH]; simpl; [reflexivity|].
  rewrite forallb_app, IH. simpl. rewrite andb_true_r. apply andb_comm.
Qed.

(** The name after the last slash is the [basename] of a path that does
    not end in a slash. *)
Lemma basename_join (dir name : cstr) :
  name <> [] -> forallb not_slash name = true ->
  basename (dir ++ SLASH :: name) = name.
Proof.
  intros Hne Hns. unfold basename.
  destruct (dir ++ SLASH :: name) eqn:E; [destruct dir; discriminate|].
  rewrite <- E. clear E.
  rewrite rev_app_distr. simpl rev. rewrite <- app_assoc. simpl app.
  rewrite <- (forallb_rev _ name) in Hns.
  destruct (rev name) as [|x xs] eqn:R.
  - apply (f_equal (@rev _)) in R. rewrite rev_involutive in R. contradiction.
  - assert (Hx : is_slash x = false).
    { simpl in Hns. apply andb_true_iff in Hns. destruct Hns as [Hx _].
      unfold not_slash in Hx. destruct (is_slash x); [discriminate|reflexivity]. }
    simpl app. rewrite dropwhile_head by exact Hx.
    simpl in Hns. apply andb_true_iff in Hns. destruct Hns as [Hnx Hxs].
    simpl. rewrite Hnx.
    rewrite takewhile_app_stop; [| exact Hxs | reflexivity].
    rewrite <- R. apply rev_involutive.
Qed.

(** ** The path classifier *)

Lemma is_concatfs_file_ret (p : cstr) :
  (length p < PATH_MAX)%nat ->
  is_concatfs_file p =
    Ret (match strstr (basename p) marker with Some _ => true | None => false end).
Proof.
  intros H. unfold is_concatfs_file, strncpy.
  apply Nat.ltb_lt in H. rewrite H. reflexivity.
Qed.

(** C6. [is_concatfs_file p] holds exactly when the basename of [p]
    contains "-concat-"; paths with the same basename are classified
    alike; and for a path [dir/name] the answer is read off [name] alone,
    whatever [dir] contains.  (The array the path is copied into holds
    paths shorter than [PATH_MAX].) *)
Theorem is_concatfs_file_basename (p : cstr) :
  (length p < PATH_MAX)%nat ->
  (is_concatfs_file p = Ret true <->
     exists pre post, basename p = pre ++ marker ++ post)
  /\ (is_concatfs_file p = Ret true \/ is_concatfs_file p = Ret false)
  /\ (forall q, (length q < PATH_MAX)%nat -> basename q = basename p ->
        is_concatfs_file q = is_concatfs_file p)
  /\ (forall dir name,
        p = dir ++ SLASH :: name -> name <> [] ->
        forallb not_slash name = true ->
        (is_concatfs_file p = Ret true <->
           exists pre post, name = pre ++ marker ++ post)).
Proof.
  intros Hp.
  assert (Hiff : is_concatfs_file p = Ret true <->
            exists pre post, basename p = pre ++ marker ++ post).
  { rewrite is_concatfs_file_ret by exact Hp.
    rewrite <- strstr_occurs.
    destruct (strstr (basename p) marker) as [r|]; split.
    - eauto.
    - reflexivity.
    - discriminate.
    - intros [r H]; discriminate. }
  split; [exact Hiff|]. split; [|split].
  - rewrite is_concatfs_file_ret by exact Hp.
    destruct (strstr (basename p) marker); auto.
  - intros q Hq Hb. rewrite !is_concatfs_file_ret by assumption.
    rewrite Hb. reflexivity.
  - intros dir name -> Hne Hns. rewrite Hiff.
    rewrite basename_join by assumption. reflexivity.
Qed.

Lemma is_concatfs_file_basename_witness :
  is_concatfs_file (str "/x-concat-y/plain") = Ret true <->
  exists pre post, str "plain" = pre ++ marker ++ post.
Proof.
  assert (H : (length (str "/x-concat-y/plain") < PATH_MAX)%nat)
    by (apply Nat.ltb_lt; vm_compute; reflexivity).
  apply (proj2 (proj2 (proj2 (is_concatfs_file_basename _ H)))
           (str "/x-concat-y") (str "plain")).
  - reflexivity.
  - discriminate.
  - reflexivity.
Defined.

(** The proof-of-concept classifier differs: it searches the whole path,
    so a marker in a directory name is enough for it. *)
Lemma poc_classifier_whole_path :
  Poc.is_concatfs_file (str "/x-concat-y/plain") = true /\
  is_concatfs_file (str "/x-concat-y/plain") = Ret false.
Proof. split; vm_compute; reflexivity. Qed.

(** ** The offsets of a description line *)

Lemma MIN_min (a b : Z) : MIN a b = Z.min a b.
Proof. unfold MIN. destruct (Z.ltb_spec a b); lia. Qed.

Lemma MAX_max (a b : Z) : MAX a b = Z.max a b.
Proof.
  unfold MAX. rewrite Z.gtb_ltb. destruct (Z.ltb_spec b a); lia.
Qed.

Lemma CLAMP_spec (x m M : Z) : CLAMP x m M = Z.min M (Z.max x m).
Proof. unfold CLAMP. rewrite MIN_min, MAX_max. reflexivity. Qed.

Lemma scan_start_default (offs : option cstr) :
  scan_start offs = or_default (-1) (start_field offs).
Proof.
  destruct offs as [r|]; simpl; [destruct (scan_jd r)|]; reflexivity.
Qed.

Lemma scan_length_default (offs : option cstr) :
  scan_length offs = or_default OFF_T_MAX (length_field offs).
Proof.
  destruct offs as [r|]; simpl; [|reflexivity].
  destruct (strchr r COLON) as [[a r2]|]; [destruct (scan_jd r2)|]; reflexivity.
Qed.

Lemma sys_stat_some (o : os) (p : cstr) (size : Z) (o1 : os) :
  sys_stat o p = (Some size, o1) ->
  o1 = o /\ 0 <= size <= OFF_T_MAX /\
  exists nd, namei o p = inr nd /\ node_size nd = size.
Proof.
  unfold sys_stat. destruct (namei o p) as [e|nd]; [discriminate|].
  destruct (Z.leb_spec (node_size nd) OFF_T_MAX); [|discriminate].
  intros E; injection E as <- <-. repeat split; eauto.
  destruct nd; simpl; lia.
Qed.

(** The [sscanf] calls change [errno] and nothing else. *)
Lemma sscanf_errno_set (s : cstr) (o : os) :
  sscanf_errno s o = set_errno (os_errno (sscanf_errno s o)) o.
Proof.
  unfold sscanf_errno. destruct (scan_jd_errno s); [reflexivity|].
  destruct o; reflexivity.
Qed.

Lemma scan_errno_set (offs : option cstr) (o : os) :
  scan_errno offs o = set_errno (os_errno (scan_errno offs o)) o.
Proof.
  unfold scan_errno. destruct offs as [r|]; [|destruct o; reflexivity].
  destruct (strchr r COLON) as [[a r2]|]; [|apply sscanf_errno_set].
  rewrite (sscanf_errno_set r2). rewrite (sscanf_errno_set r) at 2.
  reflexivity.
Qed.

Lemma scan_errno_fs (offs : option cstr) (o : os) :
  os_fs (scan_errno offs o) = os_fs o /\
  os_cwd (scan_errno offs o) = os_cwd o /\
  os_fds (scan_errno offs o) = os_fds o /\
  os_nofile (scan_errno offs o) = os_nofile o /\
  os_io (scan_errno offs o) = os_io o.
Proof. rewrite scan_errno_set. repeat split. Qed.

(** What [try_parse_line_offsets] returns when it accepts a line. *)
Lemma try_parse_line_offsets_some (o : os) (line path : cstr) (s l : Z) (o1 : os) :
  try_parse_line_offsets o line = (Some (path, s, l), o1) ->
  exists size offs,
    line <> [] /\ cut_line line = (path, offs) /\
    sys_stat o path = (Some size, o) /\ o1 = scan_errno offs o /\ 1 <= size /\
    s = CLAMP (scan_start offs) 0 (size - 1) /\
    l = CLAMP (scan_length offs) 1 (size - s).
Proof.
  unfold try_parse_line_offsets. destruct line as [|a line]; [discriminate|].
  destruct (cut_line (a :: line)) as [p offs].
  destruct (sys_stat o p) as [[size|] o2] eqn:St; [|discriminate].
  destruct (sys_stat_some _ _ _ _ St) as [-> _].
  destruct (Z.ltb_spec size 1); [discriminate|].
  intros E; injection E as <- <- <- <-.
  exists size, offs. repeat split; try assumption; discriminate.
Qed.

(** The outputs are within the file. *)
Lemma try_parse_line_offsets_bounds (o : os) (line path : cstr) (s l : Z) (o1 : os) :
  try_parse_line_offsets o line = (Some (path, s, l), o1) ->
  0 <= s /\ 1 <= l /\ s + l <= OFF_T_MAX.
Proof.
  intros H. apply try_parse_line_offsets_some in H.
  destruct H as [size [offs [_ [_ [St [_ [Hsz [Hs Hl]]]]]]]].
  pose proof (sys_stat_some _ _ _ _ St) as [_ [Hb _]].
  rewrite CLAMP_spec in Hs, Hl. lia.
Qed.

Lemma strchr_app (pre post : cstr) (c : ascii) :
  forallb (fun x => negb (x =? c)%char) pre = true ->
  strchr (pre ++ c :: post) c = Some (pre, post).
Proof.
  induction pre as [|a pre IH]; simpl; intros H.
  - rewrite Ascii.eqb_refl. reflexivity.
  - apply andb_true_iff in H. destruct H as [Ha H].
    destruct (a =? c)%char; [discriminate|]. rewrite IH by exact H. reflexivity.
Qed.

(** A line [path ++ ":" ++ rest] whose path stats to a non-empty file. *)
Lemma try_parse_line_offsets_fields (o : os) (path rest : cstr) (size : Z) :
  path <> [] ->
  forallb (fun x => negb (x =? COLON)%char) path = true ->
  sys_stat o path = (Some size, o) -> 1 <= size ->
  let s := Z.min (size - 1) (Z.max 0 (or_default 0 (start_field (Some rest)))) in
  try_parse_line_offsets o (path ++ COLON :: rest) =
    (Some (path, s,
           Z.min (size - s)
             (Z.max 1 (or_default (size - s) (length_field (Some rest))))),
     scan_errno (Some rest) o).
Proof.
  intros Hne Hnc St Hsz s.
  pose proof (sys_stat_some _ _ _ _ St) as [_ [Hb _]].
  unfold try_parse_line_offsets, cut_line.
  rewrite strchr_app by exact Hnc.
  destruct (path ++ COLON :: rest) eqn:E; [destruct path; discriminate|].
  rewrite St. destruct (Z.ltb_spec size 1); [lia|].
  rewrite !CLAMP_spec, scan_start_default, scan_length_default.
  assert (Hs : Z.min (size - 1) (Z.max (or_default (-1) (start_field (Some rest))) 0) = s).
  { subst s. destruct (start_field (Some rest)); simpl; lia. }
  rewrite Hs. f_equal. f_equal. f_equal.
  assert (0 <= s <= size - 1) by (subst s; lia).
  destruct (length_field (Some rest)); simpl; lia.
Qed.

Lemma scan_errno_examples (o : os) :
  scan_errno (Some []) o = set_errno 0 o /\
  scan_errno (Some (str ":7")) o = o /\
  scan_errno (Some (str "5:")) o = set_errno 0 o.
Proof. repeat split. Qed.

(** C4, as the code has it.  A line that is accepted gets the start the
    line gives (0 when it gives none) clamped to [0, size - 1], and the
    length it gives (the rest of the file from the start when it gives
    none) clamped to [1, size - start].  So "path:" yields start 0 and the
    whole size, "path::7" start 0 and length min(7, size), and "path:5:"
    start min(5, size - 1) with the rest of the file as length: start 5
    and length size - 5 only when the file has more than 5 bytes.  The
    system is left as it was but for [errno], which the [sscanf] calls
    clear where a field is empty at the end of the line. *)
Theorem try_parse_line_offsets_clamps (o : os) :
  (forall line path s l o1,
      try_parse_line_offsets o line = (Some (path, s, l), o1) ->
      exists size offs,
        cut_line line = (path, offs) /\
        sys_stat o path = (Some size, o) /\ o1 = scan_errno offs o /\
        1 <= size /\
        s = Z.min (size - 1) (Z.max 0 (or_default 0 (start_field offs))) /\
        l = Z.min (size - s)
              (Z.max 1 (or_default (size - s) (length_field offs))) /\
        0 <= s <= size - 1 /\ 1 <= l <= size - s)
  /\
  (forall path size,
      path <> [] ->
      forallb (fun x => negb (x =? COLON)%char) path = true ->
      sys_stat o path = (Some size, o) -> 1 <= size ->
      try_parse_line_offsets o (path ++ str ":") =
        (Some (path, 0, size), set_errno 0 o) /\
      try_parse_line_offsets o (path ++ str "::7") =
        (Some (path, 0, Z.min 7 size), o) /\
      try_parse_line_offsets o (path ++ str ":5:") =
        (Some (path, Z.min 5 (size - 1), size - Z.min 5 (size - 1)),
         set_errno 0 o) /\
      (5 < size ->
       try_parse_line_offsets o (path ++ str ":5:") =
         (Some (path, 5, size - 5), set_errno 0 o))).
Proof.
  split.
  - intros line path s l o1 H.
    apply try_parse_line_offsets_some in H.
    destruct H as [size [offs [_ [Hc [St [Ho [Hsz [Hs Hl]]]]]]]].
    pose proof (sys_stat_some _ _ _ _ St) as [_ [Hb _]].
    exists size, offs.
    rewrite CLAMP_spec, scan_start_default in Hs.
    rewrite CLAMP_spec, scan_length_default in Hl.
    assert (Es : s = Z.min (size - 1) (Z.max 0 (or_default 0 (start_field offs)))).
    { rewrite Hs. destruct (start_field offs); simpl; lia. }
    assert (Bs : 0 <= s <= size - 1) by lia.
    assert (El : l = Z.min (size - s)
                       (Z.max 1 (or_default (size - s) (length_field offs)))).
    { rewrite Hl. destruct (length_field offs); simpl; lia. }
    repeat split; try assumption; lia.
  - intros path size Hne Hnc St Hsz.
    pose proof (try_parse_line_offsets_fields o path) as F.
    destruct (scan_errno_examples o) as [S1 [S2 S3]].
    assert (E1 : try_parse_line_offsets o (path ++ str ":") =
                 (Some (path, 0, size), set_errno 0 o)).
    { change (str ":") with (COLON :: []).
      rewrite (F [] size Hne Hnc St Hsz), S1.
      change (start_field (Some [])) with (@None Z).
      change (length_field (Some [])) with (@None Z).
      close_fields. }
    assert (E2 : try_parse_line_offsets o (path ++ str "::7") =
                 (Some (path, 0, Z.min 7 size), o)).
    { change (str "::7") with (COLON :: str ":7").
      rewrite (F (str ":7") size Hne Hnc St Hsz), S2.
      change (start_field (Some (str ":7"))) with (@None Z).
      change (length_field (Some (str ":7"))) with (Some 7).
      close_fields. }
    assert (E3 : try_parse_line_offsets o (path ++ str ":5:") =
                 (Some (path, Z.min 5 (size - 1), size - Z.min 5 (size - 1)),
                  set_errno 0 o)).
    { change (str ":5:") with (COLON :: str "5:").
      rewrite (F (str "5:") size Hne Hnc St Hsz), S3.
      change (start_field (Some (str "5:"))) with (Some 5).
      change (length_field (Some (str "5:"))) with (@None Z).
      close_fields. }
    repeat split; try assumption.
    intros H5. rewrite E3. close_fields.
Qed.

Lemma try_parse_line_offsets_clamps_witness :
  try_parse_line_offsets (sample_os []) (str "/s/d:5:") =
    (Some (str "/s/d", 5, 10 - 5), sample_os []).
Proof.
  apply (proj2 (try_parse_line_offsets_clamps (sample_os [])) (str "/s/d") 10).
  - discriminate.
  - reflexivity.
  - reflexivity.
  - lia.
  - lia.
Defined.

(** The statement of C4 with start 5 and length size - 5 for every file
    fails on a file of 3 bytes: "path:5:" gives start 2 and length 1. *)
Lemma start_five_on_short_file :
  sys_stat (sample_os []) (str "/s/c") = (Some 3, sample_os []) /\
  try_parse_line_offsets (sample_os []) (str "/s/c:5:") =
    (Some (str "/s/c", 2, 1), sample_os []) /\
  (2, 1) <> (5, 3 - 5).
Proof.
  split; [reflexivity|]. split; [reflexivity|]. discriminate.
Qed.

(** ** One line of a description *)


(** A line the offsets parser rejects leaves the object as it was. *)
Lemma parse_line_rejected (fd : Z) (base : cstr) (o : os) (cf : concat_file)
  (buf : list byte) (tpath : cstr) :
  line_path base buf = Ret tpath ->
  fst (try_parse_line_offsets o tpath) = None ->
  parse_line fd base (o, cf) buf =
    Ret (snd (try_parse_line_offsets o tpath), cf).
Proof.
  intros Hp Hr. unfold parse_line. rewrite Hp. simpl.
  destruct (try_parse_line_offsets o tpath) as [[[[p s] l]|] o1];
    [discriminate | reflexivity].
Qed.

(** The offsets parser rejects a path that does not stat and a file of
    size 0. *)
Lemma try_parse_line_offsets_rejects (o : os) (line : cstr) :
  (fst (sys_stat o (fst (cut_line line))) = None \/
   fst (sys_stat o (fst (cut_line line))) = Some 0) ->
  fst (try_parse_line_offsets o line) = None.
Proof.
  intros H. unfold try_parse_line_offsets.
  destruct line as [|a line]; [reflexivity|].
  destruct (cut_line (a :: line)) as [p offs]. simpl in H.
  destruct (sys_stat o p) as [[size|] o1]; simpl in *.
  - destruct H as [H|H]; [discriminate|]. injection H as ->. reflexivity.
  - reflexivity.
Qed.

Lemma line_unstatable_or_empty_ignored (fd : Z) (base : cstr) (o : os)
  (cf : concat_file) (buf : list byte) (tpath : cstr) :
  line_path base buf = Ret tpath ->
  (fst (sys_stat o (fst (cut_line tpath))) = None \/
   fst (sys_stat o (fst (cut_line tpath))) = Some 0) ->
  result_cf (parse_line fd base (o, cf) buf) = Some cf.
Proof.
  intros Hp H. erewrite parse_line_rejected by
    (try exact Hp; apply try_parse_line_offsets_rejects; exact H).
  reflexivity.
Qed.

Lemma sys_open_result (o : os) (p : cstr) (a : access) :
  fst (sys_open o p a) = -1 \/ 0 <= fst (sys_open o p a).
Proof.
  unfold sys_open. destruct (namei o p); [left; reflexivity|].
  destruct (permits n a); [left; reflexivity|].
  unfold install. destruct (_ <? _)%nat; simpl; [right; lia | left; reflexivity].
Qed.

(** The running total: the sum when [off_t] holds it. *)
Lemma off_t_add_ret (a b t : Z) :
  off_t_add a b = Ret t <->
  t = a + b /\ - OFF_T_MAX - 1 <= a + b <= OFF_T_MAX.
Proof.
  unfold off_t_add.
  destruct (Z.leb_spec (- OFF_T_MAX - 1) (a + b)) as [H1|H1];
    destruct (Z.leb_spec (a + b) OFF_T_MAX) as [H2|H2]; cbn [andb];
    (split; [|intros [-> H]; first [reflexivity | lia]]);
    try discriminate.
  intros E; injection E as <-. split; [reflexivity | lia].
Qed.

Lemma add_size_ret (cf : concat_file) (n : Z) (cf1 : concat_file) :
  add_size cf n = Ret cf1 ->
  - OFF_T_MAX - 1 <= cf_fsize cf + n <= OFF_T_MAX /\
  cf1 = mk_concat_file (cf_chunks cf) (cf_fd cf) (cf_fsize cf + n)
          (cf_refcount cf).
Proof.
  unfold add_size.
  destruct (off_t_add (cf_fsize cf) n) as [|t] eqn:E; cbn [run_bind];
    [discriminate|].
  apply off_t_add_ret in E. destruct E as [-> Hb].
  intros H; injection H as <-. split; [exact Hb | reflexivity].
Qed.

Lemma add_size_fits (cf : concat_file) (n : Z) :
  - OFF_T_MAX - 1 <= cf_fsize cf + n <= OFF_T_MAX ->
  add_size cf n =
    Ret (mk_concat_file (cf_chunks cf) (cf_fd cf) (cf_fsize cf + n)
           (cf_refcount cf)).
Proof.
  intros H. unfold add_size.
  rewrite (proj2 (off_t_add_ret _ _ (cf_fsize cf + n))) by auto.
  reflexivity.
Qed.

Lemma add_size_undefined (cf : concat_file) (n : Z) :
  0 <= cf_fsize cf -> 0 <= n ->
  (add_size cf n = Undefined <-> OFF_T_MAX < cf_fsize cf + n).
Proof.
  intros Hc Hn. split.
  - intros E. destruct (Z_lt_le_dec OFF_T_MAX (cf_fsize cf + n)) as [H|H];
      [exact H|].
    rewrite add_size_fits in E; [discriminate|].
    unfold OFF_T_MAX in *. lia.
  - intros H. destruct (add_size cf n) as [|cf1] eqn:E; [reflexivity|].
    apply add_size_ret in E. lia.
Qed.

(** A line the offsets parser accepts, in a parse that opens the backing
    files: the length is added and a chunk is appended, with whatever
    [open] returned as its descriptor. *)
Lemma parse_line_accepted (fd : Z) (base : cstr) (o : os) (cf : concat_file)
  (buf : list byte) (tpath path : cstr) (s l : Z) (o1 : os)
  (cf1 : concat_file) :
  0 <= fd ->
  line_path base buf = Ret tpath ->
  try_parse_line_offsets o tpath = (Some (path, s, l), o1) ->
  add_size cf l = Ret cf1 ->
  parse_line fd base (o, cf) buf =
    Ret (snd (sys_open o1 path O_RDONLY),
         add_chunk cf1 (mk_chunk (fst (sys_open o1 path O_RDONLY)) s l)).
Proof.
  intros Hfd Hp Ht Ha. unfold parse_line. rewrite Hp. simpl. rewrite Ht, Ha.
  cbn [run_bind].
  destruct (Z.geb_spec fd 0); [|lia].
  destruct (sys_open o1 path O_RDONLY); reflexivity.
Qed.

Lemma parse_line_size_only (fd : Z) (base : cstr) (o : os) (cf : concat_file)
  (buf : list byte) (tpath path : cstr) (s l : Z) (o1 : os)
  (cf1 : concat_file) :
  fd < 0 ->
  line_path base buf = Ret tpath ->
  try_parse_line_offsets o tpath = (Some (path, s, l), o1) ->
  add_size cf l = Ret cf1 ->
  parse_line fd base (o, cf) buf = Ret (o1, cf1).
Proof.
  intros Hfd Hp Ht Ha. unfold parse_line. rewrite Hp. simpl. rewrite Ht, Ha.
  cbn [run_bind].
  destruct (Z.geb_spec fd 0); [lia|]. reflexivity.
Qed.

(** C8, as the code has it.  In a parse that opens the backing files, a
    line whose path stats to a non-empty file but whose read-only [open]
    fails is not skipped: the chunk is appended with descriptor -1 and the
    (positive) length of the segment is added to the total size.  (The
    total with the length added is taken to be an [off_t]: the addition
    comes before the [open] and has no defined behaviour otherwise.) *)
Theorem failed_open_keeps_segment (fd : Z) (base : cstr) (o : os)
  (cf : concat_file) (buf : list byte) (tpath path : cstr) (s l : Z) (o1 : os) :
  0 <= fd ->
  line_path base buf = Ret tpath ->
  try_parse_line_offsets o tpath = (Some (path, s, l), o1) ->
  - OFF_T_MAX - 1 <= cf_fsize cf + l <= OFF_T_MAX ->
  fst (sys_open o1 path O_RDONLY) < 0 ->
  exists cf',
    result_cf (parse_line fd base (o, cf) buf) = Some cf' /\
    cf_chunks cf' = cf_chunks cf ++ [mk_chunk (-1) s l] /\
    cf_fsize cf' = cf_fsize cf + l /\ 1 <= l.
Proof.
  intros Hfd Hp Ht Hfit Ho.
  rewrite (parse_line_accepted fd base o cf buf tpath path s l o1 _ Hfd Hp Ht
             (add_size_fits cf l Hfit)).
  destruct (sys_open_result o1 path O_RDONLY) as [E|E]; [|lia].
  rewrite E. eexists. split; [reflexivity|]. simpl.
  repeat split.
  pose proof (try_parse_line_offsets_bounds _ _ _ _ _ _ Ht). lia.
Qed.

Lemma failed_open_keeps_segment_witness :
  exists cf',
    result_cf (parse_line 3 (str "/s") (sample_os [], empty_cf 3)
                 (str "u" ++ [LF])) = Some cf' /\
    cf_chunks cf' = [] ++ [mk_chunk (-1) 0 3] /\
    cf_fsize cf' = 0 + 3 /\ 1 <= 3.
Proof.
  apply (failed_open_keeps_segment 3 (str "/s") (sample_os []) (empty_cf 3)
           (str "u" ++ [LF]) (str "/s/u") (str "/s/u") 0 3 (sample_os [])).
  - lia.
  - vm_compute. reflexivity.
  - vm_compute. reflexivity.
  - vm_compute. split; discriminate.
  - vm_compute. reflexivity.
Defined.

(** The statement of C8 fails on the backing file u, which stats to 3
    bytes and cannot be opened: the parse appends a chunk for it and
    counts its 3 bytes. *)
Lemma unreadable_backing_file_counted :
  fst (sys_stat (sample_os []) (str "/s/u")) = Some 3 /\
  fst (sys_open (sample_os []) (str "/s/u") O_RDONLY) = -1 /\
  result_cf (parse_line 3 (str "/s") (sample_os [], empty_cf 3)
               (str "u" ++ [LF]))
    = Some (mk_concat_file [mk_chunk (-1) 0 3] 3 3 1) /\
  [mk_chunk (-1) 0 3] <> [] /\ 3 <> 0.
Proof.
  repeat split; try (vm_compute; reflexivity); discriminate.
Qed.

(** A blank line names the directory of the description: when that
    directory stats with a non-zero size, the line is accepted. *)
Lemma blank_line_path (base : cstr) :
  line_path base [LF] = Ret (snprintf_path PATH_MAX base []).
Proof. reflexivity. Qed.

Lemma blank_line_counted (fd : Z) (base : cstr) (o : os) (cf : concat_file)
  (size : Z) (cf1 : concat_file) :
  fd < 0 ->
  snprintf_path PATH_MAX base [] <> [] ->
  strchr (snprintf_path PATH_MAX base []) COLON = None ->
  sys_stat o (snprintf_path PATH_MAX base []) = (Some size, o) ->
  1 <= size ->
  add_size cf size = Ret cf1 ->
  parse_line fd base (o, cf) [LF] = Ret (o, cf1).
Proof.
  intros Hfd Hne Hc St Hsz Ha.
  pose proof (sys_stat_some _ _ _ _ St) as [_ [Hb _]].
  apply (parse_line_size_only fd base o cf [LF] _
           (snprintf_path PATH_MAX base []) 0 size o cf1 Hfd
           (blank_line_path base)); [|exact Ha].
  unfold try_parse_line_offsets, cut_line. rewrite Hc.
  destruct (snprintf_path PATH_MAX base []) eqn:E; [contradiction|].
  rewrite St. destruct (Z.ltb_spec size 1); [lia|].
  rewrite !CLAMP_spec. simpl scan_start. simpl scan_length.
  f_equal. f_equal. f_equal; [f_equal|]; lia.
Qed.

(** C3 at a description that is one blank line, in directory /s (which
    stats with size 4096): the size-only parse reports 4096 bytes, and the
    open registers an object with one chunk of 4096 bytes bound to the
    directory.  The line is not ignored. *)
Theorem blank_line_adds_directory_segment :
  (r <- get_concat_file_size (sample_os [LF]) (str "/s//m-concat-x") ;;
   Ret (fst r)) = Ret 4096
  /\
  (r <- concatfs_open (str "/s") (sample_os [LF]) [] (str "/m-concat-x")
          O_RDONLY ;;
   Ret (or_ret r, or_reg r))
  = Ret (0, [mk_concat_file [mk_chunk 5 0 4096] 3 4096 1]).
Proof. split; vm_compute; reflexivity. Qed.

(** ** Opening a description that cannot be parsed *)

Lemma concatfs_open_null_object (src_dir : cstr) (o : os) (reg : registry)
  (path : cstr) (flags : access) (fd : Z) (o1 o2 : os) :
  sys_open o (snprintf_path PATH_MAX src_dir path) flags = (fd, o1) ->
  0 <= fd ->
  is_concatfs_file path = Ret true ->
  open_concat_file o1 fd (snprintf_path PATH_MAX src_dir path) = Ret (None, o2) ->
  concatfs_open src_dir o reg path flags = Undefined.
Proof.
  intros Ho Hfd Hv Hp. unfold concatfs_open. rewrite Ho.
  destruct (Z.ltb_spec fd 0); [lia|].
  rewrite Hv. simpl. rewrite Hp. reflexivity.
Qed.

(** C7 at a description opened for writing only.  The [open] of the
    description succeeds; [fdopen(dup(fd), "r")] fails on the write-only
    descriptor, so [open_concat_file] returns the null pointer;
    [open_files_push_front] then stores through it. *)
Theorem open_for_writing_pushes_null :
  fst (sys_open (sample_os (lines ["a"%string])) (str "/s//m-concat-x") O_WRONLY) = 3
  /\
  (r <- open_concat_file
          (snd (sys_open (sample_os (lines ["a"%string])) (str "/s//m-concat-x") O_WRONLY))
          3 (str "/s//m-concat-x") ;;
   Ret (fst r)) = Ret None
  /\
  open_files_push_front None [] = Undefined
  /\
  concatfs_open (str "/s") (sample_os (lines ["a"%string])) [] (str "/m-concat-x")
    O_WRONLY = Undefined.
Proof. repeat split; vm_compute; reflexivity. Qed.

(** ** The last character of a line *)

Lemma c_str_no_nul (x y : list ascii) :
  ~ In NUL x -> c_str (x ++ y) = x ++ c_str y.
Proof.
  induction x as [|a x IH]; simpl; intros H; [reflexivity|].
  destruct (Ascii.eqb_spec a NUL) as [->|_].
  - exfalso. apply H. left. reflexivity.
  - rewrite IH; [reflexivity|]. intros Hin. apply H. right. exact Hin.
Qed.


Lemma c_str_one (c : ascii) : c <> NUL -> c_str [c] = [c].
Proof.
  intros H. simpl. destruct (Ascii.eqb_spec c NUL); [contradiction|reflexivity].
Qed.

Lemma line_path_snoc (base : cstr) (x : list ascii) (c : ascii) :
  ~ In NUL x -> c <> NUL ->
  line_path base (x ++ [c]) = entry_path base x.
Proof.
  intros Hx Hc. unfold line_path.
  rewrite c_str_no_nul, c_str_one by assumption.
  destruct (x ++ [c]) eqn:E; [destruct x; discriminate|].
  rewrite <- E, removelast_last. reflexivity.
Qed.





Lemma parse_lines_app (fd : Z) (base : cstr) (st : os * concat_file)
  (a b : list (list byte)) :
  parse_lines fd base st (a ++ b) =
    (st1 <- parse_lines fd base st a ;; parse_lines fd base st1 b).
Proof.
  revert st. induction a as [|x a IH]; intros st; simpl; [reflexivity|].
  destruct (parse_line fd base st x) as [|st1]; simpl; [reflexivity|apply IH].
Qed.



(** The description "a", newline, "bc" without newline: the second line
    is resolved as /s/b, so the object has the 4 bytes of a and the 2
    bytes of b (there is no file /s/bc, and /s/c is not consulted). *)
Lemma unterminated_line_example :
  (r <- concatfs_open (str "/s") (sample_os (lines ["a"%string] ++ str "bc"))
          [] (str "/m-concat-x") O_RDONLY ;;
   Ret (or_reg r))
  = Ret [mk_concat_file [mk_chunk 5 0 4; mk_chunk 6 0 2] 3 6 1].
Proof. vm_compute. reflexivity. Qed.

(** ** Invariant of the objects the parser builds *)

Lemma sum_sizes_app (a b : list chunk) :
  sum_sizes (a ++ b) = sum_sizes a + sum_sizes b.
Proof.
  induction a as [|c a IH]; simpl; [reflexivity|].
  unfold sum_sizes in *. simpl. rewrite IH. lia.
Qed.

Lemma parse_line_inv (fd : Z) (base : cstr) (o : os) (cf : concat_file)
  (buf : list byte) (st : os * concat_file) :
  parse_inv fd cf ->
  parse_line fd base (o, cf) buf = Ret st ->
  parse_inv fd (snd st).
Proof.
  intros [Hwf [Hsum Hfd]]. unfold parse_line.
  destruct (line_path base buf) as [|tpath]; simpl; [discriminate|].
  destruct (try_parse_line_offsets o tpath) as [[[[p s] l]|] o1] eqn:Ht.
  - pose proof (try_parse_line_offsets_bounds _ _ _ _ _ _ Ht) as Hb.
    destruct (add_size cf l) as [|cf1] eqn:Ea; cbn [run_bind]; [discriminate|].
    apply add_size_ret in Ea. destruct Ea as [_ ->].
    destruct (Z.geb_spec fd 0).
    + destruct (sys_open o1 p O_RDONLY) as [d o2].
      intros E; injection E as <-.
      unfold parse_inv, add_chunk.
      cbn [snd cf_chunks cf_fsize cf_fd]. repeat split.
      * apply Forall_app. split; [exact Hwf|].
        constructor; [|constructor]. unfold chunk_wf; simpl. lia.
      * intros _. rewrite sum_sizes_app, Hsum by lia.
        unfold sum_sizes. simpl. lia.
      * exact Hfd.
    + intros E; injection E as <-. simpl. repeat split; [exact Hwf|lia|exact Hfd].
  - intros E; injection E as <-. simpl. repeat split; assumption.
Qed.

Lemma parse_lines_inv (fd : Z) (base : cstr) (bufs : list (list byte))
  (o : os) (cf : concat_file) (st : os * concat_file) :
  parse_inv fd cf ->
  parse_lines fd base (o, cf) bufs = Ret st ->
  parse_inv fd (snd st).
Proof.
  revert o cf. induction bufs as [|b bufs IH]; intros o cf Hinv;
    cbn [parse_lines].
  - intros E; injection E as <-. exact Hinv.
  - destruct (parse_line fd base (o, cf) b) as [|[o1 cf1]] eqn:E1;
      cbn [run_bind]; [discriminate|].
    apply IH. exact (parse_line_inv _ _ _ _ _ _ Hinv E1).
Qed.

(** Every object the full parse builds satisfies the representation
    invariant: positive chunk sizes within [off_t], non-negative starts,
    and a total equal to the sum of the chunk sizes. *)
Lemma open_concat_file_wf (o : os) (fd : Z) (path : cstr) (cf : concat_file)
  (o1 : os) :
  0 <= fd ->
  open_concat_file o fd path = Ret (Some cf, o1) ->
  cf_wf cf /\ cf_fd cf = fd.
Proof.
  intros Hfd. unfold open_concat_file.
  destruct (open_stream o fd path) as [[[sfd text]|] o0]; [|discriminate].
  destruct (strncpy (PATH_MAX + 1) path) as [|bpath]; simpl; [discriminate|].
  destruct (parse_lines fd (dirname bpath) (o0, mk_concat_file [] fd 0 1)
              (read_lines (length text) text)) as [|st] eqn:E; simpl;
    [discriminate|].
  destruct (sys_close (fst st) sfd) as [rc o3].
  intros H; injection H as <- <-.
  assert (I0 : parse_inv fd (mk_concat_file [] fd 0 1)).
  { repeat split; simpl; auto. }
  destruct (parse_lines_inv _ _ _ _ _ _ I0 E) as [Hwf [Hsum Hcf]].
  split; [split; [exact Hwf | exact (Hsum Hfd)] | exact Hcf].
Qed.

(** ** The size-only parse and the full parse *)

Lemma same_files_refl (o : os) : same_files o o.
Proof. split; reflexivity. Qed.

Lemma same_files_trans (a b c : os) :
  same_files a b -> same_files b c -> same_files a c.
Proof. intros [H1 H2] [H3 H4]. split; congruence. Qed.

Lemma same_files_sym (a b : os) : same_files a b -> same_files b a.
Proof. intros [H1 H2]. split; congruence. Qed.

Lemma namei_same (a b : os) (p : cstr) :
  same_files a b -> namei a p = namei b p.
Proof. intros [H1 H2]. unfold namei. rewrite H1, H2. reflexivity. Qed.

Lemma sys_stat_same (a b : os) (p : cstr) :
  same_files a b -> fst (sys_stat a p) = fst (sys_stat b p).
Proof.
  intros H. unfold sys_stat. rewrite (namei_same a b p H).
  destruct (namei b p) as [e|nd]; [reflexivity|].
  destruct (node_size nd <=? OFF_T_MAX); reflexivity.
Qed.

(** [stat] changes nothing but [errno]. *)
Lemma sys_stat_frame (o : os) (p : cstr) :
  same_files o (snd (sys_stat o p)) /\
  os_fds (snd (sys_stat o p)) = os_fds o /\
  os_nofile (snd (sys_stat o p)) = os_nofile o.
Proof.
  unfold sys_stat. destruct (namei o p) as [e|nd].
  - repeat split.
  - destruct (node_size nd <=? OFF_T_MAX); repeat split.
Qed.

Lemma try_parse_line_offsets_same (a b : os) (line : cstr) :
  same_files a b ->
  fst (try_parse_line_offsets a line) = fst (try_parse_line_offsets b line).
Proof.
  intros H. unfold try_parse_line_offsets.
  destruct line as [|c line]; [reflexivity|].
  destruct (cut_line (c :: line)) as [p offs].
  pose proof (sys_stat_same a b p H) as E.
  destruct (sys_stat a p) as [[sa|] a1], (sys_stat b p) as [[sb|] b1];
    simpl in E; try discriminate; [|reflexivity].
  injection E as <-. destruct (sa <? 1); reflexivity.
Qed.

Lemma try_parse_line_offsets_frame (o : os) (line : cstr) :
  same_files o (snd (try_parse_line_offsets o line)) /\
  os_fds (snd (try_parse_line_offsets o line)) = os_fds o /\
  os_nofile (snd (try_parse_line_offsets o line)) = os_nofile o.
Proof.
  unfold try_parse_line_offsets.
  destruct line as [|c line]; [repeat split|].
  destruct (cut_line (c :: line)) as [p offs].
  pose proof (sys_stat_frame o p) as F.
  destruct (sys_stat o p) as [[size|] o1]; [|exact F].
  destruct (size <? 1); [exact F|].
  cbn [snd] in *. destruct F as [[F1 F2] [F3 F4]].
  destruct (scan_errno_fs offs o1) as [G1 [G2 [G3 [G4 _]]]].
  unfold same_files. rewrite G1, G2, G3, G4. repeat split; assumption.
Qed.

Lemma install_files (o : os) (f : ofile) : same_files o (snd (install o f)).
Proof. unfold install. destruct (_ <? _)%nat; split; reflexivity. Qed.

Lemma sys_open_files (o : os) (p : cstr) (a : access) :
  same_files o (snd (sys_open o p a)).
Proof.
  unfold sys_open. destruct (namei o p) as [e|nd]; [split; reflexivity|].
  destruct (permits nd a); [split; reflexivity | apply install_files].
Qed.

Lemma sys_close_files (o : os) (fd : Z) : same_files o (snd (sys_close o fd)).
Proof. unfold sys_close. destruct (fd_lookup o fd); split; reflexivity. Qed.

(** The total a line adds does not depend on whether backing files are
    opened. *)
Lemma parse_line_agree (fd fd' : Z) (base : cstr) (st st' : os * concat_file)
  (buf : list byte) :
  same_files (fst st) (fst st') -> cf_fsize (snd st) = cf_fsize (snd st') ->
  agree (parse_line fd base st buf) (parse_line fd' base st' buf).
Proof.
  destruct st as [o cf], st' as [o' cf']. simpl. intros Hf Hs.
  unfold parse_line.
  destruct (line_path base buf) as [|tpath]; simpl; [exact I|].
  pose proof (try_parse_line_offsets_same o o' tpath Hf) as E.
  pose proof (try_parse_line_offsets_frame o tpath) as [F _].
  pose proof (try_parse_line_offsets_frame o' tpath) as [F' _].
  destruct (try_parse_line_offsets o tpath) as [[[[p s] l]|] o1],
           (try_parse_line_offsets o' tpath) as [[[[p' s'] l']|] o1'];
    simpl in E, F, F'; try discriminate.
  - injection E as <- <- <-.
    assert (G : same_files o1 o1').
    { eapply same_files_trans; [apply same_files_sym; exact F|].
      eapply same_files_trans; [exact Hf | exact F']. }
    unfold add_size. rewrite <- Hs.
    destruct (off_t_add (cf_fsize cf) l) as [|t]; cbn [run_bind]; [exact I|].
    pose proof (sys_open_files o1 p O_RDONLY) as K.
    pose proof (sys_open_files o1' p O_RDONLY) as K'.
    destruct (sys_open o1 p O_RDONLY) as [d o2],
             (sys_open o1' p O_RDONLY) as [d' o2']. simpl in K, K'.
    destruct (fd >=? 0), (fd' >=? 0); simpl; (split; [|lia]).
    + eapply same_files_trans; [apply same_files_sym; exact K|].
      eapply same_files_trans; [exact G | exact K'].
    + eapply same_files_trans; [apply same_files_sym; exact K | exact G].
    + eapply same_files_trans; [exact G | exact K'].
    + exact G.
  - simpl. split; [|exact Hs].
    eapply same_files_trans; [apply same_files_sym; exact F|].
    eapply same_files_trans; [exact Hf | exact F'].
Qed.

Lemma parse_lines_agree (fd fd' : Z) (base : cstr) (bufs : list (list byte))
  (st st' : os * concat_file) :
  same_files (fst st) (fst st') -> cf_fsize (snd st) = cf_fsize (snd st') ->
  agree (parse_lines fd base st bufs) (parse_lines fd' base st' bufs).
Proof.
  revert st st'. induction bufs as [|b bufs IH]; intros st st' Hf Hs;
    cbn [parse_lines].
  - split; assumption.
  - pose proof (parse_line_agree fd fd' base st st' b Hf Hs) as A.
    destruct (parse_line fd base st b) as [|st1],
             (parse_line fd' base st' b) as [|st1']; simpl in A;
      try contradiction; cbn [run_bind]; [exact I|].
    destruct A as [A1 A2]. apply IH; assumption.
Qed.

(** The size-only parse opens nothing and appends no chunk. *)
Lemma parse_lines_size_only_frame (fd : Z) (base : cstr)
  (bufs : list (list byte)) (st st1 : os * concat_file) :
  fd < 0 ->
  parse_lines fd base st bufs = Ret st1 ->
  os_fds (fst st1) = os_fds (fst st) /\
  os_nofile (fst st1) = os_nofile (fst st) /\
  cf_chunks (snd st1) = cf_chunks (snd st) /\
  cf_fd (snd st1) = cf_fd (snd st).
Proof.
  intros Hfd. revert st. induction bufs as [|b bufs IH]; intros st;
    cbn [parse_lines].
  - intros E; injection E as <-. repeat split.
  - destruct (parse_line fd base st b) as [|st2] eqn:E; cbn [run_bind];
      [discriminate|].
    intros H. destruct (IH _ H) as [I1 [I2 [I3 I4]]].
    rewrite I1, I2, I3, I4. clear IH H I1 I2 I3 I4.
    destruct st as [o cf]. unfold parse_line in E.
    destruct (line_path base b) as [|tpath]; simpl in E; [discriminate|].
    pose proof (try_parse_line_offsets_frame o tpath) as [_ [F1 F2]].
    destruct (try_parse_line_offsets o tpath) as [[[[p s] l]|] o1];
      simpl in F1, F2.
    + destruct (add_size cf l) as [|cf1] eqn:Ea; cbn [run_bind] in E;
        [discriminate|].
      apply add_size_ret in Ea. destruct Ea as [_ ->].
      destruct (Z.geb_spec fd 0); [lia|]. injection E as <-. repeat split; assumption.
    + injection E as <-. repeat split; assumption.
Qed.

(** *** The descriptor table *)

Lemma fd_lookup_slot (o : os) (fd : Z) :
  fd_lookup o fd = if fd <? 0 then None else slot (os_fds o) (Z.to_nat fd).
Proof. reflexivity. Qed.

Lemma slot_fd_set_eq (i : nat) (v : option ofile) (fds : list (option ofile)) :
  slot (fd_set i v fds) i = v.
Proof.
  unfold slot. revert fds. induction i as [|i IH]; intros [|x fds]; simpl.
  - destruct v; reflexivity.
  - destruct v; reflexivity.
  - apply IH.
  - apply IH.
Qed.

Lemma slot_nil (j : nat) : slot [] j = None.
Proof. unfold slot. destruct j; reflexivity. Qed.

Lemma slot_cons (x : option ofile) (fds : list (option ofile)) (j : nat) :
  slot (x :: fds) (S j) = slot fds j.
Proof. reflexivity. Qed.

Lemma slot_fd_set_ne (i j : nat) (v : option ofile) (fds : list (option ofile)) :
  i <> j -> slot (fd_set i v fds) j = slot fds j.
Proof.
  revert j fds. induction i as [|i IH]; intros j fds H.
  - destruct j as [|j]; [contradiction|].
    destruct fds as [|x fds]; cbn [fd_set]; rewrite !slot_cons, ?slot_nil;
      reflexivity.
  - destruct j as [|j].
    + destruct fds as [|x fds]; reflexivity.
    + destruct fds as [|x fds]; cbn [fd_set]; rewrite !slot_cons, ?slot_nil;
        rewrite IH by lia; rewrite ?slot_nil; reflexivity.
Qed.

Lemma slot_lowest_free (fds : list (option ofile)) :
  slot fds (lowest_free fds) = None.
Proof.
  induction fds as [|[f|] fds IH]; try reflexivity. exact IH.
Qed.

Lemma install_some (o : os) (f : ofile) (d : Z) (o1 : os) :
  install o f = (d, o1) -> 0 <= d ->
  d = Z.of_nat (lowest_free (os_fds o)) /\
  os_fds o1 = fd_set (lowest_free (os_fds o)) (Some f) (os_fds o) /\
  os_nofile o1 = os_nofile o /\
  fd_lookup o1 d = Some f.
Proof.
  unfold install. destruct (_ <? _)%nat; intros E Hd; injection E as <- <-;
    [|lia].
  repeat split. rewrite fd_lookup_slot.
  destruct (Z.ltb_spec (Z.of_nat (lowest_free (os_fds o))) 0); [lia|].
  rewrite Nat2Z.id. simpl. apply slot_fd_set_eq.
Qed.

Lemma install_none (o : os) (f : ofile) (d : Z) (o1 : os) :
  install o f = (d, o1) -> d < 0 -> fd_lookup o1 d = None.
Proof.
  intros _ Hd. rewrite fd_lookup_slot.
  destruct (Z.ltb_spec d 0); [reflexivity | lia].
Qed.

(** The stream of a full parse delivers the bytes of the file the
    descriptor is open on, from its position. *)
Lemma open_stream_fd (o : os) (fd : Z) (path : cstr) (sfd : Z)
  (text : list byte) (o1 : os) (f : ofile) :
  0 <= fd -> fd_lookup o fd = Some f ->
  open_stream o fd path = (Some (sfd, text), o1) ->
  text = stream_text f /\ same_files o o1 /\ fd_lookup o1 sfd = Some f.
Proof.
  intros Hfd Hl. unfold open_stream, sys_dup.
  destruct (Z.geb_spec fd 0); [|lia]. rewrite Hl.
  pose proof (install_files o f) as F.
  destruct (install o f) as [d o0] eqn:Ei. simpl in F.
  unfold fdopen_r. destruct (Z_lt_le_dec d 0) as [Hd|Hd].
  - rewrite (install_none _ _ _ _ Ei Hd). discriminate.
  - destruct (install_some _ _ _ _ Ei Hd) as [_ [_ [_ Hl1]]]. rewrite Hl1.
    destruct (of_acc f); intros E; try discriminate;
      injection E as <- <- <-; repeat split; auto; apply F.
Qed.

(** The stream of a size-only parse delivers the bytes of the file the
    path names, from the start, through a descriptor of its own. *)
Lemma open_stream_path (o : os) (fd : Z) (path : cstr) (sfd : Z)
  (text : list byte) (o1 : os) :
  fd < 0 ->
  open_stream o fd path = (Some (sfd, text), o1) ->
  exists nd,
    namei o path = inr nd /\
    text = stream_text (mk_ofile nd O_RDONLY 0) /\
    same_files o o1 /\
    sfd = Z.of_nat (lowest_free (os_fds o)) /\
    os_fds o1 = fd_set (lowest_free (os_fds o))
                  (Some (mk_ofile nd O_RDONLY 0)) (os_fds o).
Proof.
  intros Hfd. unfold open_stream, fopen_r, sys_open.
  destruct (Z.geb_spec fd 0); [lia|].
  destruct (namei o path) as [e|nd]; [simpl; discriminate|].
  destruct (permits nd O_RDONLY); [simpl; discriminate|].
  pose proof (install_files o (mk_ofile nd O_RDONLY 0)) as F.
  destruct (install o (mk_ofile nd O_RDONLY 0)) as [d o0] eqn:Ei. simpl in F.
  destruct (Z.ltb_spec d 0) as [Hd|Hd]; [discriminate|].
  destruct (install_some _ _ _ _ Ei Hd) as [Ed [Ef [_ Hl1]]].
  unfold fdopen_r. rewrite Hl1. simpl.
  intros E; injection E as <- <- <-. exists nd. destruct F.
  repeat split; auto.
Qed.

Lemma stream_text_start (f : ofile) :
  of_pos f = 0%nat ->
  stream_text f = stream_text (mk_ofile (of_node f) O_RDONLY 0).
Proof. intros H. unfold stream_text. rewrite H. reflexivity. Qed.

(** C5.  Let [fd] be open at position 0 on the description that [path]
    names, and let the files be the same at the two parses.  When the
    full parse through [fd] builds an object and the size-only parse can
    open the description, [get_concat_file_size] returns the total size of
    that object; it leaves every descriptor as it found it (it opens no
    backing file). *)
Theorem size_only_parse_agrees (o1 o2 : os) (fd : Z) (path : cstr) (f : ofile)
  (cf : concat_file) (o1' : os) :
  same_files o1 o2 ->
  0 <= fd ->
  fd_lookup o1 fd = Some f -> of_pos f = 0%nat ->
  namei o2 path = inr (of_node f) ->
  open_concat_file o1 fd path = Ret (Some cf, o1') ->
  fst (open_stream o2 (-1) path) <> None ->
  exists o2',
    get_concat_file_size o2 path = Ret (cf_fsize cf, o2') /\
    (forall d, fd_lookup o2' d = fd_lookup o2 d).
Proof.
  intros Hf Hfd Hl Hpos Hn Hopen Hs.
  unfold open_concat_file in Hopen.
  destruct (open_stream o1 fd path) as [[[sfd text]|] oa] eqn:Es1;
    [|discriminate].
  destruct (open_stream_fd _ _ _ _ _ _ _ Hfd Hl Es1) as [Et [Fa _]].
  destruct (strncpy (PATH_MAX + 1) path) as [|bpath] eqn:Eb;
    cbn [run_bind] in Hopen; [discriminate|].
  destruct (parse_lines fd (dirname bpath) (oa, mk_concat_file [] fd 0 1)
              (read_lines (length text) text)) as [|st] eqn:Ep;
    cbn [run_bind] in Hopen; [discriminate|].
  destruct (sys_close (fst st) sfd) as [rc o3] eqn:Ec.
  injection Hopen as <- <-.
  destruct (open_stream o2 (-1) path) as [[[sfd2 text2]|] ob] eqn:Es2;
    [|contradiction Hs; reflexivity].
  clear Hs.
  destruct (open_stream_path o2 (-1) path sfd2 text2 ob ltac:(lia) Es2)
    as [nd [Hn2 [Et2 [Fb [Esfd Efds]]]]].
  rewrite Hn in Hn2. injection Hn2 as <-.
  assert (Etext : text2 = text).
  { rewrite Et, Et2. symmetry. apply stream_text_start. exact Hpos. }
  clear Et Et2. subst text2.
  pose proof (parse_lines_agree fd (-1) (dirname bpath)
                (read_lines (length text) text)
                (oa, mk_concat_file [] fd 0 1)
                (ob, mk_concat_file [] (-1) 0 1)) as A.
  rewrite Ep in A.
  destruct (parse_lines (-1) (dirname bpath) (ob, mk_concat_file [] (-1) 0 1)
              (read_lines (length text) text)) as [|st2] eqn:Ep2.
  { exfalso. apply A; [|reflexivity]. simpl.
    eapply same_files_trans; [apply same_files_sym; exact Fa|].
    eapply same_files_trans; [exact Hf | exact Fb]. }
  destruct A as [_ Asz]; [|reflexivity|].
  { simpl. eapply same_files_trans; [apply same_files_sym; exact Fa|].
    eapply same_files_trans; [exact Hf | exact Fb]. }
  destruct (parse_lines_size_only_frame (-1) _ _ _ _ ltac:(lia) Ep2)
    as [Ffds [_ [Fch Ffd]]].
  cbn [fst snd cf_chunks cf_fd] in Ffds, Fch, Ffd.
  unfold get_concat_file_size, open_concat_file.
  rewrite Es2, Eb. cbn [run_bind]. rewrite Ep2. cbn [run_bind].
  destruct (sys_close (fst st2) sfd2) as [rc2 o4] eqn:Ec2.
  cbn [run_bind fst snd]. rewrite <- Asz.
  eexists. split; [reflexivity|].
  intros d. unfold close_concat_file. rewrite Fch, Ffd. cbn [fold_left].
  assert (E4 : os_fds o4 =
               fd_set (lowest_free (os_fds o2)) None (os_fds (fst st2))).
  { unfold sys_close in Ec2.
    assert (L : fd_lookup (fst st2) sfd2 =
                Some (mk_ofile (of_node f) O_RDONLY 0)).
    { rewrite fd_lookup_slot, Esfd, Ffds, Efds.
      destruct (Z.ltb_spec (Z.of_nat (lowest_free (os_fds o2))) 0); [lia|].
      rewrite Nat2Z.id. apply slot_fd_set_eq. }
    rewrite L in Ec2. injection Ec2 as _ <-. rewrite Esfd, Nat2Z.id.
    reflexivity. }
  unfold sys_close. change (fd_lookup o4 (-1)) with (@None ofile).
  cbn [snd]. rewrite !fd_lookup_slot. cbn [os_fds set_errno].
  destruct (d <? 0); [reflexivity|].
  rewrite E4, Ffds, Efds.
  destruct (Nat.eq_dec (lowest_free (os_fds o2)) (Z.to_nat d)) as [<-|Hne].
  - rewrite slot_fd_set_eq, slot_lowest_free. reflexivity.
  - rewrite !slot_fd_set_ne by exact Hne. reflexivity.
Qed.

Lemma size_only_parse_agrees_witness :
  exists o2',
    get_concat_file_size (sample_os abc) desc_path = Ret (9, o2') /\
    (forall d, fd_lookup o2' d = fd_lookup (sample_os abc) d).
Proof.
  apply (size_only_parse_agrees (opened abc) (sample_os abc) 3 desc_path
           (mk_ofile (Regular abc true true) O_RDONLY 0) abc_object abc_served).
  - split; reflexivity.
  - lia.
  - vm_compute. reflexivity.
  - reflexivity.
  - vm_compute. reflexivity.
  - vm_compute. reflexivity.
  - vm_compute. discriminate.
Defined.

(** ** The chunks of an object and the lines of its description *)

(** A successful system call of the parser keeps the descriptors that are
    open. *)
Lemma install_frame (o : os) (f : ofile) (d : Z) (g : ofile) :
  fd_lookup o d = Some g -> fd_lookup (snd (install o f)) d = Some g.
Proof.
  unfold install. destruct (_ <? _)%nat; [|intros H; exact H].
  rewrite !fd_lookup_slot. cbn [snd os_fds set_fds].
  destruct (d <? 0); [discriminate|]. intros H.
  rewrite slot_fd_set_ne; [exact H|].
  intros E. rewrite <- E, slot_lowest_free in H. discriminate.
Qed.

Lemma sys_open_frame (o : os) (p : cstr) (a : access) (d : Z) (g : ofile) :
  fd_lookup o d = Some g -> fd_lookup (snd (sys_open o p a)) d = Some g.
Proof.
  unfold sys_open. destruct (namei o p) as [e|nd]; [intros H; exact H|].
  destruct (permits nd a); [intros H; exact H | apply install_frame].
Qed.

Lemma sys_open_some (o : os) (p : cstr) (d : Z) (o1 : os) :
  sys_open o p O_RDONLY = (d, o1) ->
  d = -1 \/
  (0 <= d /\ fd_lookup o d = None /\
   exists nd, namei o p = inr nd /\
              fd_lookup o1 d = Some (mk_ofile nd O_RDONLY 0)).
Proof.
  unfold sys_open. destruct (namei o p) as [e|nd];
    [intros E; injection E as <- _; auto|].
  destruct (permits nd O_RDONLY); [intros E; injection E as <- _; auto|].
  intros E. destruct (Z_lt_le_dec d 0) as [Hd|Hd].
  - left. unfold install in E. destruct (_ <? _)%nat; injection E as <- _; lia.
  - right. destruct (install_some _ _ _ _ E Hd) as [Ed [_ [_ Hl]]].
    split; [exact Hd|]. split; [|eauto].
    rewrite fd_lookup_slot, Ed.
    destruct (Z.of_nat (lowest_free (os_fds o)) <? 0); [reflexivity|].
    rewrite Nat2Z.id. apply slot_lowest_free.
Qed.

Lemma fd_lookup_fds (a b : os) (d : Z) :
  os_fds a = os_fds b -> fd_lookup a d = fd_lookup b d.
Proof. intros H. rewrite !fd_lookup_slot, H. reflexivity. Qed.

Lemma bound_frame (sfd : Z) (o o' : os) (c : chunk) (seg : cstr * Z * Z) :
  same_files o o' ->
  (forall d g, fd_lookup o d = Some g -> fd_lookup o' d = Some g) ->
  bound sfd o c seg -> bound sfd o' c seg.
Proof.
  intros Hf Hk [H1 [H2 [H3 H4]]]. repeat split; try assumption.
  destruct H4 as [H4|[nd [Hn Hl]]]; [left; exact H4|].
  right. exists nd. rewrite <- (namei_same o o' _ Hf). split; [exact Hn|].
  apply Hk. exact Hl.
Qed.

Lemma accepted_lines_same (a b : os) (base : cstr) (bufs : list (list byte)) :
  same_files a b -> accepted_lines a base bufs = accepted_lines b base bufs.
Proof.
  intros H. induction bufs as [|x bufs IH]; cbn [accepted_lines]; [reflexivity|].
  destruct (line_path base x) as [|tpath]; [reflexivity|].
  rewrite (try_parse_line_offsets_same a b tpath H), IH. reflexivity.
Qed.

(** One line of a full parse: the chunks stay bound, and an accepted line
    adds a chunk bound to it. *)
Lemma parse_line_bound (fd sfd : Z) (base : cstr) (o : os) (cf : concat_file)
  (b : list byte) (st : os * concat_file) (segs : list (cstr * Z * Z)) :
  0 <= fd ->
  (exists g, fd_lookup o sfd = Some g) ->
  Forall2 (bound sfd o) (cf_chunks cf) segs ->
  parse_line fd base (o, cf) b = Ret st ->
  same_files o (fst st) /\
  (exists g, fd_lookup (fst st) sfd = Some g) /\
  Forall2 (bound sfd (fst st)) (cf_chunks (snd st))
    (segs ++ accepted_lines o base [b]).
Proof.
  intros Hfd [g Hg] Hb. unfold parse_line. cbn [accepted_lines].
  destruct (line_path base b) as [|tpath]; cbn [run_bind]; [discriminate|].
  pose proof (try_parse_line_offsets_frame o tpath) as [F1 [F2 _]].
  destruct (try_parse_line_offsets o tpath) as [[[[p s] l]|] o1];
    cbn [fst snd] in *.
  - destruct (add_size cf l) as [|cf1] eqn:Ea; cbn [run_bind]; [discriminate|].
    apply add_size_ret in Ea. destruct Ea as [_ ->].
    destruct (Z.geb_spec fd 0) as [_|Hlt]; [|lia].
    pose proof (sys_open_files o1 p O_RDONLY) as K.
    pose proof (sys_open_frame o1 p O_RDONLY) as Kf.
    destruct (sys_open o1 p O_RDONLY) as [d o2] eqn:Eo. cbn [snd] in K, Kf.
    intros E; injection E as <-. cbn [fst snd add_chunk cf_chunks].
    assert (F : same_files o o2) by (eapply same_files_trans; eassumption).
    assert (Kall : forall d' g', fd_lookup o d' = Some g' ->
                                 fd_lookup o2 d' = Some g').
    { intros d' g' H. apply Kf. rewrite <- (fd_lookup_fds o o1 d' (eq_sym F2)).
      exact H. }
    split; [exact F|]. split; [exists g; apply Kall; exact Hg|].
    apply Forall2_app.
    + eapply Forall2_impl; [|exact Hb].
      intros c seg. apply bound_frame; assumption.
    + constructor; [|constructor]. unfold bound. cbn [fst snd c_fd c_startOffset c_fsize].
      repeat split.
      * destruct (sys_open_some _ _ _ _ Eo) as [->|[Hd [Hfree _]]].
        -- intros E. rewrite <- E in Hg. discriminate.
        -- intros ->. rewrite (fd_lookup_fds o1 o sfd F2), Hg in Hfree.
           discriminate.
      * destruct (sys_open_some _ _ _ _ Eo) as [->|[_ [_ [nd [Hn Hl]]]]];
          [left; reflexivity|].
        right. exists nd. rewrite <- (namei_same o1 o2 p K). auto.
  - intros E; injection E as <-. cbn [fst snd]. rewrite app_nil_r.
    assert (Kall : forall d' g', fd_lookup o d' = Some g' ->
                                 fd_lookup o1 d' = Some g').
    { intros d' g' H. rewrite <- (fd_lookup_fds o o1 d' (eq_sym F2)). exact H. }
    split; [exact F1|]. split; [exists g; apply Kall; exact Hg|].
    eapply Forall2_impl; [|exact Hb].
    intros c seg. apply bound_frame; assumption.
Qed.

Lemma parse_lines_bound (fd sfd : Z) (base : cstr) (bufs : list (list byte))
  (o : os) (cf : concat_file) (st : os * concat_file)
  (segs : list (cstr * Z * Z)) :
  0 <= fd ->
  (exists g, fd_lookup o sfd = Some g) ->
  Forall2 (bound sfd o) (cf_chunks cf) segs ->
  parse_lines fd base (o, cf) bufs = Ret st ->
  same_files o (fst st) /\
  (exists g, fd_lookup (fst st) sfd = Some g) /\
  Forall2 (bound sfd (fst st)) (cf_chunks (snd st))
    (segs ++ accepted_lines o base bufs).
Proof.
  intros Hfd. revert o cf segs.
  induction bufs as [|b bufs IH]; intros o cf segs Hg Hb; cbn [parse_lines].
  - intros E; injection E as <-. cbn [fst snd accepted_lines].
    rewrite app_nil_r. split; [apply same_files_refl|]. split; assumption.
  - destruct (parse_line fd base (o, cf) b) as [|[o1 cf1]] eqn:E1;
      cbn [run_bind]; [discriminate|].
    intros E.
    destruct (parse_line_bound fd sfd base o cf b _ segs Hfd Hg Hb E1)
      as [F1 [Hg1 Hb1]]. cbn [fst snd] in F1, Hg1, Hb1.
    destruct (IH o1 cf1 _ Hg1 Hb1 E) as [F2 [Hg2 Hb2]].
    split; [eapply same_files_trans; eassumption|]. split; [exact Hg2|].
    rewrite <- app_assoc in Hb2.
    rewrite <- (accepted_lines_same o o1 base bufs F1) in Hb2.
    replace (accepted_lines o base (b :: bufs))
      with (accepted_lines o base [b] ++ accepted_lines o base bufs);
      [exact Hb2|].
    cbn [accepted_lines]. unfold parse_line in E1.
    destruct (line_path base b) as [|tpath]; [discriminate|].
    destruct (fst (try_parse_line_offsets o tpath)); reflexivity.
Qed.

Lemma sys_close_bound (sfd : Z) (o : os) (c : chunk) (seg : cstr * Z * Z) :
  bound sfd o c seg -> bound sfd (snd (sys_close o sfd)) c seg.
Proof.
  intros [H1 [H2 [H3 H4]]]. repeat split; try assumption.
  destruct H4 as [H4|[nd [Hn Hl]]]; [left; exact H4|].
  right. exists nd.
  rewrite <- (namei_same o _ _ (sys_close_files o sfd)). split; [exact Hn|].
  unfold sys_close. destruct (fd_lookup o sfd) as [g|] eqn:Hs; [|exact Hl].
  rewrite fd_lookup_slot in *. cbn [snd os_fds set_fds].
  destruct (Z.ltb_spec (c_fd c) 0); [discriminate|].
  destruct (Z.ltb_spec sfd 0); [discriminate|].
  rewrite slot_fd_set_ne by lia. exact Hl.
Qed.

(** The chunks of the object a full parse builds are, in order, the
    accepted lines of the description: each chunk has the start and the
    length of its line, and its descriptor is -1 or is open, in the system
    the parse leaves, on the file the path of its line names. *)
Lemma open_concat_file_binds (o : os) (fd : Z) (path : cstr) (f : ofile)
  (cf : concat_file) (o1 : os) :
  0 <= fd -> fd_lookup o fd = Some f ->
  open_concat_file o fd path = Ret (Some cf, o1) ->
  exists sfd,
    Forall2 (bound sfd o1) (cf_chunks cf)
      (accepted_lines o (dirname path)
         (read_lines (length (stream_text f)) (stream_text f))).
Proof.
  intros Hfd Hl. unfold open_concat_file.
  destruct (open_stream o fd path) as [[[sfd text]|] oa] eqn:Es; [|discriminate].
  destruct (open_stream_fd _ _ _ _ _ _ _ Hfd Hl Es) as [-> [Fa Hs]].
  unfold strncpy. destruct (_ <? _)%nat; cbn [run_bind]; [|discriminate].
  destruct (parse_lines fd (dirname path) (oa, mk_concat_file [] fd 0 1)
              (read_lines (length (stream_text f)) (stream_text f)))
    as [|st] eqn:Ep; cbn [run_bind]; [discriminate|].
  destruct (parse_lines_bound fd sfd (dirname path) _ oa
              (mk_concat_file [] fd 0 1) st [] Hfd
              (ex_intro _ f Hs) (Forall2_nil _) Ep) as [_ [_ Hb]].
  cbn [app] in Hb. rewrite <- (accepted_lines_same o oa _ _ Fa) in Hb.
  pose proof (fun c seg => sys_close_bound sfd (fst st) c seg) as K.
  destruct (sys_close (fst st) sfd) as [rc o3]. cbn [snd] in K.
  intros E; injection E as <- <-. exists sfd.
  eapply Forall2_impl; [exact K | exact Hb].
Qed.

(** Every accepted line names a file that holds its window. *)
Lemma accepted_lines_within (o : os) (base : cstr) (bufs : list (list byte)) :
  Forall (fun seg =>
            exists nd, namei o (fst (fst seg)) = inr nd /\
                       0 <= snd (fst seg) /\ 1 <= snd seg /\
                       snd (fst seg) + snd seg <= node_size nd)
    (accepted_lines o base bufs).
Proof.
  induction bufs as [|b bufs IH]; cbn [accepted_lines]; [constructor|].
  destruct (line_path base b) as [|tpath]; [constructor|].
  destruct (try_parse_line_offsets o tpath) as [[[[p s] l]|] o1] eqn:E;
    cbn [fst]; [|exact IH].
  constructor; [|exact IH]. cbn [fst snd].
  apply try_parse_line_offsets_some in E.
  destruct E as [size [offs [_ [_ [St [_ [Hsz [Hs Hl]]]]]]]].
  destruct (sys_stat_some _ _ _ _ St) as [_ [Hb [nd [Hn Hsize]]]].
  rewrite CLAMP_spec in Hs, Hl. exists nd. rewrite Hsize.
  repeat split; try assumption; lia.
Qed.

Lemma pslice_inside (d : list byte) (start len : nat) :
  (start + len <= length d)%nat ->
  pslice d start len = firstn len (skipn start d).
Proof.
  intros H. unfold pslice. rewrite firstn_app, length_skipn.
  replace (len - (length d - start))%nat with 0%nat by lia.
  rewrite firstn_O, app_nil_r. reflexivity.
Qed.

(** The object a full parse returns, against the description read
    through the descriptor: the files are as they were, and the chunks are
    bound, in order, to the accepted lines. *)
Lemma open_concat_file_describes (o : os) (fd : Z) (path : cstr)
  (cf : concat_file) (o1 : os) :
  0 <= fd ->
  open_concat_file o fd path = Ret (Some cf, o1) ->
  same_files o o1 /\
  exists sfd,
    Forall2 (bound sfd o1) (cf_chunks cf)
      (accepted_lines o (dirname path) (stream_lines o fd)).
Proof.
  intros Hfd E.
  assert (Hl : exists f, fd_lookup o fd = Some f).
  { destruct (fd_lookup o fd) as [f|] eqn:Hl; [eauto|]. exfalso.
    unfold open_concat_file, open_stream, sys_dup in E.
    destruct (Z.geb_spec fd 0); [|lia]. rewrite Hl in E.
    unfold fdopen_r in E. cbn [fd_lookup Z.ltb Z.compare] in E. discriminate. }
  destruct Hl as [f Hl]. unfold stream_lines. rewrite Hl.
  split; [|exact (open_concat_file_binds _ _ _ _ _ _ Hfd Hl E)].
  unfold open_concat_file in E.
  destruct (open_stream o fd path) as [[[sfd text]|] oa] eqn:Es; [|discriminate].
  destruct (open_stream_fd _ _ _ _ _ _ _ Hfd Hl Es) as [-> [Fa Hs]].
  destruct (strncpy (PATH_MAX + 1) path) as [|bpath]; cbn [run_bind] in E;
    [discriminate|].
  destruct (parse_lines fd (dirname bpath) (oa, mk_concat_file [] fd 0 1)
              (read_lines (length (stream_text f)) (stream_text f)))
    as [|st] eqn:Ep; cbn [run_bind] in E; [discriminate|].
  destruct (parse_lines_bound fd sfd (dirname bpath) _ oa
              (mk_concat_file [] fd 0 1) st [] Hfd
              (ex_intro _ f Hs) (Forall2_nil _) Ep) as [Fb _].
  pose proof (sys_close_files (fst st) sfd) as Fc.
  destruct (sys_close (fst st) sfd) as [rc o3]. cbn [fst snd] in *.
  injection E as _ <-.
  eapply same_files_trans; [exact Fa|].
  eapply same_files_trans; [exact Fb | exact Fc].
Qed.

(** The slice of an accepted segment that names a regular file is the
    window of that file: nothing of it is padding. *)
Lemma accepted_slices_are_windows (o : os) (base : cstr)
  (bufs : list (list byte)) :
  Forall (fun seg =>
            forall d, file_bytes o (fst (fst seg)) = Some d ->
                      segment_slice o seg =
                        firstn (Z.to_nat (snd seg))
                          (skipn (Z.to_nat (snd (fst seg))) d))
    (accepted_lines o base bufs).
Proof.
  eapply Forall_impl; [|apply accepted_lines_within].
  intros [[p s] l]. cbn [fst snd]. intros [nd [Hn [Hs [Hl Hin]]]] d Hd.
  unfold segment_slice. cbn [fst snd]. rewrite Hd.
  unfold file_bytes in Hd. rewrite Hn in Hd.
  destruct nd as [d' r w|sz]; [|discriminate]. injection Hd as ->.
  cbn [node_size] in Hin. apply pslice_inside. lia.
Qed.

(** The backing slice of a bound chunk is the slice of the file its line
    names. *)
Lemma bound_slice (sfd : Z) (o : os) (c : chunk) (seg : cstr * Z * Z)
  (data : list byte) (r w : bool) :
  bound sfd o c seg -> c_fd c <> -1 ->
  namei o (fst (fst seg)) = inr (Regular data r w) ->
  backing_slice o c =
    pslice data (Z.to_nat (snd (fst seg))) (Z.to_nat (snd seg)).
Proof.
  intros [H1 [H2 [_ [H4|[nd [Hn Hl]]]]]] Hfd Hd; [contradiction|].
  rewrite Hd in Hn. injection Hn as <-.
  unfold backing_slice, fd_data. rewrite Hl, H1, H2. reflexivity.
Qed.

(** ** The segmented read *)

(** *** Integer conversions within range *)

Lemma to_size_t_small (x : Z) : 0 <= x < 2 ^ 64 -> to_size_t x = x.
Proof. intros H. unfold to_size_t. apply Z.mod_small. exact H. Qed.

Lemma to_int_small (x : Z) : - 2 ^ 31 <= x <= INT_MAX -> to_int x = x.
Proof.
  unfold to_int, INT_MAX. intros H.
  rewrite Z.mod_small; [lia|].
  change (2 ^ 31) with 2147483648 in *. change (2 ^ 32) with 4294967296. lia.
Qed.

Lemma OFF_T_MAX_fits : OFF_T_MAX < 2 ^ 64.
Proof. reflexivity. Qed.

Lemma INT_MAX_fits : INT_MAX < 2 ^ 64.
Proof. reflexivity. Qed.

(** *** Positional reads *)

Lemma sys_pread_ok (o : os) (fd n off rv : Z) (got : list byte) (o1 : os) :
  sys_pread o fd n off = (rv, got, o1) -> 0 <= rv ->
  o1 = o /\ rv = Z.of_nat (length got) /\ 0 <= off /\
  exists m, (m <= Z.to_nat n)%nat /\
            got = firstn m (skipn (Z.to_nat off) (fd_data o fd)).
Proof.
  unfold sys_pread, fd_data. intros E Hrv.
  destruct (fd_lookup o fd) as [f|]; [|injection E as <- _ _; lia].
  destruct (of_acc f); try (injection E as <- _ _; lia);
    (destruct (Z.ltb_spec off 0) as [Ho|Ho]; [injection E as <- _ _; lia|]);
    (destruct (of_node f) as [d r w|sz]; [|injection E as <- _ _; lia]);
    (destruct (os_io o fd n off) as [|k|e]; [| |injection E as <- _ _; lia]);
    injection E as <- <- <-;
    (repeat split; [assumption | eexists; split; [|reflexivity]; lia]).
Qed.

Lemma sys_pread_range (o : os) (fd n off rv : Z) (got : list byte) (o1 : os) :
  sys_pread o fd n off = (rv, got, o1) -> 0 <= n ->
  (rv = -1 /\ got = []) \/ (0 <= rv <= n).
Proof.
  intros E Hn. destruct (Z_lt_le_dec rv 0) as [Hrv|Hrv].
  - left. revert E. unfold sys_pread.
    destruct (fd_lookup o fd) as [f|]; [|intros E; injection E as <- <- _; auto].
    destruct (of_acc f); try (intros E; injection E as <- <- _; auto; fail);
      (destruct (off <? 0); [intros E; injection E as <- <- _; auto|]);
      (destruct (of_node f); [|intros E; injection E as <- <- _; auto]);
      (destruct (os_io o fd n off);
         intros E; injection E as <- <- _; auto; lia).
  - right. destruct (sys_pread_ok _ _ _ _ _ _ _ E Hrv)
      as [_ [-> [_ [m [Hm ->]]]]].
    rewrite length_firstn. lia.
Qed.

(** A read that returns the count asked for delivers exactly the bytes of
    the file at that position. *)
Lemma sys_pread_full (o : os) (fd n off : Z) (got : list byte) (o1 : os) :
  sys_pread o fd n off = (n, got, o1) -> 0 <= n ->
  o1 = o /\ 0 <= off /\ length got = Z.to_nat n /\
  got = firstn (Z.to_nat n) (skipn (Z.to_nat off) (fd_data o fd)).
Proof.
  intros E Hn. destruct (sys_pread_ok _ _ _ _ _ _ _ E Hn)
    as [-> [Hl [Hoff [m [Hm Hg]]]]].
  assert (Hlen : length got = Z.to_nat n) by lia.
  repeat split; try assumption.
  rewrite Hg in Hlen. rewrite length_firstn in Hlen.
  assert (m = Z.to_nat n) by lia. subst m. exact Hg.
Qed.

(** *** Slices *)

Lemma pslice_length (d : list byte) (start len : nat) :
  length (pslice d start len) = len.
Proof.
  unfold pslice. rewrite length_firstn, length_app, repeat_length. lia.
Qed.

Lemma pslice_read (d : list byte) (start len off n : nat) :
  (off + n <= len)%nat ->
  length (firstn n (skipn (off + start) d)) = n ->
  firstn n (skipn off (pslice d start len)) = firstn n (skipn (off + start) d).
Proof.
  intros Hb Hl. rewrite length_firstn in Hl. unfold pslice.
  rewrite skipn_firstn_comm, firstn_firstn.
  replace (Nat.min n (len - off)) with n by lia.
  rewrite skipn_app, skipn_skipn, firstn_app.
  replace (n - length (skipn (off + start) d))%nat with 0%nat by lia.
  rewrite firstn_O, app_nil_r. reflexivity.
Qed.

Lemma firstn_past {A} (n m : nat) (l : list A) :
  (length l <= n)%nat -> (length l <= m)%nat -> firstn n l = firstn m l.
Proof. intros H1 H2. rewrite !firstn_all2 by assumption. reflexivity. Qed.

Lemma backing_slice_length (o : os) (c : chunk) :
  length (backing_slice o c) = Z.to_nat (c_fsize c).
Proof. apply pslice_length. Qed.

(** The bytes of a full read inside a segment are the bytes of its
    backing slice at that offset. *)
Lemma slice_of_full_read (o : os) (c : chunk) (offset n : Z) (got : list byte) :
  0 <= c_startOffset c -> 0 <= offset -> 0 <= n -> offset + n <= c_fsize c ->
  length got = Z.to_nat n ->
  got = firstn (Z.to_nat n)
          (skipn (Z.to_nat (offset + c_startOffset c)) (fd_data o (c_fd c))) ->
  firstn (Z.to_nat n) (skipn (Z.to_nat offset) (backing_slice o c)) = got.
Proof.
  intros Hs Ho Hn Hb Hlen Hgot. unfold backing_slice.
  replace (Z.to_nat (offset + c_startOffset c))
    with (Z.to_nat offset + Z.to_nat (c_startOffset c))%nat in Hgot by lia.
  rewrite pslice_read; [symmetry; exact Hgot | lia |].
  rewrite <- Hgot. exact Hlen.
Qed.

Lemma virtual_length (o : os) (cs : list chunk) :
  Forall chunk_wf cs ->
  Z.of_nat (length (concat (map (backing_slice o) cs))) = sum_sizes cs.
Proof.
  induction 1 as [|c cs [_ Hc] _ IH]; [reflexivity|].
  cbn [map concat]. rewrite length_app, backing_slice_length.
  unfold sum_sizes in *. cbn [fold_right]. lia.
Qed.

(** *** The first loop *)

Lemma sum_sizes_cons (c : chunk) (cs : list chunk) :
  sum_sizes (c :: cs) = c_fsize c + sum_sizes cs.
Proof. reflexivity. Qed.

Lemma sum_sizes_nonneg (cs : list chunk) :
  Forall chunk_wf cs -> 0 <= sum_sizes cs.
Proof.
  induction 1 as [|c cs [_ Hc] _ IH]; [reflexivity|].
  rewrite sum_sizes_cons. lia.
Qed.

(** The first loop stops at a chunk that contains the offset or ends at
    it, having skipped the chunks before. *)
Lemma skip_chunks_spec (cs : list chunk) (offset : Z) :
  Forall chunk_wf cs -> 0 <= offset ->
  exists pre,
    cs = pre ++ fst (skip_chunks cs offset) /\
    snd (skip_chunks cs offset) = offset - sum_sizes pre /\
    0 <= snd (skip_chunks cs offset) /\
    Forall chunk_wf (fst (skip_chunks cs offset)) /\
    match fst (skip_chunks cs offset) with
    | c :: _ => snd (skip_chunks cs offset) <= c_fsize c
    | [] => True
    end.
Proof.
  intros Hwf. revert offset.
  induction Hwf as [|c cs Hc Hcs IH]; intros offset Hoff.
  - exists []. simpl. repeat split; auto; lia.
  - cbn [skip_chunks]. destruct (Z.gtb_spec offset (c_fsize c)) as [Hgt|Hle].
    + destruct (IH (offset - c_fsize c) ltac:(lia)) as [pre [E [Es [Hn [Hw Hh]]]]].
      exists (c :: pre). rewrite sum_sizes_cons. repeat split; auto.
      * cbn [app]. rewrite <- E. reflexivity.
      * lia.
    + exists []. cbn [fst snd app]. unfold sum_sizes. cbn [fold_right].
      repeat split; auto; lia.
Qed.

(** At the total size, the first loop stops on the last chunk, at its
    end. *)
Lemma skip_chunks_at_end (init : list chunk) (c : chunk) :
  Forall chunk_wf (init ++ [c]) ->
  skip_chunks (init ++ [c]) (sum_sizes (init ++ [c])) = ([c], c_fsize c).
Proof.
  induction init as [|a init IH]; intros Hwf.
  - cbn [app skip_chunks]. unfold sum_sizes. cbn [fold_right].
    destruct (Z.gtb_spec (c_fsize c + 0) (c_fsize c)); [lia|].
    f_equal. lia.
  - cbn [app] in *. inversion Hwf as [|? ? [_ Ha] Hrest]; subst.
    cbn [skip_chunks]. rewrite sum_sizes_cons.
    assert (1 <= sum_sizes (init ++ [c])).
    { rewrite sum_sizes_app. apply Forall_app in Hrest. destruct Hrest as [Hi Hc].
      pose proof (sum_sizes_nonneg _ Hi). inversion Hc as [|? ? [_ Hc1] _]; subst.
      unfold sum_sizes at 2. cbn [fold_right]. lia. }
    destruct (Z.gtb_spec (c_fsize a + sum_sizes (init ++ [c])) (c_fsize a)); [|lia].
    replace (c_fsize a + sum_sizes (init ++ [c]) - c_fsize a)
      with (sum_sizes (init ++ [c])) by lia.
    apply IH. exact Hrest.
Qed.

(** *** Reads that are all served in full *)

Lemma sys_pread_open (o : os) (fd n off rv : Z) (got : list byte) (o1 : os) :
  sys_pread o fd n off = (rv, got, o1) -> 0 <= rv -> fd_lookup o fd <> None.
Proof.
  unfold sys_pread. destruct (fd_lookup o fd) as [f|]; [discriminate|].
  intros E; injection E as <- _ _. lia.
Qed.

Lemma stands_for_self (o : os) (cs : list chunk) :
  Forall2 (stands_for o) cs (map (backing_slice o) cs).
Proof.
  induction cs as [|c cs IH]; cbn [map]; constructor; [|exact IH].
  split; [apply backing_slice_length | reflexivity].
Qed.

(** The bytes of a sequence of reads that are all served in full, over
    any slices that stand for the backing slices of the chunks. *)
Lemma read_chunks_full_slices (o : os) (cs : list chunk) (ss : list (list byte)) :
  Forall chunk_wf cs -> Forall2 (stands_for o) cs ss ->
  forall count offset bytes_read,
    0 <= offset -> 0 <= count < 2 ^ 64 ->
    match cs with
    | c :: _ => offset <= c_fsize c
    | [] => True
    end ->
    offset + count <= sum_sizes cs ->
    Forall full_read (rr_trace (read_chunks o cs count offset bytes_read)) ->
    rr_ret (read_chunks o cs count offset bytes_read) = bytes_read + count /\
    rr_buf (read_chunks o cs count offset bytes_read) =
      firstn (Z.to_nat count) (skipn (Z.to_nat offset) (concat ss)).
Proof.
  intros Hwf Hss. revert Hwf.
  induction Hss as [|c sl cs ss [Hsl Hsame] Hss IH]; intros Hwfall;
    intros count offset bytes_read Hoff Hcount Hhead Hsum.
  - cbn [read_chunks rr_ret rr_buf concat]. intros _.
    unfold sum_sizes in Hsum. cbn [fold_right] in Hsum.
    assert (count = 0) by lia. subst count.
    split; [lia|]. rewrite firstn_O. reflexivity.
  - inversion Hwfall as [|? ? [Hst Hsz] Hwf]; subst.
    pose proof OFF_T_MAX_fits as Hmax.
    rewrite sum_sizes_cons in Hsum.
    cbn [read_chunks concat].
    assert (Hwant : to_size_t (c_fsize c - offset) = c_fsize c - offset)
      by (apply to_size_t_small; lia).
    rewrite Hwant.
    destruct (Z.gtb_spec count (c_fsize c - offset)) as [Hgt|Hle].
    + (* the request extends past this chunk *)
      destruct (sys_pread o (c_fd c) (c_fsize c - offset) (offset + c_startOffset c))
        as [[rv got] o1] eqn:Ep.
      destruct (Z.eqb_spec rv (c_fsize c - offset)) as [->|Hne].
      * pose proof (sys_pread_open _ _ _ _ _ _ _ Ep ltac:(lia)) as Hopen.
        rewrite (Hsame Hopen) in *. clear Hsame.
        destruct (sys_pread_full _ _ _ _ _ _ Ep ltac:(lia)) as [-> [_ [Hlen Hgot]]].
        cbn [after_call rr_trace rr_ret rr_buf]. intros Ht.
        inversion Ht as [|? ? _ Hrest]; subst.
        assert (Hc2 : to_size_t (count - (c_fsize c - offset))
                      = count - (c_fsize c - offset))
          by (apply to_size_t_small; lia).
        rewrite Hc2 in *.
        destruct (IH Hwf (count - (c_fsize c - offset)) 0
                    (bytes_read + (c_fsize c - offset))) as [Er Eb]; try lia.
        { destruct cs as [|c2 cs]; [exact I|].
          inversion Hwf as [|? ? [_ H2] _]; subst. lia. }
        { exact Hrest. }
        split; [lia|]. rewrite Eb. change (Z.to_nat 0) with 0%nat.
        rewrite skipn_O, skipn_app, firstn_app.
        rewrite length_skipn, Hsl.
        replace (Z.to_nat offset - Z.to_nat (c_fsize c))%nat with 0%nat by lia.
        rewrite skipn_O.
        replace (Z.to_nat count - (Z.to_nat (c_fsize c) - Z.to_nat offset))%nat
          with (Z.to_nat (count - (c_fsize c - offset))) by lia.
        f_equal.
        rewrite (firstn_past (Z.to_nat count) (Z.to_nat (c_fsize c - offset)))
          by (rewrite length_skipn, Hsl; lia).
        symmetry.
        apply slice_of_full_read; first [assumption | reflexivity | lia].
      * destruct (rv >? 0); cbn [rr_trace]; intros Ht;
          inversion Ht as [|? ? Hfull _]; subst;
          unfold full_read in Hfull; cbn [pc_rv pc_count] in Hfull; lia.
    + (* the request ends within this chunk *)
      unfold read_last. destruct (Z.gtb_spec count 0) as [Hpos|Hzero].
      * destruct (sys_pread o (c_fd c) count (offset + c_startOffset c))
          as [[rv got] o1] eqn:Ep.
        destruct (Z.ltb_spec rv 0) as [Hneg|Hnn]; cbn [rr_trace]; intros Ht;
          inversion Ht as [|? ? Hfull _]; subst;
          unfold full_read in Hfull; cbn [pc_rv pc_count] in Hfull;
          [lia|]. subst rv.
        pose proof (sys_pread_open _ _ _ _ _ _ _ Ep ltac:(lia)) as Hopen.
        rewrite (Hsame Hopen) in *. clear Hsame.
        destruct (sys_pread_full _ _ _ _ _ _ Ep ltac:(lia)) as [-> [_ [Hlen Hgot]]].
        cbn [rr_ret rr_buf]. split; [reflexivity|].
        rewrite skipn_app, firstn_app, length_skipn, Hsl.
        replace (Z.to_nat count - (Z.to_nat (c_fsize c) - Z.to_nat offset))%nat
          with 0%nat by lia.
        rewrite firstn_O, app_nil_r.
        symmetry.
        apply slice_of_full_read; first [assumption | reflexivity | lia].
      * cbn [rr_trace rr_ret rr_buf]. intros _.
        assert (count = 0) by lia. subst count.
        split; [lia|]. rewrite firstn_O. reflexivity.
Qed.

Lemma read_chunks_full (o : os) (cs : list chunk) :
  Forall chunk_wf cs ->
  forall count offset bytes_read,
    0 <= offset -> 0 <= count < 2 ^ 64 ->
    match cs with
    | c :: _ => offset <= c_fsize c
    | [] => True
    end ->
    offset + count <= sum_sizes cs ->
    Forall full_read (rr_trace (read_chunks o cs count offset bytes_read)) ->
    rr_ret (read_chunks o cs count offset bytes_read) = bytes_read + count /\
    rr_buf (read_chunks o cs count offset bytes_read) =
      firstn (Z.to_nat count)
        (skipn (Z.to_nat offset) (concat (map (backing_slice o) cs))).
Proof.
  intros Hwf. apply read_chunks_full_slices; [exact Hwf|].
  apply stands_for_self.
Qed.

Lemma stands_for_length (o : os) (cs : list chunk) (ss : list (list byte)) :
  Forall chunk_wf cs -> Forall2 (stands_for o) cs ss ->
  Z.of_nat (length (concat ss)) = sum_sizes cs.
Proof.
  intros Hwf Hss. revert Hwf.
  induction Hss as [|c sl cs ss [Hsl _] _ IH]; intros Hwf; [reflexivity|].
  inversion Hwf as [|? ? [_ Hc] Hrest]; subst.
  cbn [concat]. rewrite length_app, sum_sizes_cons, <- (IH Hrest). lia.
Qed.

Lemma slices_split (o : os) (pre cs : list chunk) (sp ss : list (list byte))
  (offset : Z) :
  Forall chunk_wf pre -> Forall2 (stands_for o) pre sp ->
  sum_sizes pre <= offset ->
  skipn (Z.to_nat offset) (concat (sp ++ ss)) =
  skipn (Z.to_nat (offset - sum_sizes pre)) (concat ss).
Proof.
  intros Hwf Hsp Hle. pose proof (stands_for_length o pre sp Hwf Hsp) as Hl.
  pose proof (sum_sizes_nonneg pre Hwf) as Hn.
  rewrite concat_app, skipn_app.
  rewrite skipn_all2 by lia. cbn [app]. f_equal. lia.
Qed.

(** The slice of the segment a chunk is bound to stands for the backing
    slice of the chunk, in every system in which the descriptor of the
    chunk is as the parse left it. *)
Lemma bound_stands_for (sfd : Z) (o0 o1 o : os) (c : chunk)
  (seg : cstr * Z * Z) :
  same_files o0 o1 -> bound sfd o1 c seg ->
  fd_lookup o (c_fd c) = fd_lookup o1 (c_fd c) ->
  stands_for o c (segment_slice o0 seg).
Proof.
  intros Sf [H1 [H2 [_ H4]]] Hk. split.
  - unfold segment_slice. rewrite pslice_length, H2. reflexivity.
  - intros Hopen. destruct H4 as [H4|[nd [Hn Hl]]].
    + exfalso. apply Hopen. rewrite H4. reflexivity.
    + unfold segment_slice, backing_slice, fd_data, file_bytes.
      rewrite Hk, Hl, (namei_same o0 o1 _ Sf), Hn, H1, H2. cbn [of_node].
      destruct nd; reflexivity.
Qed.

Lemma bound_all_stand_for (sfd : Z) (o0 o1 o : os) (cs : list chunk)
  (segs : list (cstr * Z * Z)) :
  same_files o0 o1 -> Forall2 (bound sfd o1) cs segs ->
  Forall (fun c => fd_lookup o (c_fd c) = fd_lookup o1 (c_fd c)) cs ->
  Forall2 (stands_for o) cs (map (segment_slice o0) segs).
Proof.
  intros Sf Hb. induction Hb as [|c seg cs segs Hc Hb IH]; intros Hfds;
    cbn [map]; [constructor|].
  inversion Hfds; subst. constructor; [|apply IH; assumption].
  eapply bound_stands_for; eassumption.
Qed.

Lemma virtual_bytes_split (o : os) (pre cs : list chunk) (offset : Z) :
  Forall chunk_wf pre -> sum_sizes pre <= offset ->
  skipn (Z.to_nat offset) (concat (map (backing_slice o) (pre ++ cs))) =
  skipn (Z.to_nat (offset - sum_sizes pre)) (concat (map (backing_slice o) cs)).
Proof.
  intros Hwf Hle. pose proof (virtual_length o pre Hwf) as Hl.
  pose proof (sum_sizes_nonneg pre Hwf) as Hn.
  rewrite map_app, concat_app, skipn_app.
  rewrite skipn_all2 by lia. cbn [app]. f_equal. lia.
Qed.

(** *** Short reads *)

Lemma singleton_split {A} (x y : A) (pre post : list A) :
  [x] = pre ++ y :: post -> pre = [] /\ y = x /\ post = [].
Proof.
  destruct pre as [|a pre]; cbn [app]; intros E.
  - injection E as <- <-. auto.
  - injection E as _ E. destruct pre; discriminate.
Qed.

Lemma read_chunks_short (cs : list chunk) :
  Forall chunk_wf cs ->
  forall o count offset bytes_read pre call post,
    0 <= offset -> 0 <= count < 2 ^ 64 ->
    match cs with
    | c :: _ => offset <= c_fsize c
    | [] => True
    end ->
    rr_trace (read_chunks o cs count offset bytes_read) = pre ++ call :: post ->
    0 < pc_rv call < pc_count call ->
    post = [] /\
    rr_ret (read_chunks o cs count offset bytes_read)
      = bytes_read + sum_rv pre + pc_rv call /\
    Forall full_read pre /\
    0 <= sum_rv pre /\ sum_rv pre + pc_rv call <= count.
Proof.
  induction 1 as [|c cs [Hst Hsz] Hwf IH];
    intros o count offset bytes_read pre call post Hoff Hcount Hhead.
  - cbn [read_chunks rr_trace]. intros E. destruct pre; discriminate.
  - pose proof OFF_T_MAX_fits as Hmax.
    cbn [read_chunks].
    assert (Hwant : to_size_t (c_fsize c - offset) = c_fsize c - offset)
      by (apply to_size_t_small; lia).
    rewrite Hwant.
    destruct (Z.gtb_spec count (c_fsize c - offset)) as [Hgt|Hle].
    + destruct (sys_pread o (c_fd c) (c_fsize c - offset) (offset + c_startOffset c))
        as [[rv got] o1] eqn:Ep.
      pose proof (sys_pread_range _ _ _ _ _ _ _ Ep ltac:(lia)) as Hr.
      destruct (Z.eqb_spec rv (c_fsize c - offset)) as [->|Hne].
      * cbn [after_call rr_trace rr_ret]. intros E Hshort.
        destruct pre as [|p pre]; cbn [app] in E; injection E as Ec Et.
        { subst call. cbn [pc_rv pc_count] in Hshort. lia. }
        assert (Hc2 : to_size_t (count - (c_fsize c - offset))
                      = count - (c_fsize c - offset))
          by (apply to_size_t_small; lia).
        rewrite Hc2 in *.
        destruct (IH o1 (count - (c_fsize c - offset)) 0
                    (bytes_read + (c_fsize c - offset)) pre call post)
          as [Hp [Hret [Hfull [Hs0 Hs1]]]]; try assumption; try lia.
        { destruct cs as [|c2 cs]; [exact I|].
          inversion Hwf as [|? ? [_ H2] _]; subst. lia. }
        subst p. unfold sum_rv in *. cbn [fold_right pc_rv].
        repeat split; try assumption; try lia.
        constructor; [reflexivity | exact Hfull].
      * destruct (Z.gtb_spec rv 0) as [Hpos|Hnp]; cbn [rr_trace rr_ret];
          intros E Hshort; apply singleton_split in E;
          destruct E as [-> [-> ->]]; cbn [pc_rv pc_count] in *.
        -- unfold sum_rv. cbn [fold_right].
           repeat split; try constructor; lia.
        -- lia.
    + unfold read_last. destruct (Z.gtb_spec count 0) as [Hpos|Hzero].
      * destruct (sys_pread o (c_fd c) count (offset + c_startOffset c))
          as [[rv got] o1] eqn:Ep.
        pose proof (sys_pread_range _ _ _ _ _ _ _ Ep ltac:(lia)) as Hr.
        destruct (Z.ltb_spec rv 0) as [Hneg|Hnn]; cbn [rr_trace rr_ret];
          intros E Hshort; apply singleton_split in E;
          destruct E as [-> [-> ->]]; cbn [pc_rv pc_count] in *.
        -- lia.
        -- unfold sum_rv. cbn [fold_right].
           repeat split; try constructor; lia.
      * cbn [rr_trace]. intros E. destruct pre; discriminate.
Qed.

(** *** Reads at and past the end *)

Lemma read_chunks_at_end (o : os) (c : chunk) (count bytes_read : Z) :
  0 < count ->
  rr_trace (read_chunks o [c] count (c_fsize c) bytes_read) =
    [mk_call (c_fd c) 0 (c_fsize c + c_startOffset c)
       (fst (fst (sys_pread o (c_fd c) 0 (c_fsize c + c_startOffset c))))] /\
  (fst (fst (sys_pread o (c_fd c) 0 (c_fsize c + c_startOffset c))) = 0 ->
   rr_ret (read_chunks o [c] count (c_fsize c) bytes_read) = bytes_read) /\
  (fst (fst (sys_pread o (c_fd c) 0 (c_fsize c + c_startOffset c))) <> 0 ->
   rr_ret (read_chunks o [c] count (c_fsize c) bytes_read) =
     - os_errno (snd (sys_pread o (c_fd c) 0 (c_fsize c + c_startOffset c)))).
Proof.
  intros Hc. cbn [read_chunks]. rewrite Z.sub_diag.
  change (to_size_t 0) with 0.
  destruct (Z.gtb_spec count 0); [|lia].
  destruct (sys_pread o (c_fd c) 0 (c_fsize c + c_startOffset c))
    as [[rv got] o1] eqn:Ep. cbn [fst snd].
  pose proof (sys_pread_range _ _ _ _ _ _ _ Ep ltac:(lia)) as Hr.
  destruct (Z.eqb_spec rv 0) as [->|Hne].
  - cbn [after_call read_chunks rr_trace rr_ret].
    repeat split; intros; first [lia | congruence].
  - destruct (Z.gtb_spec rv 0); [lia|]. cbn [rr_trace rr_ret].
    repeat split; intros; first [lia | reflexivity | congruence].
Qed.

(** *** What an open registers *)

Lemma open_files_find_push (cf : concat_file) (reg : registry) :
  open_files_find (cf :: reg) (cf_fd cf) = Some cf.
Proof. cbn [open_files_find]. rewrite Z.eqb_refl. reflexivity. Qed.

(** A read through a handle under which no object is registered fails
    with EINVAL. *)
Lemma read_unregistered (reg : registry) (o : os) (fd count offset : Z) :
  open_files_find reg fd = None ->
  rr_ret (read_concat_file reg o fd count offset) = - EINVAL.
Proof. intros H. unfold read_concat_file. rewrite H. reflexivity. Qed.

(** An open of a virtual path that sets the handle has parsed the
    description through that handle and registered the object under it. *)
Lemma concatfs_open_registers (src_dir : cstr) (o : os) (reg : registry)
  (path : cstr) (flags : access) (r : open_result) (fh : Z) :
  concatfs_open src_dir o reg path flags = Ret r ->
  is_concatfs_file path = Ret true ->
  or_fh r = Some fh ->
  0 <= fh /\
  exists cf,
    open_concat_file (snd (sys_open o (snprintf_path PATH_MAX src_dir path) flags))
      fh (snprintf_path PATH_MAX src_dir path) = Ret (Some cf, or_os r) /\
    or_reg r = cf :: reg /\
    open_files_find (or_reg r) fh = Some cf.
Proof.
  unfold concatfs_open. intros E Hv Hfh.
  destruct (sys_open o (snprintf_path PATH_MAX src_dir path) flags)
    as [fd o1] eqn:Eo.
  destruct (Z.ltb_spec fd 0) as [Hneg|Hnn].
  { injection E as <-. discriminate. }
  rewrite Hv in E. cbn [run_bind] in E.
  destruct (open_concat_file o1 fd (snprintf_path PATH_MAX src_dir path))
    as [|[[cf|] o2]] eqn:Ep; cbn [run_bind fst snd open_files_push_front] in E;
    try discriminate.
  injection E as <-. cbn [or_fh or_os or_reg] in *. injection Hfh as <-.
  split; [exact Hnn|]. exists cf. cbn [snd].
  split; [exact Ep|]. split; [reflexivity|].
  destruct (open_concat_file_wf _ _ _ _ _ Hnn Ep) as [_ <-].
  apply open_files_find_push.
Qed.

(** *** Reads through a registered object *)

Section RegisteredObject.

(** An object [cf] that the full parse of a description built, registered
    under the descriptor [fd] of that description.  Its chunks are the
    accepted lines of the description, in order, each bound to the file
    the path of its line names ([open_concat_file_describes]). *)
Variables (o0 : os) (fd : Z) (path : cstr) (cf : concat_file) (o1 : os).
Variable reg : registry.
Hypothesis fd_open : 0 <= fd.
Hypothesis built : open_concat_file o0 fd path = Ret (Some cf, o1).
Hypothesis registered : open_files_find reg fd = Some cf.

Lemma registered_wf : cf_wf cf.
Proof. exact (proj1 (open_concat_file_wf _ _ _ _ _ fd_open built)). Qed.

(** C1.  The object [cf] was built by the parse of the description read
    through [fd], and is read in a system [o] in which the descriptors of
    its chunks are as the parse left them.  For a request that lies within
    the virtual file ([offset + count <= cf_fsize cf]), if every positional
    read the engine issues returns the count it asked for, then
    [read_concat_file] stores exactly [count] bytes, and they are those,
    from [offset], of the concatenation of the backing-file slices of the
    accepted segments of the description, in the order of its lines.  The
    total size is the length of that concatenation, and the slice of a
    segment that names a regular file is the window [start, start + length)
    of that file.  The value returned is [count] as an [int]: [count]
    itself for every request size up to [INT_MAX]. *)
Theorem read_concat_file_concatenation (o : os) (count offset : Z) :
  Forall (fun c => fd_lookup o (c_fd c) = fd_lookup o1 (c_fd c))
    (cf_chunks cf) ->
  0 <= offset -> 0 <= count < 2 ^ 64 ->
  offset + count <= cf_fsize cf ->
  Forall full_read (rr_trace (read_concat_file reg o fd count offset)) ->
  rr_ret (read_concat_file reg o fd count offset) = to_int count /\
  (count <= INT_MAX -> rr_ret (read_concat_file reg o fd count offset) = count) /\
  Z.of_nat (length (rr_buf (read_concat_file reg o fd count offset))) = count /\
  rr_buf (read_concat_file reg o fd count offset) =
    firstn (Z.to_nat count)
      (skipn (Z.to_nat offset)
         (described_bytes o0 (dirname path) (stream_lines o0 fd))) /\
  cf_fsize cf =
    Z.of_nat (length (described_bytes o0 (dirname path) (stream_lines o0 fd))) /\
  Forall (fun seg =>
            forall d, file_bytes o0 (fst (fst seg)) = Some d ->
                      segment_slice o0 seg =
                        firstn (Z.to_nat (snd seg))
                          (skipn (Z.to_nat (snd (fst seg))) d))
    (accepted_lines o0 (dirname path) (stream_lines o0 fd)).
Proof.
  intros Hfds Hoff Hcount Hin.
  destruct registered_wf as [Hwf Hsum].
  destruct (open_concat_file_describes _ _ _ _ _ fd_open built)
    as [Sf [sfd Hb]].
  pose proof (bound_all_stand_for sfd o0 o1 o _ _ Sf Hb Hfds) as Hss.
  assert (Hlen : cf_fsize cf =
                 Z.of_nat (length (described_bytes o0 (dirname path)
                                     (stream_lines o0 fd)))).
  { unfold described_bytes.
    rewrite (stands_for_length o _ _ Hwf Hss). exact Hsum. }
  unfold read_concat_file. rewrite registered.
  destruct (Z.gtb_spec offset (cf_fsize cf)); [lia|].
  destruct (skip_chunks_spec (cf_chunks cf) offset Hwf Hoff)
    as [pre [Ecs [Eoff [Hn [Hwf' Hhead]]]]].
  destruct (skip_chunks (cf_chunks cf) offset) as [cs off] eqn:Es.
  cbn [fst snd] in *. cbn [rr_trace rr_ret rr_buf]. intros Ht.
  assert (Hpre : Forall chunk_wf pre).
  { rewrite Ecs in Hwf. apply Forall_app in Hwf. tauto. }
  assert (Hsplit : sum_sizes (cf_chunks cf) = sum_sizes pre + sum_sizes cs).
  { rewrite Ecs at 1. apply sum_sizes_app. }
  rewrite Ecs in Hss. apply Forall2_app_inv_l in Hss.
  destruct Hss as [sp [ss [Hsp [Hcs Emap]]]].
  destruct (read_chunks_full_slices o cs ss Hwf' Hcs count off 0) as [Er Eb];
    try assumption; try lia.
  assert (Ebuf : rr_buf (read_chunks o cs count off 0) =
                 firstn (Z.to_nat count)
                   (skipn (Z.to_nat offset)
                      (described_bytes o0 (dirname path) (stream_lines o0 fd)))).
  { rewrite Eb. unfold described_bytes. rewrite Emap.
    rewrite (slices_split o pre cs sp ss offset Hpre Hsp) by lia.
    rewrite <- Eoff. reflexivity. }
  rewrite Er. change (0 + count) with count.
  split; [reflexivity|].
  split; [intros Hle; apply to_int_small; unfold INT_MAX in *; lia|].
  split; [|split; [exact Ebuf|split; [exact Hlen|]]].
  - rewrite Ebuf, length_firstn, length_skipn. lia.
  - apply accepted_slices_are_windows.
Qed.

(** C9.  If one of the positional reads of a [read_concat_file] returns a
    positive count smaller than the count it asked for, then that read is
    the last one issued, every read before it was served in full, and the
    value returned is the sum of what those reads and the short read
    returned (as an [int]: the sum itself for every request size up to
    [INT_MAX]). *)
Theorem short_read_is_terminal (o : os) (count offset : Z)
  (pre : list pread_call) (call : pread_call) (post : list pread_call) :
  0 <= offset -> 0 <= count < 2 ^ 64 ->
  rr_trace (read_concat_file reg o fd count offset) = pre ++ call :: post ->
  0 < pc_rv call < pc_count call ->
  post = [] /\
  Forall full_read pre /\
  rr_ret (read_concat_file reg o fd count offset)
    = to_int (sum_rv pre + pc_rv call) /\
  (count <= INT_MAX ->
   rr_ret (read_concat_file reg o fd count offset) = sum_rv pre + pc_rv call).
Proof.
  intros Hoff Hcount.
  destruct registered_wf as [Hwf Hsum].
  unfold read_concat_file. rewrite registered.
  destruct (offset >? cf_fsize cf).
  { cbn [rr_trace]. intros E. destruct pre; discriminate. }
  destruct (skip_chunks_spec (cf_chunks cf) offset Hwf Hoff)
    as [skipped [_ [_ [Hn [Hwf' Hhead]]]]].
  destruct (skip_chunks (cf_chunks cf) offset) as [cs off].
  cbn [fst snd] in *. cbn [rr_trace rr_ret]. intros Et Hshort.
  destruct (read_chunks_short cs Hwf' o count off 0 pre call post)
    as [Hp [Hret [Hfull [Hs0 Hs1]]]]; try assumption; try lia.
  rewrite Hret. change (0 + sum_rv pre) with (sum_rv pre).
  repeat split; try assumption.
  intros Hle. apply to_int_small. unfold INT_MAX in *. lia.
Qed.

(** Reads at and past the end, in general.  A read past the total size
    returns 0 and issues no positional read.  A read at the total size
    returns 0 without any positional read when [count] is 0 or the object
    has no chunk; otherwise it issues one positional read of 0 bytes on
    the descriptor of the last chunk (the guard of [read_concat_file] and
    its first loop test [offset > fsize], not [>=]), and returns 0 when
    that read returns 0, the negated [errno] when it fails. *)
Lemma read_at_or_past_end (o : os) (count offset : Z) :
  0 <= count ->
  (cf_fsize cf < offset ->
     rr_ret (read_concat_file reg o fd count offset) = 0 /\
     rr_trace (read_concat_file reg o fd count offset) = []) /\
  (offset = cf_fsize cf ->
     (count = 0 \/ cf_chunks cf = [] ->
        rr_ret (read_concat_file reg o fd count offset) = 0 /\
        rr_trace (read_concat_file reg o fd count offset) = []) /\
     (forall init c,
        0 < count -> cf_chunks cf = init ++ [c] ->
        rr_trace (read_concat_file reg o fd count offset) =
          [mk_call (c_fd c) 0 (c_fsize c + c_startOffset c)
             (fst (fst (sys_pread o (c_fd c) 0 (c_fsize c + c_startOffset c))))] /\
        (fst (fst (sys_pread o (c_fd c) 0 (c_fsize c + c_startOffset c))) = 0 ->
         rr_ret (read_concat_file reg o fd count offset) = 0) /\
        (fst (fst (sys_pread o (c_fd c) 0 (c_fsize c + c_startOffset c))) <> 0 ->
         rr_ret (read_concat_file reg o fd count offset) =
           to_int (- os_errno
                       (snd (sys_pread o (c_fd c) 0
                               (c_fsize c + c_startOffset c))))))).
Proof.
  intros Hcount.
  destruct registered_wf as [Hwf Hsum].
  unfold read_concat_file. rewrite registered. split.
  - intros Hgt. destruct (Z.gtb_spec offset (cf_fsize cf)); [|lia].
    split; reflexivity.
  - intros ->. destruct (Z.gtb_spec (cf_fsize cf) (cf_fsize cf)); [lia|]. split.
    + intros [-> | Hnil].
      * destruct (skip_chunks (cf_chunks cf) (cf_fsize cf)) as [cs off].
        destruct cs as [|c cs]; cbn [read_chunks rr_ret rr_trace];
          [split; reflexivity|].
        destruct (0 >? to_size_t (c_fsize c - off)) eqn:E.
        { exfalso. apply Z.gtb_lt in E. unfold to_size_t in E.
          pose proof (Z.mod_pos_bound (c_fsize c - off) (2 ^ 64) ltac:(lia)).
          lia. }
        cbn [read_last Z.gtb Z.compare rr_ret rr_trace]. split; reflexivity.
      * rewrite Hnil. cbn [skip_chunks read_chunks rr_ret rr_trace].
        split; reflexivity.
    + intros init c Hpos Hcs.
      rewrite Hsum, Hcs, skip_chunks_at_end by (rewrite <- Hcs; exact Hwf).
      cbn [rr_trace rr_ret].
      destruct (read_chunks_at_end o c count 0 Hpos) as [Ht [H0 Hn]].
      split; [exact Ht|]. split.
      * intros E. rewrite (H0 E). reflexivity.
      * intros E. rewrite (Hn E). reflexivity.
Qed.

End RegisteredObject.

Lemma read_concat_file_concatenation_witness :
  rr_ret (read_concat_file [abc_object] abc_served 3 4 3) = to_int 4 /\
  (4 <= INT_MAX ->
   rr_ret (read_concat_file [abc_object] abc_served 3 4 3) = 4) /\
  Z.of_nat (length (rr_buf (read_concat_file [abc_object] abc_served 3 4 3)))
    = 4 /\
  rr_buf (read_concat_file [abc_object] abc_served 3 4 3) =
    firstn (Z.to_nat 4)
      (skipn (Z.to_nat 3)
         (described_bytes (opened abc) (dirname desc_path)
            (stream_lines (opened abc) 3))) /\
  cf_fsize abc_object =
    Z.of_nat
      (length (described_bytes (opened abc) (dirname desc_path)
                 (stream_lines (opened abc) 3))) /\
  Forall (fun seg =>
            forall d, file_bytes (opened abc) (fst (fst seg)) = Some d ->
                      segment_slice (opened abc) seg =
                        firstn (Z.to_nat (snd seg))
                          (skipn (Z.to_nat (snd (fst seg))) d))
    (accepted_lines (opened abc) (dirname desc_path)
       (stream_lines (opened abc) 3)).
Proof.
  apply (read_concat_file_concatenation (opened abc) 3 desc_path abc_object
           abc_served).
  - lia.
  - vm_compute. reflexivity.
  - reflexivity.
  - repeat constructor.
  - lia.
  - change (2 ^ 64) with 18446744073709551616. lia.
  - simpl. lia.
  - vm_compute. repeat constructor.
Defined.

(** The bytes the description a, b, c denotes, and the request of the
    lemma above. *)
Lemma described_bytes_example :
  described_bytes (opened abc) (dirname desc_path) (stream_lines (opened abc) 3)
    = str "AAAABBCCC" /\
  rr_buf (read_concat_file [abc_object] abc_served 3 4 3) = str "ABBC".
Proof. split; vm_compute; reflexivity. Qed.

Lemma short_read_is_terminal_witness :
  @nil pread_call = [] /\
  Forall full_read [mk_call 5 2 0 2] /\
  rr_ret (read_concat_file [bdc_object] (bdc_served 3) 3 15 0)
    = to_int (sum_rv [mk_call 5 2 0 2] + pc_rv (mk_call 6 10 0 3)) /\
  (15 <= INT_MAX ->
   rr_ret (read_concat_file [bdc_object] (bdc_served 3) 3 15 0)
     = sum_rv [mk_call 5 2 0 2] + pc_rv (mk_call 6 10 0 3)).
Proof.
  apply (short_read_is_terminal (short_opened 3) 3 desc_path bdc_object
           (bdc_served 3) [bdc_object]).
  - lia.
  - vm_compute. reflexivity.
  - reflexivity.
  - lia.
  - change (2 ^ 64) with 18446744073709551616. lia.
  - vm_compute. reflexivity.
  - simpl. lia.
Defined.

(** Scenario A of the specification: the files AAAA, BB and CCC, read
    through the object the open registers. *)
Lemma scenario_three_files :
  (r <- concatfs_open (str "/s") (sample_os abc) [] (str "/m-concat-x") O_RDONLY ;;
   Ret (map cf_fsize (or_reg r),
        rr_buf (read_concat_file (or_reg r) (or_os r) 3 9 0),
        rr_buf (read_concat_file (or_reg r) (or_os r) 3 2 4),
        rr_buf (read_concat_file (or_reg r) (or_os r) 3 4 3)))
  = Ret ([9], str "AAAABBCCC", str "BB", str "ABBC").
Proof. vm_compute. reflexivity. Qed.

(** C2 at an object whose last segment has no usable descriptor.  The
    description names the file u, which stats to 3 bytes and cannot be
    opened, so its chunk carries descriptor -1.  The open succeeds and the
    total size is 3; a read of 1 byte at offset 3, the total size, reaches
    the zero-length [pread] on that descriptor and returns -EBADF instead
    of 0.  (A read past the total size returns 0, as does a read at the
    total size when that [pread] succeeds: [read_at_or_past_end].) *)
Theorem read_at_end_returns_error :
  (r <- concatfs_open (str "/s") (sample_os (lines ["u"%string])) []
          (str "/m-concat-x") O_RDONLY ;;
   Ret (or_ret r, or_reg r,
        rr_ret (read_concat_file (or_reg r) (or_os r) 3 1 3),
        rr_trace (read_concat_file (or_reg r) (or_os r) 3 1 3),
        rr_ret (read_concat_file (or_reg r) (or_os r) 3 1 4)))
  = Ret (0, [mk_concat_file [mk_chunk (-1) 0 3] 3 3 1],
         - EBADF, [mk_call (-1) 0 3 (-1)], 0)
  /\ - EBADF <> 0.
Proof. split; [vm_compute; reflexivity | discriminate]. Qed.

(** ** The registry *)

Lemma open_files_erase_none (reg : registry) (fd : Z) :
  open_files_find reg fd = None ->
  Forall (fun x => cf_fd x <> fd) reg /\ open_files_erase reg fd = (None, reg).
Proof.
  induction reg as [|cf reg IH]; cbn [open_files_find open_files_erase].
  - intros _. split; [constructor | reflexivity].
  - destruct (Z.eqb_spec (cf_fd cf) fd) as [E|Hne]; [discriminate|].
    intros H. destruct (IH H) as [Hall ->]. split; [|reflexivity].
    constructor; assumption.
Qed.

Lemma open_files_erase_some (reg : registry) (fd : Z) (cf : concat_file) :
  open_files_find reg fd = Some cf ->
  cf_fd cf = fd /\
  exists pre post,
    reg = pre ++ cf :: post /\
    Forall (fun x => cf_fd x <> fd) pre /\
    open_files_erase reg fd = (Some cf, pre ++ post).
Proof.
  induction reg as [|x reg IH]; cbn [open_files_find open_files_erase];
    [discriminate|].
  destruct (Z.eqb_spec (cf_fd x) fd) as [E|Hne].
  - intros H; injection H as ->. split; [exact E|].
    exists [], reg. repeat split. constructor.
  - intros H. destruct (IH H) as [Hfd [pre [post [-> [Hall ->]]]]].
    split; [exact Hfd|]. exists (x :: pre), post. repeat split.
    constructor; assumption.
Qed.

Lemma open_files_erase_other (reg : registry) (fd d : Z) :
  d <> fd ->
  open_files_find (snd (open_files_erase reg fd)) d = open_files_find reg d.
Proof.
  intros Hd. induction reg as [|x reg IH]; cbn [open_files_find open_files_erase];
    [reflexivity|].
  destruct (Z.eqb_spec (cf_fd x) fd) as [E|Hne].
  - cbn [snd]. destruct (Z.eqb_spec (cf_fd x) d); [lia | reflexivity].
  - destruct (open_files_erase reg fd) as [rv rest]. cbn [snd] in *.
    cbn [open_files_find]. rewrite IH. reflexivity.
Qed.

(** X13.  [open_files_erase] removes exactly the entry [open_files_find] returns,
    the first one registered under the descriptor, and returns it; entries
    under other descriptors are found as before.  When no entry is
    registered under the descriptor it returns the null pointer and leaves
    the list as it is. *)
Theorem open_files_erase_removes_found (reg : registry) (fd : Z) :
  match open_files_find reg fd with
  | Some cf =>
      cf_fd cf = fd /\
      exists pre post,
        reg = pre ++ cf :: post /\
        Forall (fun x => cf_fd x <> fd) pre /\
        open_files_erase reg fd = (Some cf, pre ++ post)
  | None =>
      Forall (fun x => cf_fd x <> fd) reg /\
      open_files_erase reg fd = (None, reg)
  end /\
  (forall d, d <> fd ->
     open_files_find (snd (open_files_erase reg fd)) d = open_files_find reg d) /\
  (forall cf, cf_fd cf = fd ->
     open_files_push_front (Some cf) reg = Ret (cf :: reg) /\
     open_files_find (cf :: reg) fd = Some cf /\
     open_files_erase (cf :: reg) fd = (Some cf, reg)).
Proof.
  split; [|split].
  - destruct (open_files_find reg fd) as [cf|] eqn:E.
    + apply open_files_erase_some. exact E.
    + apply open_files_erase_none. exact E.
  - intros d Hd. apply open_files_erase_other. exact Hd.
  - intros cf <-. cbn [open_files_push_front open_files_find open_files_erase].
    rewrite Z.eqb_refl. repeat split.
Qed.

(** ** Descriptors: what the operations open and close *)

Lemma fd_lookup_neg (o : os) (d : Z) : d < 0 -> fd_lookup o d = None.
Proof.
  intros H. rewrite fd_lookup_slot. destruct (Z.ltb_spec d 0); [reflexivity|lia].
Qed.

Lemma fd_lookup_nonneg (o : os) (d : Z) (f : ofile) :
  fd_lookup o d = Some f -> 0 <= d.
Proof.
  intros H. destruct (Z_lt_le_dec d 0) as [Hd|Hd]; [|exact Hd].
  rewrite fd_lookup_neg in H by exact Hd. discriminate.
Qed.

Lemma mem_fd_In (d : Z) (ds : list Z) : mem_fd d ds = true <-> In d ds.
Proof.
  unfold mem_fd. rewrite existsb_exists. split.
  - intros [x [Hx E]]. apply Z.eqb_eq in E. subst x. exact Hx.
  - intros H. exists d. split; [exact H | apply Z.eqb_refl].
Qed.

(** [close] frees the descriptor and nothing else. *)
Lemma sys_close_lookup (o : os) (fd d : Z) :
  fd_lookup (snd (sys_close o fd)) d = if d =? fd then None else fd_lookup o d.
Proof.
  unfold sys_close. destruct (fd_lookup o fd) as [f|] eqn:Hf; cbn [snd].
  - pose proof (fd_lookup_nonneg _ _ _ Hf) as Hfd.
    destruct (Z.eqb_spec d fd) as [->|Hne].
    + rewrite fd_lookup_slot. cbn [os_fds set_fds].
      destruct (Z.ltb_spec fd 0); [reflexivity|]. apply slot_fd_set_eq.
    + rewrite !fd_lookup_slot. cbn [os_fds set_fds].
      destruct (Z.ltb_spec d 0); [reflexivity|]. apply slot_fd_set_ne. lia.
  - destruct (Z.eqb_spec d fd) as [->|Hne]; [exact Hf | reflexivity].
Qed.

(** A new descriptor was unused, and the others are as before. *)
Lemma install_fresh (o : os) (f : ofile) : fd_lookup o (fst (install o f)) = None.
Proof.
  unfold install. destruct (_ <? _)%nat; cbn [fst]; [|reflexivity].
  rewrite fd_lookup_slot.
  destruct (Z.ltb_spec (Z.of_nat (lowest_free (os_fds o))) 0); [reflexivity|].
  rewrite Nat2Z.id. apply slot_lowest_free.
Qed.

Lemma install_lookup (o : os) (f : ofile) (x : Z) :
  x <> fst (install o f) -> fd_lookup (snd (install o f)) x = fd_lookup o x.
Proof.
  unfold install. destruct (_ <? _)%nat; cbn [fst snd]; [|reflexivity].
  intros Hne. rewrite !fd_lookup_slot. cbn [os_fds set_fds].
  destruct (Z.ltb_spec x 0); [reflexivity|]. apply slot_fd_set_ne. lia.
Qed.

Lemma sys_open_fresh (o : os) (p : cstr) (a : access) :
  fd_lookup o (fst (sys_open o p a)) = None.
Proof.
  unfold sys_open. destruct (namei o p) as [e|nd]; [reflexivity|].
  destruct (permits nd a); [reflexivity | apply install_fresh].
Qed.

Lemma sys_open_lookup (o : os) (p : cstr) (a : access) (x : Z) :
  x <> fst (sys_open o p a) ->
  fd_lookup (snd (sys_open o p a)) x = fd_lookup o x.
Proof.
  unfold sys_open. destruct (namei o p) as [e|nd]; [reflexivity|].
  destruct (permits nd a); [reflexivity | apply install_lookup].
Qed.

Lemma sys_dup_fresh (o : os) (fd : Z) : fd_lookup o (fst (sys_dup o fd)) = None.
Proof.
  unfold sys_dup. destruct (fd_lookup o fd); [apply install_fresh | reflexivity].
Qed.

Lemma sys_dup_lookup (o : os) (fd x : Z) :
  x <> fst (sys_dup o fd) -> fd_lookup (snd (sys_dup o fd)) x = fd_lookup o x.
Proof.
  unfold sys_dup. destruct (fd_lookup o fd); [apply install_lookup | reflexivity].
Qed.

Lemma sys_dup_files (o : os) (fd : Z) : same_files o (snd (sys_dup o fd)).
Proof.
  unfold sys_dup. destruct (fd_lookup o fd); [apply install_files|].
  split; reflexivity.
Qed.

Lemma fdopen_r_some (o : os) (d sfd : Z) (text : list byte) (o1 : os) :
  fdopen_r o d = (Some (sfd, text), o1) ->
  sfd = d /\ o1 = o /\ exists f, fd_lookup o d = Some f.
Proof.
  unfold fdopen_r. destruct (fd_lookup o d) as [f|]; [|discriminate].
  destruct (of_acc f); intros E; try discriminate; injection E as <- _ <-;
    eauto.
Qed.

(** The stream of the parser is read through a new descriptor. *)
Lemma open_stream_opens (o : os) (fd : Z) (path : cstr) (sfd : Z)
  (text : list byte) (o1 : os) :
  open_stream o fd path = (Some (sfd, text), o1) ->
  same_files o o1 /\
  fd_lookup o sfd = None /\
  (exists f, fd_lookup o1 sfd = Some f) /\
  (forall d, d <> sfd -> fd_lookup o1 d = fd_lookup o d).
Proof.
  unfold open_stream. destruct (fd >=? 0).
  - pose proof (sys_dup_fresh o fd) as Hf.
    pose proof (sys_dup_lookup o fd) as Hl.
    pose proof (sys_dup_files o fd) as Hs.
    destruct (sys_dup o fd) as [d o0]. cbn [fst snd] in *.
    intros E. destruct (fdopen_r_some _ _ _ _ _ E) as [-> [-> Hopen]].
    repeat split; try assumption; apply Hs.
  - unfold fopen_r.
    pose proof (sys_open_fresh o path O_RDONLY) as Hf.
    pose proof (sys_open_lookup o path O_RDONLY) as Hl.
    pose proof (sys_open_files o path O_RDONLY) as Hs.
    destruct (sys_open o path O_RDONLY) as [d o0]. cbn [fst snd] in *.
    destruct (d <? 0); [discriminate|].
    intros E. destruct (fdopen_r_some _ _ _ _ _ E) as [-> [-> Hopen]].
    repeat split; try assumption; apply Hs.
Qed.

(** One line of the parser: the descriptors of the chunks were unused
    when the parse began, and all other descriptors are as they were. *)
Lemma parse_line_opens (o0 : os) (fd : Z) (base : cstr) (o : os)
  (cf : concat_file) (b : list byte) (st : os * concat_file) :
  parse_line fd base (o, cf) b = Ret st ->
  same_files o0 o ->
  (forall d, In d (chunk_fds cf) -> fd_lookup o0 d = None) ->
  (forall d, ~ In d (chunk_fds cf) -> fd_lookup o d = fd_lookup o0 d) ->
  same_files o0 (fst st) /\
  (forall d, In d (chunk_fds (snd st)) -> fd_lookup o0 d = None) /\
  (forall d, ~ In d (chunk_fds (snd st)) -> fd_lookup (fst st) d = fd_lookup o0 d).
Proof.
  unfold parse_line.
  destruct (line_path base b) as [|tpath]; cbn [run_bind]; [discriminate|].
  pose proof (try_parse_line_offsets_frame o tpath) as [F1 [F2 _]].
  destruct (try_parse_line_offsets o tpath) as [[[[p s] l]|] o1];
    cbn [fst snd] in *.
  - destruct (add_size cf l) as [|cf1] eqn:Ea; cbn [run_bind]; [discriminate|].
    apply add_size_ret in Ea. destruct Ea as [_ ->].
    destruct (fd >=? 0).
    + pose proof (sys_open_fresh o1 p O_RDONLY) as Hf.
      pose proof (sys_open_lookup o1 p O_RDONLY) as Hl.
      pose proof (sys_open_files o1 p O_RDONLY) as Hs.
      destruct (sys_open o1 p O_RDONLY) as [d o2]. cbn [fst snd] in *.
      intros E S0 Hin Hout; injection E as <-.
      unfold chunk_fds in *.
      cbn [fst snd add_chunk add_size cf_chunks]. rewrite map_app.
      cbn [map c_fd].
      rewrite (fd_lookup_fds o1 o d F2) in Hf.
      split; [|split].
      * eapply same_files_trans; [exact S0|].
        eapply same_files_trans; [exact F1 | exact Hs].
      * intros d' Hd'. apply in_app_or in Hd'.
        destruct Hd' as [Hd'|[<-|[]]]; [apply Hin; exact Hd'|].
        destruct (in_dec Z.eq_dec d (map c_fd (cf_chunks cf))) as [Hi|Hn].
        -- apply Hin. exact Hi.
        -- rewrite <- (Hout d Hn). exact Hf.
      * intros d' Hd'.
        assert (Hne : d' <> d) by (intros ->; apply Hd', in_or_app; right; left; reflexivity).
        assert (Hn : ~ In d' (map c_fd (cf_chunks cf)))
          by (intros Hi; apply Hd', in_or_app; left; exact Hi).
        rewrite (Hl d' Hne), (fd_lookup_fds o1 o d' F2). apply Hout. exact Hn.
    + intros E S0 Hin Hout; injection E as <-. cbn [fst snd add_size].
      unfold chunk_fds in *. cbn [cf_chunks].
      split; [eapply same_files_trans; eassumption|]. split; [exact Hin|].
      intros d' Hd'. rewrite (fd_lookup_fds o1 o d' F2). apply Hout. exact Hd'.
  - intros E S0 Hin Hout; injection E as <-. cbn [fst snd].
    split; [eapply same_files_trans; eassumption|]. split; [exact Hin|].
    intros d' Hd'. rewrite (fd_lookup_fds o1 o d' F2). apply Hout. exact Hd'.
Qed.

Lemma parse_lines_opens (o0 : os) (fd : Z) (base : cstr)
  (bufs : list (list byte)) (o : os) (cf : concat_file)
  (st : os * concat_file) :
  parse_lines fd base (o, cf) bufs = Ret st ->
  same_files o0 o ->
  (forall d, In d (chunk_fds cf) -> fd_lookup o0 d = None) ->
  (forall d, ~ In d (chunk_fds cf) -> fd_lookup o d = fd_lookup o0 d) ->
  same_files o0 (fst st) /\
  (forall d, In d (chunk_fds (snd st)) -> fd_lookup o0 d = None) /\
  (forall d, ~ In d (chunk_fds (snd st)) -> fd_lookup (fst st) d = fd_lookup o0 d).
Proof.
  revert o cf. induction bufs as [|b bufs IH]; intros o cf; cbn [parse_lines].
  - intros E; injection E as <-. cbn [fst snd]. auto.
  - destruct (parse_line fd base (o, cf) b) as [|[o1 cf1]] eqn:E1;
      cbn [run_bind]; [discriminate|].
    intros E S0 Hin Hout.
    destruct (parse_line_opens o0 _ _ _ _ _ _ E1 S0 Hin Hout) as [S1 [Hin1 Hout1]].
    exact (IH o1 cf1 E S1 Hin1 Hout1).
Qed.

(** A parse leaves open exactly the descriptors of the chunks it built,
    which were unused before; the descriptor of its stream is closed
    again. *)
Lemma open_concat_file_opens (o : os) (fd : Z) (path : cstr)
  (cf : concat_file) (o1 : os) :
  open_concat_file o fd path = Ret (Some cf, o1) ->
  same_files o o1 /\
  (forall d, In d (chunk_fds cf) -> fd_lookup o d = None) /\
  (forall d, ~ In d (chunk_fds cf) -> fd_lookup o1 d = fd_lookup o d).
Proof.
  unfold open_concat_file.
  destruct (open_stream o fd path) as [[[sfd text]|] oa] eqn:Es; [|discriminate].
  destruct (open_stream_opens _ _ _ _ _ _ Es) as [Sa [Hfree [[f Hs] Hoth]]].
  destruct (strncpy (PATH_MAX + 1) path) as [|bpath]; cbn [run_bind];
    [discriminate|].
  destruct (parse_lines fd (dirname bpath) (oa, mk_concat_file [] fd 0 1)
              (read_lines (length text) text)) as [|st] eqn:Ep;
    cbn [run_bind]; [discriminate|].
  destruct (parse_lines_opens oa _ _ _ _ _ _ Ep (same_files_refl oa))
    as [Sb [Hin Hout]].
  { intros d []. }
  { intros d _. reflexivity. }
  pose proof (sys_close_lookup (fst st) sfd) as Hc.
  pose proof (sys_close_files (fst st) sfd) as Sc.
  destruct (sys_close (fst st) sfd) as [rc o3]. cbn [snd] in Hc, Sc.
  intros E; injection E as <- <-.
  split; [|split].
  - eapply same_files_trans; [exact Sa|].
    eapply same_files_trans; [exact Sb | exact Sc].
  - intros d Hd. pose proof (Hin d Hd) as Hn.
    assert (d <> sfd) by (intros ->; rewrite Hs in Hn; discriminate).
    rewrite <- (Hoth d) by assumption. exact Hn.
  - intros d Hd. rewrite Hc. destruct (Z.eqb_spec d sfd) as [->|Hne].
    + symmetry. exact Hfree.
    + rewrite (Hout d Hd). apply Hoth. exact Hne.
Qed.

Lemma close_chunks_lookup (cs : list chunk) (o : os) (d : Z) :
  fd_lookup (fold_left (fun a ch => snd (sys_close a (c_fd ch))) cs o) d =
  if mem_fd d (map c_fd cs) then None else fd_lookup o d.
Proof.
  revert o. induction cs as [|c cs IH]; intros o; cbn [fold_left map];
    [reflexivity|].
  rewrite IH, sys_close_lookup. unfold mem_fd. cbn [existsb].
  destruct (d =? c_fd c); cbn [orb]; [|reflexivity].
  destruct (existsb (Z.eqb d) (map c_fd cs)); reflexivity.
Qed.

Lemma close_chunks_files (cs : list chunk) (o : os) :
  same_files o (fold_left (fun a ch => snd (sys_close a (c_fd ch))) cs o).
Proof.
  revert o. induction cs as [|c cs IH]; intros o; cbn [fold_left];
    [apply same_files_refl|].
  eapply same_files_trans; [apply (sys_close_files o (c_fd c)) | apply IH].
Qed.

Lemma close_concat_file_files (o : os) (cf : concat_file) :
  same_files o (close_concat_file o (Some cf)).
Proof.
  unfold close_concat_file.
  eapply same_files_trans; [apply close_chunks_files | apply sys_close_files].
Qed.

Lemma close_concat_file_lookup (o : os) (cf : concat_file) (d : Z) :
  fd_lookup (close_concat_file o (Some cf)) d =
  if mem_fd d (owned cf) then None else fd_lookup o d.
Proof.
  unfold close_concat_file. rewrite sys_close_lookup, close_chunks_lookup.
  unfold owned, chunk_fds, mem_fd. cbn [existsb].
  destruct (d =? cf_fd cf); reflexivity.
Qed.

(** X14.  [close_concat_file] closes the descriptors the object carries, its own
    and those of its chunks, and no other; the files are untouched.  On
    the null pointer it does nothing. *)
Theorem close_concat_file_closes_owned (o : os) (cf : concat_file) :
  close_concat_file o None = o /\
  same_files o (close_concat_file o (Some cf)) /\
  forall d,
    fd_lookup (close_concat_file o (Some cf)) d =
    if mem_fd d (owned cf) then None else fd_lookup o d.
Proof.
  split; [reflexivity|]. split.
  - apply close_concat_file_files.
  - apply close_concat_file_lookup.
Qed.

(** X2.  An open followed by the release of the handle it set leaves the
    registry as it was and every descriptor as it was: each descriptor the
    open and the parse opened (the description, the stream, the backing
    files) is closed again, and no other descriptor is closed. *)
Theorem open_release_round_trip (src_dir : cstr) (o : os) (reg : registry)
  (path : cstr) (flags : access) (r : open_result) (fh : Z) (o' : os)
  (reg' : registry) :
  concatfs_open src_dir o reg path flags = Ret r ->
  or_fh r = Some fh ->
  concatfs_release (or_os r) (or_reg r) path fh = Ret (o', reg') ->
  reg' = reg /\ same_files o o' /\ forall d, fd_lookup o' d = fd_lookup o d.
Proof.
  unfold concatfs_open, concatfs_release.
  pose proof (sys_open_fresh o (snprintf_path PATH_MAX src_dir path) flags) as Hf.
  pose proof (sys_open_lookup o (snprintf_path PATH_MAX src_dir path) flags) as Hl.
  pose proof (sys_open_files o (snprintf_path PATH_MAX src_dir path) flags) as Hs.
  destruct (sys_open o (snprintf_path PATH_MAX src_dir path) flags)
    as [fd o1] eqn:Eo. cbn [fst snd] in Hf, Hl, Hs.
  destruct (Z.ltb_spec fd 0) as [Hneg|Hnn].
  { intros E; injection E as <-. discriminate. }
  destruct (is_concatfs_file path) as [|[|]] eqn:Ev; cbn [run_bind];
    [discriminate| |].
  - destruct (open_concat_file o1 fd (snprintf_path PATH_MAX src_dir path))
      as [|[[cf|] o2]] eqn:Ep; cbn [run_bind fst snd open_files_push_front];
      try discriminate.
    intros E; injection E as <-. cbn [or_fh or_os or_reg].
    intros E; injection E as <-.
    destruct (open_concat_file_wf _ _ _ _ _ Hnn Ep) as [_ Hcf].
    cbn [open_files_erase]. rewrite Hcf, Z.eqb_refl.
    intros E; injection E as <- <-.
    destruct (open_concat_file_opens _ _ _ _ _ Ep) as [S2 [Hin Hout]].
    pose proof (close_concat_file_files o2 cf) as S3.
    pose proof (close_concat_file_lookup o2 cf) as Hc.
    split; [reflexivity|]. split.
    + eapply same_files_trans; [exact Hs|].
      eapply same_files_trans; [exact S2 | exact S3].
    + intros d. rewrite Hc. unfold owned. unfold mem_fd. cbn [existsb].
      rewrite Hcf. destruct (Z.eqb_spec d fd) as [->|Hne]; cbn [orb].
      * symmetry. exact Hf.
      * destruct (existsb (Z.eqb d) (chunk_fds cf)) eqn:Em.
        -- apply (proj1 (mem_fd_In d (chunk_fds cf))) in Em.
           rewrite <- (Hl d Hne). symmetry. apply Hin. exact Em.
        -- rewrite Hout; [apply Hl; exact Hne|].
           intros Hi. apply (proj2 (mem_fd_In d (chunk_fds cf))) in Hi.
           unfold mem_fd in Hi. congruence.
  - intros E; injection E as <-. cbn [or_fh or_os or_reg].
    intros E; injection E as <-.
    intros E; injection E as <- <-.
    split; [reflexivity|]. split.
    + eapply same_files_trans; [exact Hs | apply sys_close_files].
    + intros d. rewrite sys_close_lookup.
      destruct (Z.eqb_spec d fd) as [->|Hne]; [symmetry; exact Hf|].
      apply Hl. exact Hne.
Qed.

Lemma open_release_round_trip_witness :
  @nil concat_file = [] /\
  same_files (sample_os abc) (close_concat_file abc_served (Some abc_object)) /\
  forall d,
    fd_lookup (close_concat_file abc_served (Some abc_object)) d =
    fd_lookup (sample_os abc) d.
Proof.
  apply (open_release_round_trip (str "/s") (sample_os abc) []
           (str "/m-concat-x") O_RDONLY
           (mk_open_result 0 (Some 3) abc_served [abc_object]) 3).
  - vm_compute. reflexivity.
  - reflexivity.
  - vm_compute. reflexivity.
Defined.

(** X15.  The release of a virtual path whose handle has no registered object
    changes neither the system nor the registry: [open_files_erase]
    returns the null pointer, on which [close_concat_file] returns at
    once, so the descriptor of the handle is not closed. *)
Theorem release_without_object_closes_nothing (o : os) (reg : registry)
  (path : cstr) (fh : Z) :
  is_concatfs_file path = Ret true ->
  open_files_find reg fh = None ->
  concatfs_release o reg path fh = Ret (o, reg).
Proof.
  intros Hv Hn. unfold concatfs_release. rewrite Hv. cbn [run_bind].
  destruct (open_files_erase_none reg fh Hn) as [_ ->]. reflexivity.
Qed.

Lemma release_without_object_closes_nothing_witness :
  concatfs_release (opened abc) [] (str "/m-concat-x") 3 = Ret (opened abc, []).
Proof.
  apply (release_without_object_closes_nothing (opened abc) []
           (str "/m-concat-x") 3).
  - vm_compute. reflexivity.
  - reflexivity.
Defined.

(** ** The segments a description denotes *)

Lemma strchr_some (s : cstr) (c : ascii) (pre post : cstr) :
  strchr s c = Some (pre, post) -> s = pre ++ c :: post /\ ~ In c pre.
Proof.
  revert pre post. induction s as [|a s IH]; intros pre post; cbn [strchr];
    [discriminate|].
  destruct (Ascii.eqb_spec a c) as [->|Hne].
  - intros E; injection E as <- <-. split; [reflexivity | intros []].
  - destruct (strchr s c) as [[p q]|]; [|discriminate].
    intros E; injection E as <- <-.
    destruct (IH p q eq_refl) as [-> Hn]. split; [reflexivity|].
    intros [H|H]; [exact (Hne H) | exact (Hn H)].
Qed.

Lemma strchr_none (s : cstr) (c : ascii) : strchr s c = None -> ~ In c s.
Proof.
  induction s as [|a s IH]; cbn [strchr]; [intros _ []|].
  destruct (Ascii.eqb_spec a c) as [->|Hne]; [discriminate|].
  destruct (strchr s c) as [[p q]|]; [discriminate|].
  intros _ [H|H]; [exact (Hne H) | exact (IH eq_refl H)].
Qed.

Lemma sscanf_errno_values (s : cstr) (o : os) :
  os_errno (sscanf_errno s o) = os_errno o \/
  os_errno (sscanf_errno s o) = 0 \/ os_errno (sscanf_errno s o) = ERANGE.
Proof.
  unfold sscanf_errno, scan_jd_errno.
  destruct (dropwhile isspace s) as [|c t]; [right; left; reflexivity|].
  destruct (if (c =? "-")%char then (true, t)
            else if (c =? "+")%char then (false, t) else (false, c :: t))
    as [neg [|d s2]]; [left; reflexivity|].
  destruct (digit_val d); [|left; reflexivity].
  cbv zeta. destruct (_ =? _); [left; reflexivity | right; right; reflexivity].
Qed.

Lemma scan_errno_values (offs : option cstr) (o : os) :
  os_errno (scan_errno offs o) = os_errno o \/
  os_errno (scan_errno offs o) = 0 \/ os_errno (scan_errno offs o) = ERANGE.
Proof.
  unfold scan_errno. destruct offs as [r|]; [|left; reflexivity].
  pose proof (sscanf_errno_values r o) as H1.
  destruct (strchr r COLON) as [[a r2]|]; [|exact H1].
  pose proof (sscanf_errno_values r2 (sscanf_errno r o)) as H2.
  destruct H2 as [H2|H2]; [rewrite H2; exact H1 | right; exact H2].
Qed.

(** X6.  The segment of an accepted line.  Its path is the line up to the
    first colon, so it never contains one; the path names a file of at
    least one byte, and the window [start, start + length) lies within
    that file as [stat] reports it.  Accepting a line changes nothing of
    the system but [errno], which the [sscanf] calls leave as it was, clear
    or set to ERANGE; a line without a colon is not scanned, and leaves
    [errno] as it was too. *)
Theorem accepted_segment_within_file (o : os) (line p : cstr) (s l : Z)
  (o1 : os) :
  try_parse_line_offsets o line = (Some (p, s, l), o1) ->
  same_but_errno o o1 /\
  (os_errno o1 = os_errno o \/ os_errno o1 = 0 \/ os_errno o1 = ERANGE) /\
  (strchr line COLON = None -> o1 = o) /\
  (line = p \/ exists rest, line = p ++ COLON :: rest) /\
  ~ In COLON p /\
  exists nd,
    namei o p = inr nd /\
    0 <= s /\ 1 <= l /\ s + l <= node_size nd /\ node_size nd <= OFF_T_MAX.
Proof.
  intros H. apply try_parse_line_offsets_some in H.
  destruct H as [size [offs [_ [Hcut [St [-> [Hsz [Hs Hl]]]]]]]].
  destruct (sys_stat_some _ _ _ _ St) as [_ [Hb [nd [Hn Hsize]]]].
  rewrite CLAMP_spec in Hs, Hl.
  split.
  { destruct (scan_errno_fs offs o) as [G1 [G2 [G3 [G4 G5]]]].
    unfold same_but_errno. rewrite G1, G2, G3, G4, G5. repeat split. }
  split; [apply scan_errno_values|].
  split.
  { intros Hc. unfold cut_line in Hcut. rewrite Hc in Hcut.
    injection Hcut as _ <-. reflexivity. }
  split; [|split].
  - unfold cut_line in Hcut.
    destruct (strchr line COLON) as [[a b]|] eqn:E; injection Hcut as <- _.
    + right. exists b. apply (strchr_some _ _ _ _ E).
    + left. reflexivity.
  - unfold cut_line in Hcut.
    destruct (strchr line COLON) as [[a b]|] eqn:E; injection Hcut as <- _.
    + apply (strchr_some _ _ _ _ E).
    + apply strchr_none. exact E.
  - exists nd. rewrite Hsize. repeat split; try assumption; lia.
Qed.

Lemma accepted_segment_within_file_witness :
  same_but_errno (set_errno EBADF (sample_os []))
    (set_errno ERANGE (sample_os [])) /\
  (os_errno (set_errno ERANGE (sample_os [])) =
     os_errno (set_errno EBADF (sample_os [])) \/
   os_errno (set_errno ERANGE (sample_os [])) = 0 \/
   os_errno (set_errno ERANGE (sample_os [])) = ERANGE) /\
  (strchr (str "/s/d:3:99999999999999999999") COLON = None ->
   set_errno ERANGE (sample_os []) = set_errno EBADF (sample_os [])) /\
  (str "/s/d:3:99999999999999999999" = str "/s/d" \/
   exists rest,
     str "/s/d:3:99999999999999999999" = str "/s/d" ++ COLON :: rest) /\
  ~ In COLON (str "/s/d") /\
  exists nd,
    namei (set_errno EBADF (sample_os [])) (str "/s/d") = inr nd /\
    0 <= 3 /\ 1 <= 7 /\ 3 + 7 <= node_size nd /\ node_size nd <= OFF_T_MAX.
Proof.
  apply (accepted_segment_within_file (set_errno EBADF (sample_os []))
           (str "/s/d:3:99999999999999999999")).
  reflexivity.
Defined.

(** What the [sscanf] calls leave in [errno], on lines that name the file
    d of 10 bytes: a length that does not fit [off_t] leaves ERANGE, an
    empty field at the end of the line clears [errno], and numbers that
    fit leave it as it was. *)
Lemma sscanf_errno_example :
  map (fun line =>
         os_errno (snd (try_parse_line_offsets
                          (set_errno EBADF (sample_os [])) (str line))))
    ["/s/d:3:99999999999999999999"; "/s/d:"; "/s/d:3:"; "/s/d:3:4"; "/s/d";
     "/s/d: "; "/s/d:x"; "/s/d:-"; "/s/d:-99999999999999999999:2"]%string
  = [ERANGE; 0; 0; EBADF; EBADF; 0; EBADF; EBADF; ERANGE].
Proof. vm_compute. reflexivity. Qed.

(** *** Line buffers *)

Lemma fgets_app (n : nat) (s : list byte) :
  fst (fgets n s) ++ snd (fgets n s) = s.
Proof.
  revert s. induction n as [|n IH]; intros [|c s]; cbn [fgets]; try reflexivity.
  destruct (c =? LF)%char; [reflexivity|].
  specialize (IH s). destruct (fgets n s) as [l r]. cbn [fst snd] in *.
  cbn [app]. rewrite IH. reflexivity.
Qed.

Lemma fgets_length (n : nat) (s : list byte) :
  (length (fst (fgets n s)) <= n)%nat.
Proof.
  revert s. induction n as [|n IH]; intros [|c s]; cbn [fgets fst length];
    try lia.
  destruct (c =? LF)%char; [cbn [fst length]; lia|].
  specialize (IH s). destruct (fgets n s) as [l r]. cbn [fst length] in *. lia.
Qed.

Lemma fgets_nonempty (n : nat) (c : ascii) (s : list byte) :
  fst (fgets (S n) (c :: s)) <> [].
Proof.
  cbn [fgets]. destruct (c =? LF)%char; [discriminate|].
  destruct (fgets n s) as [l r]. discriminate.
Qed.

(** Every buffer the loop sees holds at least one and at most [PATH_MAX]
    characters, all taken from the stream. *)
Lemma read_lines_buffers (fuel : nat) (s : list byte) :
  Forall (fun b => b <> [] /\ (length b <= PATH_MAX)%nat /\ incl b s)
    (read_lines fuel s).
Proof.
  revert s. induction fuel as [|fuel IH]; intros s; cbn [read_lines];
    [constructor|].
  destruct s as [|c s]; [constructor|].
  pose proof (fgets_app PATH_MAX (c :: s)) as Ha.
  pose proof (fgets_length PATH_MAX (c :: s)) as Hl.
  pose proof (fgets_nonempty (pred PATH_MAX) c s) as Hn.
  change (S (pred PATH_MAX)) with PATH_MAX in Hn.
  destruct (fgets PATH_MAX (c :: s)) as [l r]. cbn [fst snd] in *.
  constructor.
  - repeat split; try assumption. rewrite <- Ha. apply incl_appl, incl_refl.
  - eapply Forall_impl; [|apply IH].
    intros b [H1 [H2 H3]]. repeat split; try assumption.
    rewrite <- Ha. apply incl_appr. exact H3.
Qed.

Lemma c_str_length (b : list ascii) : (length (c_str b) <= length b)%nat.
Proof.
  induction b as [|c b IH]; cbn [c_str length]; [lia|].
  destruct (c =? NUL)%char; cbn [length]; lia.
Qed.

Lemma c_str_text (b : list ascii) : ~ In NUL b -> c_str b = b.
Proof.
  induction b as [|c b IH]; cbn [c_str]; [reflexivity|].
  intros H. destruct (Ascii.eqb_spec c NUL) as [->|Hne].
  - exfalso. apply H. left. reflexivity.
  - rewrite IH; [reflexivity|]. intros Hi. apply H. right. exact Hi.
Qed.

Lemma length_removelast_cons {A} (a : A) (l : list A) :
  length (removelast (a :: l)) = length l.
Proof.
  revert a. induction l as [|b l IH]; intros a; [reflexivity|].
  change (removelast (a :: b :: l)) with (a :: removelast (b :: l)).
  cbn [length]. rewrite IH. reflexivity.
Qed.

(** The head of a loop iteration has no defined behaviour exactly when
    the buffer starts with a NUL byte ([strlen(fpath)] is 0 and the store
    goes to [fpath[-1]]); the copy into [tpath] always fits. *)
Lemma line_path_undefined (base : cstr) (b : list byte) :
  (length b <= PATH_MAX)%nat ->
  (line_path base b = Undefined <-> c_str b = []).
Proof.
  intros Hl. unfold line_path. pose proof (c_str_length b) as Hc.
  destruct (c_str b) as [|a s] eqn:E; [split; reflexivity|].
  split; [|discriminate]. unfold entry_path.
  destruct (is_absolute (removelast (a :: s))); [|discriminate].
  unfold strncpy. rewrite length_removelast_cons. cbn [length] in Hc.
  destruct (Nat.ltb_spec (length s) PATH_MAX); [discriminate | lia].
Qed.

Lemma read_lines_lengths (fuel : nat) (s : list byte) :
  Forall (fun b => (length b <= PATH_MAX)%nat) (read_lines fuel s).
Proof.
  eapply Forall_impl; [|apply read_lines_buffers]. intros b [_ [H _]]. exact H.
Qed.

Lemma strncpy_fits (n : nat) (s : cstr) :
  (length s < n)%nat -> strncpy n s = Ret s.
Proof.
  intros H. unfold strncpy. destruct (Nat.ltb_spec (length s) n); [reflexivity|lia].
Qed.

Lemma text_lines_defined (fuel : nat) (text : list byte) :
  ~ In NUL text ->
  ~ Exists (fun b => c_str b = []) (read_lines fuel text).
Proof.
  intros Hn He. apply Exists_exists in He. destruct He as [b [Hb Hc]].
  pose proof (read_lines_buffers fuel text) as Hall.
  rewrite Forall_forall in Hall. destruct (Hall b Hb) as [Hne [_ Hi]].
  rewrite c_str_text in Hc; [contradiction|].
  intros H. apply Hn, Hi. exact H.
Qed.

(** *** The total size *)

Lemma sum_lengths_app (a b : list (cstr * Z * Z)) :
  sum_lengths (a ++ b) = sum_lengths a + sum_lengths b.
Proof.
  induction a as [|x a IH]; [reflexivity|].
  unfold sum_lengths in *. cbn [app fold_right]. rewrite IH. lia.
Qed.

Lemma accepted_lines_cons (o : os) (base : cstr) (b : list byte)
  (bufs : list (list byte)) :
  line_path base b <> Undefined ->
  accepted_lines o base (b :: bufs) =
  accepted_lines o base [b] ++ accepted_lines o base bufs.
Proof.
  intros H. cbn [accepted_lines].
  destruct (line_path base b) as [|tpath]; [contradiction H; reflexivity|].
  destruct (fst (try_parse_line_offsets o tpath)); reflexivity.
Qed.

Lemma accepted_lines_lengths (o : os) (base : cstr) (bufs : list (list byte)) :
  Forall (fun seg => 0 <= snd (fst seg) /\ 1 <= snd seg)
    (accepted_lines o base bufs).
Proof.
  induction bufs as [|b bufs IH]; cbn [accepted_lines]; [constructor|].
  destruct (line_path base b) as [|tpath]; [constructor|].
  destruct (try_parse_line_offsets o tpath) as [[[[p s] l]|] o1] eqn:E;
    cbn [fst]; [|exact IH].
  constructor; [|exact IH].
  pose proof (try_parse_line_offsets_bounds _ _ _ _ _ _ E). cbn [fst snd]. lia.
Qed.

Lemma sum_lengths_nonneg (o : os) (base : cstr) (bufs : list (list byte)) :
  0 <= sum_lengths (accepted_lines o base bufs).
Proof.
  pose proof (accepted_lines_lengths o base bufs) as H.
  induction H as [|seg segs [_ Hl] _ IH]; [reflexivity|].
  unfold sum_lengths in *. cbn [fold_right]. lia.
Qed.

(** One line adds the length of its segment when it is accepted, and
    nothing otherwise, whether or not backing files are opened. *)
Lemma parse_line_size (fd : Z) (base : cstr) (o : os) (cf : concat_file)
  (b : list byte) (st : os * concat_file) :
  parse_line fd base (o, cf) b = Ret st ->
  same_files o (fst st) /\
  cf_fsize (snd st) = cf_fsize cf + sum_lengths (accepted_lines o base [b]) /\
  cf_refcount (snd st) = cf_refcount cf /\
  line_path base b <> Undefined /\
  (- OFF_T_MAX - 1 <= cf_fsize cf <= OFF_T_MAX ->
   - OFF_T_MAX - 1 <= cf_fsize (snd st) <= OFF_T_MAX).
Proof.
  unfold parse_line. cbn [accepted_lines].
  destruct (line_path base b) as [|tpath]; cbn [run_bind]; [discriminate|].
  pose proof (try_parse_line_offsets_frame o tpath) as [F1 _].
  destruct (try_parse_line_offsets o tpath) as [[[[p s] l]|] o1];
    cbn [fst snd] in *.
  - destruct (add_size cf l) as [|cf1] eqn:Ea; cbn [run_bind]; [discriminate|].
    apply add_size_ret in Ea. destruct Ea as [Hfit ->].
    pose proof (sys_open_files o1 p O_RDONLY) as K.
    destruct (fd >=? 0); [destruct (sys_open o1 p O_RDONLY) as [d o2]|];
      intros E; injection E as <-; unfold sum_lengths;
      cbn [fst snd add_chunk cf_fsize cf_refcount fold_right] in *;
      (split; [|split; [lia|split; [reflexivity|split; [discriminate|lia]]]]).
    + eapply same_files_trans; eassumption.
    + exact F1.
  - intros E; injection E as <-. unfold sum_lengths. cbn [fst snd fold_right].
    split; [exact F1|]. split; [lia|]. split; [reflexivity|].
    split; [discriminate|auto].
Qed.

Lemma parse_lines_size (fd : Z) (base : cstr) (bufs : list (list byte))
  (o : os) (cf : concat_file) (st : os * concat_file) :
  parse_lines fd base (o, cf) bufs = Ret st ->
  same_files o (fst st) /\
  cf_fsize (snd st) = cf_fsize cf + sum_lengths (accepted_lines o base bufs) /\
  cf_refcount (snd st) = cf_refcount cf /\
  (- OFF_T_MAX - 1 <= cf_fsize cf <= OFF_T_MAX ->
   - OFF_T_MAX - 1 <= cf_fsize (snd st) <= OFF_T_MAX).
Proof.
  revert o cf. induction bufs as [|b bufs IH]; intros o cf; cbn [parse_lines].
  - intros E; injection E as <-. unfold sum_lengths.
    cbn [fst snd accepted_lines fold_right].
    split; [apply same_files_refl|]. split; [lia|]. split; [reflexivity|auto].
  - destruct (parse_line fd base (o, cf) b) as [|[o1 cf1]] eqn:E1;
      cbn [run_bind]; [discriminate|].
    intros E. destruct (parse_line_size _ _ _ _ _ _ E1) as [F1 [S1 [R1 [D1 B1]]]].
    destruct (IH _ _ E) as [F2 [S2 [R2 B2]]]. cbn [fst snd] in *.
    rewrite (accepted_lines_cons o base b bufs D1), sum_lengths_app.
    rewrite (accepted_lines_same o o1 base bufs F1).
    split; [eapply same_files_trans; eassumption|]. split; [lia|].
    split; [congruence | auto].
Qed.

(** The total size of a parsed object is the sum of the lengths of the
    accepted lines of the text its stream delivers. *)
Lemma open_concat_file_size (o : os) (fd : Z) (path : cstr) (sfd : Z)
  (text : list byte) (o1 : os) (cf : concat_file) (o2 : os) :
  open_stream o fd path = (Some (sfd, text), o1) ->
  open_concat_file o fd path = Ret (Some cf, o2) ->
  cf_fsize cf =
    sum_lengths (accepted_lines o (dirname path) (read_lines (length text) text)) /\
  cf_refcount cf = 1 /\ cf_fsize cf <= OFF_T_MAX.
Proof.
  intros Es. unfold open_concat_file. rewrite Es.
  destruct (open_stream_opens _ _ _ _ _ _ Es) as [Sa _].
  unfold strncpy. destruct (_ <? _)%nat; cbn [run_bind]; [|discriminate].
  destruct (parse_lines fd (dirname path) (o1, mk_concat_file [] fd 0 1)
              (read_lines (length text) text)) as [|st] eqn:Ep;
    cbn [run_bind]; [discriminate|].
  destruct (parse_lines_size _ _ _ _ _ _ Ep) as [_ [Hs [Hr Hb]]].
  destruct (sys_close (fst st) sfd). intros E; injection E as <- _.
  cbn [cf_fsize cf_refcount] in Hs, Hr, Hb.
  rewrite (accepted_lines_same o o1 _ _ Sa). split; [lia|].
  split; [exact Hr|]. apply Hb. unfold OFF_T_MAX. lia.
Qed.

(** *** Where the parser has no defined behaviour *)

(** One iteration: the store before the buffer when the line starts with
    a NUL byte, the sum when the total leaves [off_t]. *)
Lemma parse_line_undefined (fd : Z) (base : cstr) (o : os) (cf : concat_file)
  (b : list byte) :
  (length b <= PATH_MAX)%nat ->
  0 <= cf_fsize cf <= OFF_T_MAX ->
  (parse_line fd base (o, cf) b = Undefined <->
   c_str b = [] \/
   OFF_T_MAX < cf_fsize cf + sum_lengths (accepted_lines o base [b])).
Proof.
  intros Hl Hc. pose proof (line_path_undefined base b Hl) as Hp.
  pose proof (accepted_lines_lengths o base [b]) as Hpos.
  unfold parse_line. cbn [accepted_lines] in *.
  destruct (line_path base b) as [|tpath]; cbn [run_bind].
  { split; [intros _; left; apply Hp; reflexivity | reflexivity]. }
  assert (Hne : c_str b <> []).
  { intros E. apply Hp in E. discriminate. }
  destruct (try_parse_line_offsets o tpath) as [[[[p s] l]|] o1];
    cbn [fst snd] in *; unfold sum_lengths in *; cbn [fold_right snd] in *.
  - inversion Hpos as [|? ? [_ Hl1] _]; subst. cbn [fst snd] in Hl1.
    pose proof (add_size_undefined cf l ltac:(lia) ltac:(lia)) as Hu.
    destruct (add_size cf l) as [|cf1]; cbn [run_bind].
    + split; [intros _; right|reflexivity].
      pose proof (proj1 Hu eq_refl). lia.
    + split.
      * destruct (fd >=? 0); [destruct (sys_open o1 p O_RDONLY)|]; discriminate.
      * intros [E|E]; [contradiction|].
        assert (OFF_T_MAX < cf_fsize cf + l) by lia.
        apply Hu in H. discriminate.
  - split; [discriminate|]. intros [E|E]; [contradiction | lia].
Qed.

Lemma parse_lines_undefined (fd : Z) (base : cstr) (bufs : list (list byte))
  (o : os) (cf : concat_file) :
  Forall (fun b => (length b <= PATH_MAX)%nat) bufs ->
  0 <= cf_fsize cf <= OFF_T_MAX ->
  (parse_lines fd base (o, cf) bufs = Undefined <->
   Exists (fun b => c_str b = []) bufs \/
   OFF_T_MAX < cf_fsize cf + sum_lengths (accepted_lines o base bufs)).
Proof.
  intros Hall. revert o cf.
  induction Hall as [|b bufs Hb Hall IH]; intros o cf Hc; cbn [parse_lines].
  - unfold sum_lengths. cbn [accepted_lines fold_right].
    split; [discriminate|]. intros [H|H]; [inversion H | lia].
  - pose proof (parse_line_undefined fd base o cf b Hb Hc) as Hu.
    pose proof (sum_lengths_nonneg o base bufs) as Hn.
    destruct (parse_line fd base (o, cf) b) as [|[o1 cf1]] eqn:E1;
      cbn [run_bind].
    + split; [intros _|reflexivity].
      destruct (proj1 Hu eq_refl) as [H|H]; [left; left; exact H|].
      destruct (line_path base b) as [|tpath] eqn:Ep.
      * left. left. apply (line_path_undefined base b Hb). exact Ep.
      * right. rewrite accepted_lines_cons, sum_lengths_app by congruence. lia.
    + destruct (parse_line_size _ _ _ _ _ _ E1) as [F1 [S1 [_ [D1 B1]]]].
      cbn [fst snd] in *.
      assert (Hc1 : 0 <= cf_fsize cf1 <= OFF_T_MAX).
      { pose proof (sum_lengths_nonneg o base [b]).
        assert (- OFF_T_MAX - 1 <= cf_fsize cf1 <= OFF_T_MAX)
          by (apply B1; unfold OFF_T_MAX in *; lia).
        lia. }
      rewrite (IH o1 cf1 Hc1).
      rewrite (accepted_lines_cons o base b bufs D1), sum_lengths_app.
      rewrite <- (accepted_lines_same o o1 base bufs F1), S1.
      assert (Hne : c_str b <> []).
      { intros E. apply (line_path_undefined base b Hb) in E. contradiction. }
      split; (intros [H|H]; [left|right; lia]).
      * right. exact H.
      * inversion H; subst; [contradiction | assumption].
Qed.

Lemma open_concat_file_undefined (o : os) (fd : Z) (path : cstr) (sfd : Z)
  (text : list byte) (o1 : os) :
  (length path <= PATH_MAX)%nat ->
  open_stream o fd path = (Some (sfd, text), o1) ->
  (open_concat_file o fd path = Undefined <->
   Exists (fun b => c_str b = []) (read_lines (length text) text) \/
   OFF_T_MAX <
     sum_lengths
       (accepted_lines o (dirname path) (read_lines (length text) text))).
Proof.
  intros Hl Es. unfold open_concat_file. rewrite Es.
  destruct (open_stream_opens _ _ _ _ _ _ Es) as [Sa _].
  rewrite strncpy_fits by (unfold PATH_MAX in *; lia). cbn [run_bind].
  rewrite (accepted_lines_same o o1 _ _ Sa).
  pose proof (parse_lines_undefined fd (dirname path)
                (read_lines (length text) text) o1 (mk_concat_file [] fd 0 1)
                (read_lines_lengths _ _)) as Hu.
  cbn [cf_fsize] in Hu. rewrite <- Hu by (unfold OFF_T_MAX; lia).
  destruct (parse_lines fd (dirname path) (o1, mk_concat_file [] fd 0 1)
              (read_lines (length text) text)) as [|st]; cbn [run_bind];
    [split; reflexivity|].
  destruct (sys_close (fst st) sfd). split; discriminate.
Qed.

(** X8.  Where the parser has no defined behaviour.  Once the stream is open,
    for a path of at most [PATH_MAX] characters, [open_concat_file] is
    undefined exactly when one of the buffers [fgets] delivers starts with
    a NUL byte, or the lengths of the accepted lines sum to more than
    [OFF_T_MAX] (the total [rv->fsize] is a signed sum).  On a description
    without NUL bytes whose accepted lengths sum to at most [OFF_T_MAX], it
    returns an object. *)
Theorem parser_undefined_on_nul_line_or_overflow (o : os) (fd : Z)
  (path : cstr) (sfd : Z) (text : list byte) (o1 : os) :
  (length path <= PATH_MAX)%nat ->
  open_stream o fd path = (Some (sfd, text), o1) ->
  (open_concat_file o fd path = Undefined <->
   Exists (fun b => c_str b = []) (read_lines (length text) text) \/
   OFF_T_MAX <
     sum_lengths
       (accepted_lines o (dirname path) (read_lines (length text) text))) /\
  (~ In NUL text ->
   sum_lengths
     (accepted_lines o (dirname path) (read_lines (length text) text))
     <= OFF_T_MAX ->
   exists cf o2, open_concat_file o fd path = Ret (Some cf, o2)).
Proof.
  intros Hl Es.
  pose proof (open_concat_file_undefined o fd path sfd text o1 Hl Es) as Hu.
  split; [exact Hu|]. intros Hn Hfit.
  destruct (open_concat_file o fd path) as [|[[cf|] o2]] eqn:E.
  - exfalso. destruct (proj1 Hu eq_refl) as [H|H]; [|lia].
    exact (text_lines_defined (length text) text Hn H).
  - eauto.
  - exfalso. unfold open_concat_file in E. rewrite Es in E.
    destruct (strncpy (PATH_MAX + 1) path); cbn [run_bind] in E; [discriminate|].
    destruct (parse_lines _ _ _ _); cbn [run_bind] in E; [discriminate|].
    destruct (sys_close _ _). discriminate.
Qed.

Lemma parser_undefined_on_nul_line_or_overflow_witness :
  (open_concat_file (opened [NUL; LF]) 3 desc_path = Undefined <->
   Exists (fun b => c_str b = [])
     (read_lines (length [NUL; LF]) [NUL; LF]) \/
   OFF_T_MAX <
     sum_lengths
       (accepted_lines (opened [NUL; LF]) (dirname desc_path)
          (read_lines (length [NUL; LF]) [NUL; LF]))) /\
  (~ In NUL [NUL; LF] ->
   sum_lengths
     (accepted_lines (opened [NUL; LF]) (dirname desc_path)
        (read_lines (length [NUL; LF]) [NUL; LF]))
     <= OFF_T_MAX ->
   exists cf o2,
     open_concat_file (opened [NUL; LF]) 3 desc_path = Ret (Some cf, o2)).
Proof.
  apply (parser_undefined_on_nul_line_or_overflow (opened [NUL; LF]) 3
           desc_path 4 [NUL; LF]
           (snd (open_stream (opened [NUL; LF]) 3 desc_path))).
  - unfold PATH_MAX. simpl. lia.
  - vm_compute. reflexivity.
Defined.

(** A description that names h once has a total of 2^62 bytes; one that
    names it twice has a total [off_t] cannot hold, and neither the
    size-only parse nor the open has a defined behaviour. *)
Lemma total_overflow_example :
  (r <- get_concat_file_size (huge_os (lines ["h"%string])) desc_path ;;
   Ret (fst r)) = Ret (2 ^ 62) /\
  get_concat_file_size (huge_os (lines ["h"; "h"]%string)) desc_path
    = Undefined /\
  concatfs_open (str "/s") (huge_os (lines ["h"; "h"]%string)) []
    (str "/m-concat-x") O_RDONLY = Undefined.
Proof. repeat split; vm_compute; reflexivity. Qed.

(** A description whose first line starts with a NUL byte: the open has
    no defined behaviour. *)
Lemma nul_line_example :
  concatfs_open (str "/s") (sample_os [NUL; LF]) [] (str "/m-concat-x") O_RDONLY
  = Undefined.
Proof. vm_compute. reflexivity. Qed.

(** X5.  Every object a full parse returns (the parse has no defined
    behaviour when the running total, a signed sum, passes [OFF_T_MAX]):
    it carries the descriptor it was parsed through and a reference count
    of 1; every chunk has a start of 0 or more and a size between 1 and
    [OFF_T_MAX]; the total size is the sum of the chunk sizes, which is at
    least the number of chunks and at most [OFF_T_MAX]. *)
Theorem parsed_object_invariant (o : os) (fd : Z) (path : cstr)
  (cf : concat_file) (o1 : os) :
  0 <= fd ->
  open_concat_file o fd path = Ret (Some cf, o1) ->
  cf_fd cf = fd /\ cf_refcount cf = 1 /\
  Forall chunk_wf (cf_chunks cf) /\
  cf_fsize cf = sum_sizes (cf_chunks cf) /\
  Z.of_nat (length (cf_chunks cf)) <= cf_fsize cf <= OFF_T_MAX.
Proof.
  intros Hfd E.
  destruct (open_concat_file_wf _ _ _ _ _ Hfd E) as [[Hwf Hsum] Hcf].
  destruct (open_stream o fd path) as [[[sfd text]|] oa] eqn:Es.
  2:{ unfold open_concat_file in E. rewrite Es in E. discriminate. }
  destruct (open_concat_file_size _ _ _ _ _ _ _ _ Es E) as [_ [Hrc Hmax]].
  split; [exact Hcf|]. split; [exact Hrc|].
  split; [exact Hwf|]. split; [exact Hsum|]. split; [|exact Hmax].
  rewrite Hsum.
  clear -Hwf. induction Hwf as [|c cs [_ Hc] _ IH]; [reflexivity|].
  rewrite sum_sizes_cons. cbn [length]. lia.
Qed.

Lemma parsed_object_invariant_witness :
  cf_fd abc_object = 3 /\ cf_refcount abc_object = 1 /\
  Forall chunk_wf (cf_chunks abc_object) /\
  cf_fsize abc_object = sum_sizes (cf_chunks abc_object) /\
  Z.of_nat (length (cf_chunks abc_object)) <= cf_fsize abc_object
    <= OFF_T_MAX.
Proof.
  apply (parsed_object_invariant (opened abc) 3 desc_path abc_object abc_served).
  - lia.
  - vm_compute. reflexivity.
Defined.

Lemma Forall2_serves_sizes (o : os) (cs : list chunk)
  (segs : list (cstr * Z * Z)) :
  Forall2 (serves o) cs segs -> sum_sizes cs = sum_lengths segs.
Proof.
  induction 1 as [|c seg cs segs [_ [H _]] _ IH]; [reflexivity|].
  rewrite sum_sizes_cons. unfold sum_lengths in *. cbn [fold_right]. lia.
Qed.

(** X4.  The chunks of the object a full parse builds are the accepted lines
    of the description, in order: each chunk has the start and the length
    of its line, and its descriptor is -1 (the open failed) or is open
    read-only, in the system the parse leaves, on the file the path of
    its line names.  No chunk descriptor was in use before the parse. *)
Theorem chunks_follow_description (o : os) (fd : Z) (path : cstr) (f : ofile)
  (cf : concat_file) (o1 : os) :
  0 <= fd -> fd_lookup o fd = Some f ->
  open_concat_file o fd path = Ret (Some cf, o1) ->
  Forall2 (serves o1) (cf_chunks cf)
    (accepted_lines o (dirname path)
       (read_lines (length (stream_text f)) (stream_text f))) /\
  Forall (fun c => fd_lookup o (c_fd c) = None) (cf_chunks cf).
Proof.
  intros Hfd Hl E. split.
  - destruct (open_concat_file_binds _ _ _ _ _ _ Hfd Hl E) as [sfd Hb].
    eapply Forall2_impl; [|exact Hb].
    intros c seg [H1 [H2 [_ H4]]]. repeat split; assumption.
  - destruct (open_concat_file_opens _ _ _ _ _ E) as [_ [Hin _]].
    apply Forall_forall. intros c Hc. apply Hin. unfold chunk_fds.
    apply in_map. exact Hc.
Qed.

Lemma chunks_follow_description_witness :
  Forall2 (serves abc_served) (cf_chunks abc_object)
    (accepted_lines (opened abc) (dirname desc_path)
       (read_lines
          (length (stream_text (mk_ofile (Regular abc true true) O_RDONLY 0)))
          (stream_text (mk_ofile (Regular abc true true) O_RDONLY 0)))) /\
  Forall (fun c => fd_lookup (opened abc) (c_fd c) = None) (cf_chunks abc_object).
Proof.
  apply (chunks_follow_description (opened abc) 3 desc_path
           (mk_ofile (Regular abc true true) O_RDONLY 0) abc_object abc_served).
  - lia.
  - vm_compute. reflexivity.
  - vm_compute. reflexivity.
Defined.

(** *** The size-only parse *)

Lemma open_concat_file_not_null (o : os) (fd : Z) (path : cstr) (sfd : Z)
  (text : list byte) (o1 o2 : os) :
  open_stream o fd path = (Some (sfd, text), o1) ->
  open_concat_file o fd path <> Ret (None, o2).
Proof.
  intros Es. unfold open_concat_file. rewrite Es.
  destruct (strncpy (PATH_MAX + 1) path); cbn [run_bind]; [discriminate|].
  destruct (parse_lines _ _ _ _); cbn [run_bind]; [discriminate|].
  destruct (sys_close _ _). discriminate.
Qed.

Lemma open_concat_file_size_only (o : os) (fd : Z) (path : cstr)
  (cf : concat_file) (o1 : os) :
  fd < 0 ->
  open_concat_file o fd path = Ret (Some cf, o1) ->
  cf_chunks cf = [] /\ cf_fd cf = fd.
Proof.
  intros Hfd. unfold open_concat_file.
  destruct (open_stream o fd path) as [[[sfd text]|] oa]; [|discriminate].
  destruct (strncpy (PATH_MAX + 1) path) as [|bpath]; cbn [run_bind];
    [discriminate|].
  destruct (parse_lines fd (dirname bpath) (oa, mk_concat_file [] fd 0 1)
              (read_lines (length text) text)) as [|st] eqn:Ep;
    cbn [run_bind]; [discriminate|].
  destruct (parse_lines_size_only_frame fd _ _ _ _ Hfd Ep) as [_ [_ [Hc Hf]]].
  destruct (sys_close (fst st) sfd). intros E; injection E as <- _.
  split; assumption.
Qed.

(** A stream that cannot be opened leaves no descriptor behind. *)
Lemma open_stream_none (o : os) (path : cstr) (o1 : os) :
  open_stream o (-1) path = (None, o1) ->
  same_files o o1 /\ forall d, fd_lookup o1 d = fd_lookup o d.
Proof.
  unfold open_stream. cbn [Z.geb Z.compare]. unfold fopen_r, sys_open.
  destruct (namei o path) as [e|nd].
  { cbn. intros E; injection E as <-. split; [split|]; reflexivity. }
  destruct (permits nd O_RDONLY).
  { cbn. intros E; injection E as <-. split; [split|]; reflexivity. }
  destruct (install o (mk_ofile nd O_RDONLY 0)) as [d oa] eqn:Ei.
  destruct (Z.ltb_spec d 0) as [Hd|Hd].
  - intros E; injection E as <-. unfold install in Ei.
    destruct (_ <? _)%nat; injection Ei as <- <-; [lia|].
    split; [split|]; reflexivity.
  - destruct (install_some _ _ _ _ Ei Hd) as [_ [_ [_ Hl]]].
    unfold fdopen_r. rewrite Hl. cbn [of_acc]. discriminate.
Qed.

Lemma get_concat_file_size_spec (o : os) (path : cstr) (n : Z) (o' : os) :
  get_concat_file_size o path = Ret (n, o') ->
  same_files o o' /\
  (forall d, fd_lookup o' d = fd_lookup o d) /\
  n = match fst (open_stream o (-1) path) with
      | Some _ =>
          sum_lengths
            (accepted_lines o (dirname path) (description_lines o path))
      | None => 0
      end /\
  n <= OFF_T_MAX.
Proof.
  unfold get_concat_file_size.
  destruct (open_concat_file o (-1) path) as [|[[cf|] o1]] eqn:E;
    cbv beta iota delta [run_bind fst snd]; [discriminate| |]; intros H.
  - assert (Hn : n = cf_fsize cf) by congruence.
    assert (Ho : o' = close_concat_file o1 (Some cf)) by congruence.
    clear H. subst n o'.
    destruct (open_stream o (-1) path) as [[[sfd text]|] oa] eqn:Es.
    2:{ unfold open_concat_file in E. rewrite Es in E. discriminate. }
    destruct (open_concat_file_size _ _ _ _ _ _ _ _ Es E) as [Hsz [_ Hmax]].
    destruct (open_stream_path o (-1) path sfd text oa ltac:(lia) Es)
      as [nd [Hn [Ht _]]].
    destruct (open_concat_file_size_only o (-1) path cf o1 ltac:(lia) E)
      as [Hc Hf].
    destruct (open_concat_file_opens _ _ _ _ _ E) as [S1 [_ Hout]].
    split; [|split; [|split]].
    + eapply same_files_trans; [exact S1 | apply close_concat_file_files].
    + intros d. rewrite close_concat_file_lookup.
      unfold owned, chunk_fds, mem_fd. rewrite Hc, Hf. cbn [map existsb].
      destruct (Z.eqb_spec d (-1)) as [->|Hne]; cbn [orb]; [reflexivity|].
      apply Hout. unfold chunk_fds. rewrite Hc. intros [].
    + cbn [fst]. unfold description_lines. rewrite Hn, <- Ht. exact Hsz.
    + exact Hmax.
  - injection H as <- <-.
    destruct (open_stream o (-1) path) as [[[sfd text]|] oa] eqn:Es.
    { exfalso. exact (open_concat_file_not_null _ _ _ _ _ _ _ Es E). }
    unfold open_concat_file in E. rewrite Es in E. injection E as <-.
    destruct (open_stream_none _ _ _ Es) as [S1 Hl].
    split; [exact S1|]. split; [exact Hl|]. split; [reflexivity|].
    unfold OFF_T_MAX. lia.
Qed.

(** X7.  When [get_concat_file_size] returns (the sum it computes is a
    signed sum, and leaves the behaviour undefined when it passes
    [OFF_T_MAX]), the value is one [off_t] holds, and it is the sum of the
    lengths of the accepted lines of the description, or 0 when the
    description cannot be opened for reading.  The call leaves the files
    and every descriptor as they were: the one descriptor it opens, that
    of its stream, is closed again. *)
Theorem get_concat_file_size_sums_lines (o : os) (path : cstr) (n : Z)
  (o' : os) :
  get_concat_file_size o path = Ret (n, o') ->
  0 <= n <= OFF_T_MAX /\
  n = match fst (open_stream o (-1) path) with
      | Some _ =>
          sum_lengths
            (accepted_lines o (dirname path) (description_lines o path))
      | None => 0
      end /\
  same_files o o' /\
  (forall d, fd_lookup o' d = fd_lookup o d).
Proof.
  intros E.
  destruct (get_concat_file_size_spec _ _ _ _ E) as [S1 [Hl [Hn Hmax]]].
  split; [|split; [exact Hn | split; assumption]].
  split; [|exact Hmax].
  rewrite Hn. destruct (fst (open_stream o (-1) path)); [|lia].
  apply sum_lengths_nonneg.
Qed.

Lemma get_concat_file_size_sums_lines_witness :
  0 <= 9 <= OFF_T_MAX /\
  9 = match fst (open_stream (sample_os abc) (-1) desc_path) with
      | Some _ =>
          sum_lengths
            (accepted_lines (sample_os abc) (dirname desc_path)
               (description_lines (sample_os abc) desc_path))
      | None => 0
      end /\
  same_files (sample_os abc)
    (close_concat_file
       (os_after (sample_os abc) (open_concat_file (sample_os abc) (-1) desc_path))
       (Some (mk_concat_file [] (-1) 9 1))) /\
  (forall d,
     fd_lookup
       (close_concat_file
          (os_after (sample_os abc)
             (open_concat_file (sample_os abc) (-1) desc_path))
          (Some (mk_concat_file [] (-1) 9 1))) d
     = fd_lookup (sample_os abc) d).
Proof.
  apply (get_concat_file_size_sums_lines (sample_os abc) desc_path).
  vm_compute. reflexivity.
Defined.

(** *** The size [getattr] reports and the object an open registers *)

Lemma snprintf_path_length (a b : cstr) :
  (length (snprintf_path PATH_MAX a b) < PATH_MAX)%nat.
Proof.
  unfold snprintf_path. rewrite length_firstn. unfold PATH_MAX. lia.
Qed.

Lemma sys_open_ok (o : os) (p : cstr) (a : access) (d : Z) (o1 : os) :
  sys_open o p a = (d, o1) -> 0 <= d ->
  exists nd,
    namei o p = inr nd /\ permits nd a = None /\
    (lowest_free (os_fds o) < os_nofile o)%nat /\
    fd_lookup o1 d = Some (mk_ofile nd a 0).
Proof.
  unfold sys_open. destruct (namei o p) as [e|nd];
    [intros E; injection E as <- _; lia|].
  destruct (permits nd a) eqn:Hp; [intros E; injection E as <- _; lia|].
  intros E Hd. exists nd.
  destruct (install_some _ _ _ _ E Hd) as [_ [_ [_ Hl]]].
  split; [reflexivity|]. split; [exact Hp|]. split; [|exact Hl].
  unfold install in E.
  destruct (Nat.ltb_spec (lowest_free (os_fds o)) (os_nofile o)); [assumption|].
  injection E as <- _. lia.
Qed.

Lemma open_stream_readable (o : os) (fd : Z) (path : cstr) (sfd : Z)
  (text : list byte) (o1 : os) (f : ofile) :
  0 <= fd -> fd_lookup o fd = Some f ->
  open_stream o fd path = (Some (sfd, text), o1) ->
  of_acc f <> O_WRONLY.
Proof.
  intros Hfd Hl. unfold open_stream, sys_dup.
  destruct (Z.geb_spec fd 0); [|lia]. rewrite Hl.
  destruct (install o f) as [d o0] eqn:Ei.
  unfold fdopen_r. destruct (Z_lt_le_dec d 0) as [Hd|Hd].
  - rewrite (install_none _ _ _ _ Ei Hd). discriminate.
  - destruct (install_some _ _ _ _ Ei Hd) as [_ [_ [_ Hl1]]]. rewrite Hl1.
    destruct (of_acc f); discriminate.
Qed.

Lemma permits_read (nd : node) (a : access) :
  permits nd a = None -> a <> O_WRONLY -> permits nd O_RDONLY = None.
Proof.
  destruct nd as [d r w|n], a; cbn [permits]; try congruence.
  destruct r; [reflexivity|]. cbn [andb]. discriminate.
Qed.

Lemma fopen_r_ok (o : os) (p : cstr) (nd : node) :
  namei o p = inr nd -> permits nd O_RDONLY = None ->
  (lowest_free (os_fds o) < os_nofile o)%nat ->
  exists sfd ob,
    open_stream o (-1) p =
      (Some (sfd, stream_text (mk_ofile nd O_RDONLY 0)), ob).
Proof.
  intros Hn Hp Hfree. unfold open_stream. cbn [Z.geb Z.compare].
  unfold fopen_r, sys_open. rewrite Hn, Hp.
  destruct (install o (mk_ofile nd O_RDONLY 0)) as [d oa] eqn:Ei.
  assert (Hd : 0 <= d).
  { unfold install in Ei.
    destruct (Nat.ltb_spec (lowest_free (os_fds o)) (os_nofile o)); [|lia].
    injection Ei as <- _. lia. }
  destruct (Z.ltb_spec d 0); [lia|].
  destruct (install_some _ _ _ _ Ei Hd) as [_ [_ [_ Hl]]].
  unfold fdopen_r. rewrite Hl. cbn [of_acc]. eauto.
Qed.

(** X3.  For a virtual path that [concatfs_open] can open, [concatfs_getattr]
    in the same system reports as size the total size of the object the
    open registers (given that [lstat] can represent the size of the
    description file itself). *)
Theorem getattr_reports_size_served (src_dir : cstr) (o : os) (reg : registry)
  (path : cstr) (flags : access) (r : open_result) (fh sz : Z) :
  concatfs_open src_dir o reg path flags = Ret r ->
  or_fh r = Some fh ->
  is_concatfs_file path = Ret true ->
  fst (sys_stat o (snprintf_path PATH_MAX src_dir path)) = Some sz ->
  exists cf o',
    or_reg r = cf :: reg /\
    concatfs_getattr src_dir o path = Ret (0, Some (cf_fsize cf), o').
Proof.
  intros Ho Hfh Hv Hst. unfold concatfs_open in Ho.
  pose proof (snprintf_path_length src_dir path) as Hlen.
  pose proof (sys_open_files o (snprintf_path PATH_MAX src_dir path) flags) as S1.
  unfold concatfs_getattr.
  set (fpath := snprintf_path PATH_MAX src_dir path) in *.
  destruct (sys_open o fpath flags) as [fd o1] eqn:Eo. cbn [snd] in S1.
  destruct (Z.ltb_spec fd 0) as [Hneg|Hnn].
  { injection Ho as <-. discriminate. }
  rewrite Hv in Ho. cbn [run_bind] in Ho.
  destruct (open_concat_file o1 fd fpath) as [|[[cf|] o2]] eqn:Ep;
    cbn [run_bind fst snd open_files_push_front] in Ho; try discriminate.
  injection Ho as <-. cbn [or_reg]. clear Hfh.
  destruct (sys_open_ok _ _ _ _ _ Eo Hnn) as [nd [Hn [Hp [Hfree Hl]]]].
  (* the stream of the full parse *)
  destruct (open_stream o1 fd fpath) as [[[sfd text]|] oa] eqn:Es.
  2:{ unfold open_concat_file in Ep. rewrite Es in Ep. discriminate. }
  destruct (open_stream_fd _ _ _ _ _ _ _ Hnn Hl Es) as [Ht _].
  pose proof (open_stream_readable _ _ _ _ _ _ _ Hnn Hl Es) as Hacc.
  cbn [of_acc] in Hacc.
  destruct (open_concat_file_size _ _ _ _ _ _ _ _ Es Ep) as [Hsz _].
  assert (Hdef : ~ (Exists (fun b => c_str b = [])
                      (read_lines (length text) text) \/
                    OFF_T_MAX <
                      sum_lengths
                        (accepted_lines o (dirname fpath)
                           (read_lines (length text) text)))).
  { intros He. rewrite (accepted_lines_same o o1 _ _ S1) in He.
    apply (open_concat_file_undefined o1 fd fpath sfd text oa) in He;
      [congruence | lia | exact Es]. }
  (* the stream of the size-only parse *)
  destruct (fopen_r_ok o fpath nd Hn (permits_read _ _ Hp Hacc) Hfree)
    as [sfd2 [ob Es2]].
  assert (Etext : stream_text (mk_ofile nd O_RDONLY 0) = text)
    by (rewrite Ht; reflexivity).
  rewrite Etext in Es2.
  destruct (open_concat_file o (-1) fpath) as [|[[cf2|] o3]] eqn:Ep2.
  - exfalso. apply Hdef.
    apply (open_concat_file_undefined o (-1) fpath sfd2 text ob);
      [lia | exact Es2 | exact Ep2].
  - destruct (open_concat_file_size _ _ _ _ _ _ _ _ Es2 Ep2) as [Hsz2 _].
    destruct (sys_stat o fpath) as [[size|] os1] eqn:Est; [|discriminate].
    destruct (sys_stat_some _ _ _ _ Est) as [-> _].
    rewrite Hv. cbn [run_bind]. unfold get_concat_file_size. rewrite Ep2.
    cbv beta iota delta [run_bind fst snd].
    exists cf. eexists. split; [reflexivity|].
    rewrite Hsz, Hsz2, (accepted_lines_same o o1 _ _ S1). reflexivity.
  - exfalso. exact (open_concat_file_not_null _ _ _ _ _ _ _ Es2 Ep2).
Qed.

Lemma getattr_reports_size_served_witness :
  exists cf o',
    [abc_object] = cf :: [] /\
    concatfs_getattr (str "/s") (sample_os abc) (str "/m-concat-x")
    = Ret (0, Some (cf_fsize cf), o').
Proof.
  apply (getattr_reports_size_served (str "/s") (sample_os abc) []
           (str "/m-concat-x") O_RDONLY
           (mk_open_result 0 (Some 3) abc_served [abc_object]) 3 6).
  - vm_compute. reflexivity.
  - reflexivity.
  - vm_compute. reflexivity.
  - vm_compute. reflexivity.
Defined.

(** ** The segmented read: what it asks of the system *)

Lemma same_but_errno_refl (o : os) : same_but_errno o o.
Proof. repeat split. Qed.

Lemma same_but_errno_trans (a b c : os) :
  same_but_errno a b -> same_but_errno b c -> same_but_errno a c.
Proof.
  intros [A1 [A2 [A3 [A4 A5]]]] [B1 [B2 [B3 [B4 B5]]]].
  repeat split; congruence.
Qed.

(** A positional read changes nothing but [errno], and nothing at all
    when it succeeds. *)
Lemma sys_pread_frame (o : os) (fd n off : Z) :
  same_but_errno o (snd (sys_pread o fd n off)) /\
  (0 <= fst (fst (sys_pread o fd n off)) -> snd (sys_pread o fd n off) = o).
Proof.
  unfold sys_pread.
  destruct (fd_lookup o fd) as [f|]; [|split; [repeat split | cbn; lia]].
  destruct (of_acc f); try (split; [repeat split | cbn; lia]);
    (destruct (off <? 0); [split; [repeat split | cbn; lia]|]);
    (destruct (of_node f); [|split; [repeat split | cbn; lia]]);
    (destruct (os_io o fd n off);
       cbn [fst snd]; (split; [repeat split | first [reflexivity | lia]])).
Qed.

Lemma read_last_frame (o : os) (c : chunk) (count offset bytes_read : Z) :
  same_but_errno o (rr_os (read_last o c count offset bytes_read)) /\
  (Forall (fun call => 0 <= pc_rv call)
     (rr_trace (read_last o c count offset bytes_read)) ->
   rr_os (read_last o c count offset bytes_read) = o).
Proof.
  unfold read_last. destruct (count >? 0); [|split; [repeat split | reflexivity]].
  pose proof (sys_pread_frame o (c_fd c) count (offset + c_startOffset c)) as [F1 F2].
  destruct (sys_pread o (c_fd c) count (offset + c_startOffset c))
    as [[rv got] o1]. cbn [fst snd] in *.
  destruct (rv <? 0); cbn [rr_os rr_trace]; (split; [exact F1|]);
    intros H; inversion H as [|? ? H0 _]; subst; apply F2; exact H0.
Qed.

Lemma read_chunks_frame (cs : list chunk) :
  forall o count offset bytes_read,
    same_but_errno o (rr_os (read_chunks o cs count offset bytes_read)) /\
    (Forall (fun call => 0 <= pc_rv call)
       (rr_trace (read_chunks o cs count offset bytes_read)) ->
     rr_os (read_chunks o cs count offset bytes_read) = o).
Proof.
  induction cs as [|c cs IH]; intros o count offset bytes_read;
    cbn [read_chunks].
  - cbn [rr_os rr_trace]. split; [repeat split | reflexivity].
  - destruct (count >? to_size_t (c_fsize c - offset)); [|apply read_last_frame].
    pose proof (sys_pread_frame o (c_fd c) (to_size_t (c_fsize c - offset))
                  (offset + c_startOffset c)) as [F1 F2].
    destruct (sys_pread o (c_fd c) (to_size_t (c_fsize c - offset))
                (offset + c_startOffset c)) as [[rv got] o1].
    cbn [fst snd] in *.
    destruct (rv =? c_fsize c - offset).
    + cbn [after_call rr_os rr_trace].
      destruct (IH o1 (to_size_t (count - rv)) 0 (bytes_read + rv)) as [G1 G2].
      split; [eapply same_but_errno_trans; eassumption|].
      intros H. inversion H as [|? ? H0 Hrest]; subst.
      cbn [pc_rv] in H0. rewrite (G2 Hrest). apply F2. exact H0.
    + destruct (rv >? 0); cbn [rr_os rr_trace]; (split; [exact F1|]);
        intros H; inversion H as [|? ? H0 _]; subst; apply F2; exact H0.
Qed.

(** X10.  A read opens and closes nothing and touches no file: the system
    after it differs from the one before at most in [errno], and not at
    all when no positional read failed. *)
Theorem read_leaves_system (reg : registry) (o : os) (fd count offset : Z) :
  same_but_errno o (rr_os (read_concat_file reg o fd count offset)) /\
  (Forall (fun call => 0 <= pc_rv call)
     (rr_trace (read_concat_file reg o fd count offset)) ->
   rr_os (read_concat_file reg o fd count offset) = o).
Proof.
  unfold read_concat_file.
  destruct (open_files_find reg fd) as [cf|];
    [|split; [apply same_but_errno_refl | reflexivity]].
  destruct (offset >? cf_fsize cf);
    [split; [apply same_but_errno_refl | reflexivity]|].
  destruct (skip_chunks (cf_chunks cf) offset) as [cs off].
  cbn [rr_os rr_trace]. apply read_chunks_frame.
Qed.

(** *** Windows *)

Lemma sum_count_cons (c : pread_call) (t : list pread_call) :
  sum_count (c :: t) = pc_count c + sum_count t.
Proof. reflexivity. Qed.

Lemma read_chunks_windows (cs : list chunk) :
  Forall chunk_wf cs ->
  forall o count offset bytes_read,
    0 <= offset -> 0 <= count < 2 ^ 64 ->
    match cs with
    | c :: _ => offset <= c_fsize c
    | [] => True
    end ->
    Forall (fun call => Exists (fun c => in_window c call) cs)
      (rr_trace (read_chunks o cs count offset bytes_read)) /\
    sum_count (rr_trace (read_chunks o cs count offset bytes_read)) <= count /\
    Z.of_nat (length (rr_buf (read_chunks o cs count offset bytes_read)))
      <= sum_count (rr_trace (read_chunks o cs count offset bytes_read)).
Proof.
  induction 1 as [|c cs [Hst Hsz] Hwf IH];
    intros o count offset bytes_read Hoff Hcount Hhead.
  - cbn [read_chunks rr_trace rr_buf]. unfold sum_count. cbn [fold_right length].
    split; [constructor | lia].
  - pose proof OFF_T_MAX_fits as Hmax.
    cbn [read_chunks].
    assert (Hwant : to_size_t (c_fsize c - offset) = c_fsize c - offset)
      by (apply to_size_t_small; lia).
    rewrite Hwant.
    destruct (Z.gtb_spec count (c_fsize c - offset)) as [Hgt|Hle].
    + destruct (sys_pread o (c_fd c) (c_fsize c - offset) (offset + c_startOffset c))
        as [[rv got] o1] eqn:Ep.
      assert (Hw : in_window c (mk_call (c_fd c) (c_fsize c - offset)
                                  (offset + c_startOffset c) rv)).
      { unfold in_window. cbn [pc_fd pc_count pc_offset]. lia. }
      destruct (Z.eqb_spec rv (c_fsize c - offset)) as [->|Hne].
      * destruct (sys_pread_ok _ _ _ _ _ _ _ Ep ltac:(lia)) as [_ [Hlen _]].
        assert (Hc2 : to_size_t (count - (c_fsize c - offset))
                      = count - (c_fsize c - offset))
          by (apply to_size_t_small; lia).
        rewrite Hc2.
        destruct (IH o1 (count - (c_fsize c - offset)) 0
                    (bytes_read + (c_fsize c - offset))) as [I1 [I2 I3]];
          try lia.
        { destruct cs as [|c2 cs]; [exact I|].
          inversion Hwf as [|? ? [_ H2] _]; subst. lia. }
        cbn [after_call rr_trace rr_buf]. rewrite sum_count_cons.
        cbn [pc_count]. rewrite length_app. split; [|lia].
        constructor; [left; exact Hw|].
        eapply Forall_impl; [|exact I1]. intros call He. right. exact He.
      * pose proof (sys_pread_range _ _ _ _ _ _ _ Ep ltac:(lia)) as Hr.
        destruct (Z.gtb_spec rv 0) as [Hpos|Hnp]; cbn [rr_trace rr_buf];
          rewrite sum_count_cons; unfold sum_count; cbn [fold_right pc_count length].
        -- destruct (sys_pread_ok _ _ _ _ _ _ _ Ep ltac:(lia)) as [_ [Hlen _]].
           split; [|lia]. constructor; [left; exact Hw | constructor].
        -- split; [|lia]. constructor; [left; exact Hw | constructor].
    + unfold read_last. destruct (Z.gtb_spec count 0) as [Hpos|Hzero].
      * destruct (sys_pread o (c_fd c) count (offset + c_startOffset c))
          as [[rv got] o1] eqn:Ep.
        pose proof (sys_pread_range _ _ _ _ _ _ _ Ep ltac:(lia)) as Hr.
        assert (Hw : in_window c (mk_call (c_fd c) count
                                    (offset + c_startOffset c) rv)).
        { unfold in_window. cbn [pc_fd pc_count pc_offset]. lia. }
        destruct (Z.ltb_spec rv 0) as [Hneg|Hnn]; cbn [rr_trace rr_buf];
          rewrite sum_count_cons; unfold sum_count; cbn [fold_right pc_count length].
        -- split; [|lia]. constructor; [left; exact Hw | constructor].
        -- destruct (sys_pread_ok _ _ _ _ _ _ _ Ep Hnn) as [_ [Hlen _]].
           split; [|lia]. constructor; [left; exact Hw | constructor].
      * cbn [rr_trace rr_buf]. unfold sum_count. cbn [fold_right length].
        split; [constructor | lia].
Qed.

(** X9.  Every positional read [read_concat_file] issues lies within the
    window of a chunk of the object, on that chunk's descriptor; the
    counts it asks for add up to at most [count], and it stores at most
    [count] bytes in the caller's buffer. *)
Theorem reads_stay_within_segments (reg : registry) (o : os)
  (fd count offset : Z) (cf : concat_file) :
  open_files_find reg fd = Some cf -> cf_wf cf ->
  0 <= offset -> 0 <= count < 2 ^ 64 ->
  Forall (fun call => Exists (fun c => in_window c call) (cf_chunks cf))
    (rr_trace (read_concat_file reg o fd count offset)) /\
  sum_count (rr_trace (read_concat_file reg o fd count offset)) <= count /\
  Z.of_nat (length (rr_buf (read_concat_file reg o fd count offset))) <= count.
Proof.
  intros Hf [Hwf Hsum] Hoff Hcount. unfold read_concat_file. rewrite Hf.
  destruct (offset >? cf_fsize cf).
  { cbn [rr_trace rr_buf]. unfold sum_count. cbn [fold_right length].
    split; [constructor | lia]. }
  destruct (skip_chunks_spec (cf_chunks cf) offset Hwf Hoff)
    as [pre [Ecs [_ [Hn [Hwf' Hhead]]]]].
  destruct (skip_chunks (cf_chunks cf) offset) as [cs off].
  cbn [fst snd] in *. cbn [rr_trace rr_buf].
  destruct (read_chunks_windows cs Hwf' o count off 0 Hn Hcount Hhead)
    as [W1 [W2 W3]].
  split; [|lia].
  eapply Forall_impl; [|exact W1]. intros call He. rewrite Ecs.
  apply Exists_app. right. exact He.
Qed.

Lemma abc_object_wf : cf_wf abc_object.
Proof.
  split; [|reflexivity].
  repeat constructor; unfold OFF_T_MAX; cbn; lia.
Qed.

Lemma reads_stay_within_segments_witness :
  Forall (fun call => Exists (fun c => in_window c call) (cf_chunks abc_object))
    (rr_trace (read_concat_file [abc_object] abc_served 3 4 3)) /\
  sum_count (rr_trace (read_concat_file [abc_object] abc_served 3 4 3)) <= 4 /\
  Z.of_nat (length (rr_buf (read_concat_file [abc_object] abc_served 3 4 3))) <= 4.
Proof.
  apply (reads_stay_within_segments [abc_object] abc_served 3 4 3 abc_object).
  - reflexivity.
  - exact abc_object_wf.
  - lia.
  - change (2 ^ 64) with 18446744073709551616. lia.
Defined.

(** *** A read that starts where a segment ends *)

Lemma skip_chunks_boundary (pre : list chunk) (c : chunk) (post : list chunk) :
  Forall chunk_wf (pre ++ [c]) ->
  skip_chunks (pre ++ c :: post) (sum_sizes (pre ++ [c])) = (c :: post, c_fsize c).
Proof.
  induction pre as [|a pre IH]; intros Hwf.
  - cbn [app skip_chunks]. unfold sum_sizes. cbn [fold_right].
    destruct (Z.gtb_spec (c_fsize c + 0) (c_fsize c)); [lia|].
    f_equal. lia.
  - cbn [app] in *. inversion Hwf as [|? ? [_ Ha] Hrest]; subst.
    cbn [skip_chunks]. rewrite sum_sizes_cons.
    assert (1 <= sum_sizes (pre ++ [c])).
    { rewrite sum_sizes_app. apply Forall_app in Hrest. destruct Hrest as [Hi Hc].
      pose proof (sum_sizes_nonneg _ Hi). inversion Hc as [|? ? [_ Hc1] _]; subst.
      unfold sum_sizes at 2. cbn [fold_right]. lia. }
    destruct (Z.gtb_spec (c_fsize a + sum_sizes (pre ++ [c])) (c_fsize a)); [|lia].
    replace (c_fsize a + sum_sizes (pre ++ [c]) - c_fsize a)
      with (sum_sizes (pre ++ [c])) by lia.
    apply IH. exact Hrest.
Qed.

(** X11.  A read of one byte or more that starts exactly where the segment [c]
    ends (at the first byte of the next segment, or at the end of the
    virtual file) begins with a positional read of 0 bytes on the
    descriptor of [c], at the end of its window: both loops of
    [read_concat_file] test [>], not [>=].  When that read fails the call
    stops there and returns the negated [errno], with nothing stored,
    although no byte of [c] was asked for. *)
Theorem boundary_read_probes_previous_segment (reg : registry) (o : os)
  (fd count : Z) (cf : concat_file) (pre : list chunk) (c : chunk)
  (post : list chunk) :
  open_files_find reg fd = Some cf -> cf_wf cf ->
  cf_chunks cf = pre ++ c :: post ->
  0 < count < 2 ^ 64 ->
  exists rest,
    rr_trace (read_concat_file reg o fd count (sum_sizes (pre ++ [c]))) =
      mk_call (c_fd c) 0 (c_fsize c + c_startOffset c)
        (fst (fst (sys_pread o (c_fd c) 0 (c_fsize c + c_startOffset c))))
      :: rest /\
    (fst (fst (sys_pread o (c_fd c) 0 (c_fsize c + c_startOffset c))) <> 0 ->
     rest = [] /\
     rr_buf (read_concat_file reg o fd count (sum_sizes (pre ++ [c]))) = [] /\
     rr_ret (read_concat_file reg o fd count (sum_sizes (pre ++ [c]))) =
       to_int (- os_errno
                   (snd (sys_pread o (c_fd c) 0
                           (c_fsize c + c_startOffset c))))).
Proof.
  intros Hf [Hwf Hsum] Hcs Hcount. unfold read_concat_file. rewrite Hf.
  rewrite Hcs in Hwf.
  assert (Hwf1 : Forall chunk_wf (pre ++ [c])).
  { apply Forall_app in Hwf. destruct Hwf as [H1 H2].
    apply Forall_app. split; [exact H1|].
    inversion H2; subst. constructor; [assumption | constructor]. }
  assert (Hpost : 0 <= sum_sizes post).
  { apply sum_sizes_nonneg. apply Forall_app in Hwf. destruct Hwf as [_ H2].
    inversion H2; subst. assumption. }
  assert (Hle : sum_sizes (pre ++ [c]) <= cf_fsize cf).
  { rewrite Hsum, Hcs, !sum_sizes_app, !sum_sizes_cons.
    change (sum_sizes []) with 0. lia. }
  destruct (Z.gtb_spec (sum_sizes (pre ++ [c])) (cf_fsize cf)); [lia|].
  rewrite Hcs, skip_chunks_boundary by exact Hwf1.
  cbn [read_chunks]. rewrite Z.sub_diag. change (to_size_t 0) with 0.
  destruct (Z.gtb_spec count 0); [|lia].
  destruct (sys_pread o (c_fd c) 0 (c_fsize c + c_startOffset c))
    as [[rv got] o1] eqn:Ep. cbn [fst snd].
  pose proof (sys_pread_range _ _ _ _ _ _ _ Ep ltac:(lia)) as Hr.
  destruct (Z.eqb_spec rv 0) as [->|Hne].
  - cbn [after_call rr_trace]. eexists. split; [reflexivity|].
    intros Hnz. contradiction Hnz. reflexivity.
  - destruct (Z.gtb_spec rv 0); [lia|]. cbn [rr_trace rr_buf rr_ret].
    exists []. split; [reflexivity|]. intros _. repeat split.
Qed.

Lemma boundary_read_probes_previous_segment_witness :
  exists rest,
    rr_trace (read_concat_file [abc_object] abc_served 3 1
                (sum_sizes ([] ++ [mk_chunk 5 0 4]))) =
      mk_call (c_fd (mk_chunk 5 0 4)) 0
        (c_fsize (mk_chunk 5 0 4) + c_startOffset (mk_chunk 5 0 4))
        (fst (fst (sys_pread abc_served (c_fd (mk_chunk 5 0 4)) 0
                     (c_fsize (mk_chunk 5 0 4) + c_startOffset (mk_chunk 5 0 4)))))
      :: rest /\
    (fst (fst (sys_pread abc_served (c_fd (mk_chunk 5 0 4)) 0
                 (c_fsize (mk_chunk 5 0 4) + c_startOffset (mk_chunk 5 0 4)))) <> 0 ->
     rest = [] /\
     rr_buf (read_concat_file [abc_object] abc_served 3 1
               (sum_sizes ([] ++ [mk_chunk 5 0 4]))) = [] /\
     rr_ret (read_concat_file [abc_object] abc_served 3 1
               (sum_sizes ([] ++ [mk_chunk 5 0 4]))) =
       to_int (- os_errno
                   (snd (sys_pread abc_served (c_fd (mk_chunk 5 0 4)) 0
                           (c_fsize (mk_chunk 5 0 4)
                            + c_startOffset (mk_chunk 5 0 4)))))).
Proof.
  apply (boundary_read_probes_previous_segment [abc_object] abc_served 3 1
           abc_object [] (mk_chunk 5 0 4) [mk_chunk 6 0 2; mk_chunk 7 0 3]).
  - reflexivity.
  - exact abc_object_wf.
  - reflexivity.
  - change (2 ^ 64) with 18446744073709551616. lia.
Defined.

(** The probe at work: the description names the unreadable file u and
    then the file a.  A read of the 4 bytes of a, at offset 3 where the
    segment of u ends, fails with EBADF on the descriptor -1 of u. *)
Lemma boundary_read_example :
  (r <- concatfs_open (str "/s")
          (sample_os (lines ["u"%string; "a"%string])) []
          (str "/m-concat-x") O_RDONLY ;;
   Ret (or_reg r,
        rr_ret (read_concat_file (or_reg r) (or_os r) 3 4 3),
        rr_ret (read_concat_file (or_reg r) (or_os r) 3 3 4),
        rr_buf (read_concat_file (or_reg r) (or_os r) 3 3 4)))
  = Ret ([mk_concat_file [mk_chunk (-1) 0 3; mk_chunk 5 0 4] 3 7 1],
         - EBADF, 3, str "AAA").
Proof. vm_compute. reflexivity. Qed.

(** *** Reads that fail *)

Lemma snoc_cons_split {A} (x : A) (rest pre : list A) (y : A) :
  x :: rest = pre ++ [y] ->
  (pre = [] /\ rest = [] /\ y = x) \/
  (exists pre', pre = x :: pre' /\ rest = pre' ++ [y]).
Proof.
  destruct pre as [|a pre]; cbn [app]; intros E; injection E as <- E.
  - left. auto.
  - right. exists pre. auto.
Qed.

Lemma sum_rv_cons (c : pread_call) (t : list pread_call) :
  sum_rv (c :: t) = pc_rv c + sum_rv t.
Proof. reflexivity. Qed.

Lemma sum_count_app (a b : list pread_call) :
  sum_count (a ++ b) = sum_count a + sum_count b.
Proof.
  induction a as [|x a IH]; [reflexivity|].
  cbn [app]. rewrite !sum_count_cons, IH. lia.
Qed.

Lemma read_chunks_failed (cs : list chunk) :
  Forall chunk_wf cs ->
  forall o count offset bytes_read pre call,
    0 <= offset -> 0 <= count < 2 ^ 64 ->
    match cs with
    | c :: _ => offset <= c_fsize c
    | [] => True
    end ->
    rr_trace (read_chunks o cs count offset bytes_read) = pre ++ [call] ->
    Forall full_read pre /\ 0 <= sum_rv pre /\
    (pc_rv call < 0 ->
     rr_ret (read_chunks o cs count offset bytes_read) =
       - os_errno (rr_os (read_chunks o cs count offset bytes_read)) /\
     Z.of_nat (length (rr_buf (read_chunks o cs count offset bytes_read)))
       = sum_rv pre) /\
    (pc_rv call = 0 -> 0 < pc_count call ->
     sum_count (pre ++ [call]) < count ->
     rr_ret (read_chunks o cs count offset bytes_read) = - os_errno o /\
     rr_os (read_chunks o cs count offset bytes_read) = o /\
     Z.of_nat (length (rr_buf (read_chunks o cs count offset bytes_read)))
       = sum_rv pre).
Proof.
  induction 1 as [|c cs [Hst Hsz] Hwf IH];
    intros o count offset bytes_read pre call Hoff Hcount Hhead.
  - cbn [read_chunks rr_trace]. intros E. destruct pre; discriminate.
  - pose proof OFF_T_MAX_fits as Hmax.
    cbn [read_chunks].
    assert (Hwant : to_size_t (c_fsize c - offset) = c_fsize c - offset)
      by (apply to_size_t_small; lia).
    rewrite Hwant.
    destruct (Z.gtb_spec count (c_fsize c - offset)) as [Hgt|Hle].
    + destruct (sys_pread o (c_fd c) (c_fsize c - offset) (offset + c_startOffset c))
        as [[rv got] o1] eqn:Ep.
      pose proof (sys_pread_range _ _ _ _ _ _ _ Ep ltac:(lia)) as Hr.
      destruct (Z.eqb_spec rv (c_fsize c - offset)) as [->|Hne].
      * destruct (sys_pread_ok _ _ _ _ _ _ _ Ep ltac:(lia)) as [-> [Hlen _]].
        assert (Hc2 : to_size_t (count - (c_fsize c - offset))
                      = count - (c_fsize c - offset))
          by (apply to_size_t_small; lia).
        rewrite Hc2.
        cbn [after_call rr_trace rr_ret rr_buf rr_os]. intros E.
        apply snoc_cons_split in E.
        destruct E as [[-> [_ ->]]|[pre' [-> Et]]].
        { cbn [pc_rv pc_count]. split; [constructor|]. split; [reflexivity|].
          split; intros; lia. }
        destruct (IH o (count - (c_fsize c - offset)) 0
                    (bytes_read + (c_fsize c - offset)) pre' call)
          as [Hfull [Hs0 [Ha Hb]]]; try assumption; try lia.
        { destruct cs as [|c2 cs]; [exact I|].
          inversion Hwf as [|? ? [_ H2] _]; subst. lia. }
        rewrite sum_rv_cons. cbn [pc_rv]. rewrite length_app.
        split; [constructor; [reflexivity | exact Hfull]|].
        split; [lia|]. split.
        -- intros Hneg. destruct (Ha Hneg) as [A1 A2]. split; [exact A1 | lia].
        -- intros Hz Hpc Hsc. cbn [app] in Hsc. rewrite sum_count_cons in Hsc.
           cbn [pc_count] in Hsc.
           destruct (Hb Hz Hpc ltac:(lia)) as [B1 [B2 B3]].
           split; [exact B1|]. split; [exact B2 | lia].
      * destruct (Z.gtb_spec rv 0) as [Hpos|Hnp];
          cbn [rr_trace rr_ret rr_buf rr_os]; intros E;
          apply snoc_cons_split in E;
          destruct E as [[-> [_ ->]]|[pre' [_ Et]]];
          try (destruct pre'; discriminate);
          cbn [pc_rv pc_count length];
          (split; [constructor|]); (split; [reflexivity|]);
          (split; [intros Hneg|intros Hz Hpc Hsc]); try lia.
        -- split; reflexivity.
        -- subst rv.
           destruct (sys_pread_ok _ _ _ _ _ _ _ Ep ltac:(lia)) as [-> _].
           repeat split.
    + unfold read_last. destruct (Z.gtb_spec count 0) as [Hpos|Hzero].
      * destruct (sys_pread o (c_fd c) count (offset + c_startOffset c))
          as [[rv got] o1] eqn:Ep.
        destruct (Z.ltb_spec rv 0) as [Hneg|Hnn];
          cbn [rr_trace rr_ret rr_buf rr_os]; intros E;
          apply snoc_cons_split in E;
          destruct E as [[-> [_ ->]]|[pre' [_ Et]]];
          try (destruct pre'; discriminate);
          cbn [pc_rv pc_count length];
          (split; [constructor|]); (split; [reflexivity|]);
          (split; [intros Hn|intros Hz Hpc Hsc]); try lia;
          try (cbn [app] in Hsc; rewrite sum_count_cons in Hsc;
               cbn [pc_count] in Hsc; change (sum_count []) with 0 in Hsc; lia).
        split; reflexivity.
      * cbn [rr_trace]. intros E. destruct pre; discriminate.
Qed.

(** X12.  When the last positional read of a call fails, [read_concat_file]
    returns the negated [errno] although the reads before it were served
    in full and their bytes are already in the caller's buffer: the count
    of those bytes is lost.  When a read of a segment that the request
    extends beyond returns 0 (the backing file ends before the window
    does), the call also returns the negated [errno]; no call has set it,
    so the value is the one [errno] had before the read. *)
Theorem failed_read_discards_progress (reg : registry) (o : os)
  (fd count offset : Z) (cf : concat_file) (pre : list pread_call)
  (call : pread_call) :
  open_files_find reg fd = Some cf -> cf_wf cf ->
  0 <= offset -> 0 <= count < 2 ^ 64 ->
  rr_trace (read_concat_file reg o fd count offset) = pre ++ [call] ->
  Forall full_read pre /\
  (pc_rv call < 0 ->
   rr_ret (read_concat_file reg o fd count offset) =
     to_int (- os_errno (rr_os (read_concat_file reg o fd count offset))) /\
   Z.of_nat (length (rr_buf (read_concat_file reg o fd count offset)))
     = sum_rv pre) /\
  (pc_rv call = 0 -> 0 < pc_count call ->
   sum_count (pre ++ [call]) < count ->
   rr_ret (read_concat_file reg o fd count offset) = to_int (- os_errno o) /\
   rr_os (read_concat_file reg o fd count offset) = o /\
   Z.of_nat (length (rr_buf (read_concat_file reg o fd count offset)))
     = sum_rv pre).
Proof.
  intros Hf [Hwf Hsum] Hoff Hcount. unfold read_concat_file. rewrite Hf.
  destruct (offset >? cf_fsize cf).
  { cbn [rr_trace]. intros E. destruct pre; discriminate. }
  destruct (skip_chunks_spec (cf_chunks cf) offset Hwf Hoff)
    as [skipped [_ [_ [Hn [Hwf' Hhead]]]]].
  destruct (skip_chunks (cf_chunks cf) offset) as [cs off].
  cbn [fst snd] in *. cbn [rr_trace rr_ret rr_buf rr_os]. intros Et.
  destruct (read_chunks_failed cs Hwf' o count off 0 pre call Hn Hcount Hhead Et)
    as [Hfull [_ [Ha Hb]]].
  split; [exact Hfull|]. split.
  - intros Hneg. destruct (Ha Hneg) as [-> A2]. split; [reflexivity | exact A2].
  - intros Hz Hpc Hsc. destruct (Hb Hz Hpc Hsc) as [-> [B2 B3]].
    split; [reflexivity|]. split; assumption.
Qed.

Lemma au_object_wf : cf_wf au_object.
Proof.
  split; [|reflexivity].
  repeat constructor; unfold OFF_T_MAX; cbn; lia.
Qed.

Lemma failed_read_discards_progress_witness :
  Forall full_read [mk_call 5 4 0 4] /\
  (pc_rv (mk_call (-1) 3 0 (-1)) < 0 ->
   rr_ret (read_concat_file [au_object] au_served 3 7 0) =
     to_int (- os_errno (rr_os (read_concat_file [au_object] au_served 3 7 0))) /\
   Z.of_nat (length (rr_buf (read_concat_file [au_object] au_served 3 7 0)))
     = sum_rv [mk_call 5 4 0 4]) /\
  (pc_rv (mk_call (-1) 3 0 (-1)) = 0 -> 0 < pc_count (mk_call (-1) 3 0 (-1)) ->
   sum_count ([mk_call 5 4 0 4] ++ [mk_call (-1) 3 0 (-1)]) < 7 ->
   rr_ret (read_concat_file [au_object] au_served 3 7 0) =
     to_int (- os_errno au_served) /\
   rr_os (read_concat_file [au_object] au_served 3 7 0) = au_served /\
   Z.of_nat (length (rr_buf (read_concat_file [au_object] au_served 3 7 0)))
     = sum_rv [mk_call 5 4 0 4]).
Proof.
  apply (failed_read_discards_progress [au_object] au_served 3 7 0 au_object
           [mk_call 5 4 0 4] (mk_call (-1) 3 0 (-1))).
  - reflexivity.
  - exact au_object_wf.
  - lia.
  - change (2 ^ 64) with 18446744073709551616. lia.
  - vm_compute. reflexivity.
Defined.

(** The same read, run: four bytes of a are stored, and the call returns
    -EBADF. *)
Lemma failed_read_example :
  open_concat_file (opened au) 3 desc_path = Ret (Some au_object, au_served) /\
  rr_ret (read_concat_file [au_object] au_served 3 7 0) = - EBADF /\
  rr_buf (read_concat_file [au_object] au_served 3 7 0) = str "AAAA".
Proof. vm_compute. repeat split. Qed.

(** A backing file that has shrunk since the parse: the read of the
    first segment returns 0 before the request is complete, and the call
    returns the negated value [errno] happened to hold, here the EBADF
    left by an earlier [get_concat_file_size]. *)
Lemma stale_errno_example :
  (r <- get_concat_file_size (sample_os abc) desc_path ;;
   Ret (os_errno (snd r))) = Ret EBADF /\
  rr_trace (read_concat_file [abc_object] abc_shrunk 3 9 0) = [mk_call 5 4 0 0] /\
  rr_ret (read_concat_file [abc_object] abc_shrunk 3 9 0) = - EBADF.
Proof. vm_compute. repeat split. Qed.

(** ** From the description to the bytes served *)

Lemma sys_pread_complete (o : os) (fd n off : Z) (d : list byte) (r w : bool)
  (pos : nat) :
  fd_lookup o fd = Some (mk_ofile (Regular d r w) O_RDONLY pos) ->
  os_io o fd n off = Complete ->
  0 <= off -> 0 <= n -> off + n <= Z.of_nat (length d) ->
  sys_pread o fd n off =
    (n, firstn (Z.to_nat n) (skipn (Z.to_nat off) d), o).
Proof.
  intros Hl Hio Hoff Hn Hb. unfold sys_pread. rewrite Hl. cbn [of_acc of_node].
  destruct (Z.ltb_spec off 0); [lia|]. rewrite Hio.
  rewrite length_firstn, length_skipn. f_equal. f_equal. lia.
Qed.

Lemma read_chunks_servable (o : os) (cs : list chunk) :
  Forall chunk_wf cs -> Forall (servable o) cs ->
  forall count offset bytes_read,
    0 <= offset -> 0 <= count < 2 ^ 64 ->
    match cs with
    | c :: _ => offset <= c_fsize c
    | [] => True
    end ->
    Forall full_read (rr_trace (read_chunks o cs count offset bytes_read)).
Proof.
  induction 1 as [|c cs [Hst Hsz] Hwf IH]; intros Hsv;
    intros count offset bytes_read Hoff Hcount Hhead.
  - constructor.
  - inversion Hsv as [|? ? [d [r [w [pos [Hl [Hb Hio]]]]]] Hsv']; subst.
    pose proof OFF_T_MAX_fits as Hmax.
    cbn [read_chunks].
    assert (Hwant : to_size_t (c_fsize c - offset) = c_fsize c - offset)
      by (apply to_size_t_small; lia).
    rewrite Hwant.
    destruct (Z.gtb_spec count (c_fsize c - offset)) as [Hgt|Hle].
    + rewrite (sys_pread_complete o (c_fd c) (c_fsize c - offset)
                 (offset + c_startOffset c) d r w pos Hl (Hio _ _))
        by lia.
      rewrite Z.eqb_refl. cbn [after_call rr_trace].
      constructor; [reflexivity|].
      assert (Hc2 : to_size_t (count - (c_fsize c - offset))
                    = count - (c_fsize c - offset))
        by (apply to_size_t_small; lia).
      rewrite Hc2. apply IH; try assumption; try lia.
      destruct cs as [|c2 cs]; [exact I|].
      inversion Hwf as [|? ? [_ H2] _]; subst. lia.
    + unfold read_last. destruct (Z.gtb_spec count 0) as [Hpos|Hzero];
        [|constructor].
      rewrite (sys_pread_complete o (c_fd c) count (offset + c_startOffset c)
                 d r w pos Hl (Hio _ _)) by lia.
      destruct (Z.ltb_spec count 0); [lia|]. cbn [rr_trace].
      constructor; [reflexivity | constructor].
Qed.

(** A read within the virtual file whose positional reads are all served
    in full returns the bytes of the virtual file. *)
Lemma read_concat_file_full (reg : registry) (o : os) (fd count offset : Z)
  (cf : concat_file) :
  open_files_find reg fd = Some cf -> cf_wf cf ->
  0 <= offset -> 0 <= count < 2 ^ 64 ->
  offset + count <= cf_fsize cf ->
  Forall full_read (rr_trace (read_concat_file reg o fd count offset)) ->
  rr_ret (read_concat_file reg o fd count offset) = to_int count /\
  rr_buf (read_concat_file reg o fd count offset) =
    firstn (Z.to_nat count) (skipn (Z.to_nat offset) (virtual_bytes o cf)).
Proof.
  intros Hf [Hwf Hsum] Hoff Hcount Hin.
  unfold read_concat_file. rewrite Hf.
  destruct (Z.gtb_spec offset (cf_fsize cf)); [lia|].
  destruct (skip_chunks_spec (cf_chunks cf) offset Hwf Hoff)
    as [pre [Ecs [Eoff [Hn [Hwf' Hhead]]]]].
  destruct (skip_chunks (cf_chunks cf) offset) as [cs off] eqn:Es.
  cbn [fst snd] in *. cbn [rr_trace rr_ret rr_buf]. intros Ht.
  assert (Hpre : Forall chunk_wf pre).
  { rewrite Ecs in Hwf. apply Forall_app in Hwf. tauto. }
  assert (Hsplit : sum_sizes (cf_chunks cf) = sum_sizes pre + sum_sizes cs).
  { rewrite Ecs at 1. apply sum_sizes_app. }
  destruct (read_chunks_full o cs Hwf' count off 0) as [Er Eb];
    try assumption; try lia.
  rewrite Er. change (0 + count) with count. split; [reflexivity|].
  rewrite Eb. unfold virtual_bytes. rewrite Ecs.
  rewrite virtual_bytes_split by (try assumption; lia).
  rewrite <- Eoff. reflexivity.
Qed.

Lemma skip_chunks_suffix (cs : list chunk) (offset : Z) :
  exists pre, cs = pre ++ fst (skip_chunks cs offset).
Proof.
  revert offset. induction cs as [|c cs IH]; intros offset; cbn [skip_chunks].
  - exists []. reflexivity.
  - destruct (offset >? c_fsize c).
    + destruct (IH (offset - c_fsize c)) as [pre E]. exists (c :: pre).
      cbn [app]. rewrite <- E. reflexivity.
    + exists []. reflexivity.
Qed.

(** A chunk bound to a line that names a regular file, with a usable
    descriptor, is served in full by a kernel that completes its reads,
    and its backing slice is the window of that file. *)
Lemma bound_servable (sfd : Z) (o0 o : os) (c : chunk) (seg : cstr * Z * Z) :
  same_files o0 o ->
  bound sfd o c seg -> 0 <= c_fd c ->
  file_bytes o0 (fst (fst seg)) <> None ->
  (exists nd, namei o0 (fst (fst seg)) = inr nd /\
              0 <= snd (fst seg) /\ 1 <= snd seg /\
              snd (fst seg) + snd seg <= node_size nd) ->
  (forall d n off, os_io o d n off = Complete) ->
  servable o c /\ backing_slice o c = segment_bytes o0 seg.
Proof.
  intros Sf [H1 [H2 [_ H4]]] Hfd Hreg [nd [Hn [Hs [Hl Hb]]]] Hio.
  destruct H4 as [H4|[nd' [Hn' Hl']]]; [lia|].
  rewrite <- (namei_same o0 o _ Sf), Hn in Hn'. injection Hn' as <-.
  unfold file_bytes in Hreg. unfold segment_bytes, file_bytes.
  rewrite Hn in *.
  destruct nd as [d r w|sz]; [|contradiction Hreg; reflexivity].
  cbn [node_size] in Hb. split.
  - exists d, r, w, 0%nat. split; [exact Hl'|]. split; [lia | intros; apply Hio].
  - unfold backing_slice, fd_data. rewrite Hl'. cbn [of_node].
    rewrite H1, H2. apply pslice_inside. lia.
Qed.

Lemma bound_all_servable (sfd : Z) (o0 o : os) (cs : list chunk)
  (segs : list (cstr * Z * Z)) :
  same_files o0 o ->
  Forall2 (bound sfd o) cs segs ->
  Forall (fun c => 0 <= c_fd c) cs ->
  Forall (fun seg => file_bytes o0 (fst (fst seg)) <> None) segs ->
  Forall (fun seg =>
            exists nd, namei o0 (fst (fst seg)) = inr nd /\
                       0 <= snd (fst seg) /\ 1 <= snd seg /\
                       snd (fst seg) + snd seg <= node_size nd) segs ->
  (forall d n off, os_io o d n off = Complete) ->
  Forall (servable o) cs /\
  concat (map (backing_slice o) cs) = concat (map (segment_bytes o0) segs).
Proof.
  intros Sf Hb. induction Hb as [|c seg cs segs Hc Hb IH];
    intros Hfd Hreg Hin Hio.
  - split; [constructor | reflexivity].
  - inversion Hfd; subst. inversion Hreg; subst. inversion Hin; subst.
    destruct (bound_servable sfd o0 o c seg) as [Hs He]; try assumption.
    destruct IH as [Hs' He']; try assumption.
    split; [constructor; assumption|].
    cbn [map concat]. rewrite He, He'. reflexivity.
Qed.

(** X1.  An open of a virtual path followed by a read through the handle.
    Let the open return (the parse has no defined behaviour when the
    lengths of the accepted lines sum past [OFF_T_MAX]), let every accepted
    line of the description name a regular file, let every backing file
    have been opened (no chunk carries -1), and let the kernel complete
    its reads.  Then a read within the total size
    returns [count] and stores the bytes, from [offset], of the
    concatenation of the windows [start, start + length) of the files the
    accepted lines name, in the order of the lines; the total size is the
    length of that concatenation. *)
Theorem open_then_read_serves_files (src_dir : cstr) (o : os) (reg : registry)
  (path : cstr) (flags : access) (r : open_result) (fh count offset : Z)
  (cf : concat_file) :
  concatfs_open src_dir o reg path flags = Ret r ->
  or_fh r = Some fh ->
  is_concatfs_file path = Ret true ->
  open_files_find (or_reg r) fh = Some cf ->
  Forall (fun c => 0 <= c_fd c) (cf_chunks cf) ->
  Forall (fun seg => file_bytes o (fst (fst seg)) <> None)
    (accepted_lines o (dirname (snprintf_path PATH_MAX src_dir path))
       (description_lines o (snprintf_path PATH_MAX src_dir path))) ->
  (forall d n off, os_io (or_os r) d n off = Complete) ->
  0 <= offset -> 0 <= count <= INT_MAX -> offset + count <= cf_fsize cf ->
  exists rr,
    concatfs_read (or_os r) (or_reg r) path fh count offset = Ret rr /\
    rr_ret rr = count /\
    rr_buf rr =
      firstn (Z.to_nat count)
        (skipn (Z.to_nat offset)
           (concat
              (map (segment_bytes o)
                 (accepted_lines o
                    (dirname (snprintf_path PATH_MAX src_dir path))
                    (description_lines o
                       (snprintf_path PATH_MAX src_dir path)))))) /\
    cf_fsize cf =
      Z.of_nat
        (length
           (concat
              (map (segment_bytes o)
                 (accepted_lines o
                    (dirname (snprintf_path PATH_MAX src_dir path))
                    (description_lines o
                       (snprintf_path PATH_MAX src_dir path)))))).
Proof.
  intros Ho Hfh Hv Hfind Hfds Hreg Hio Hoff Hcount Hin.
  unfold concatfs_open in Ho.
  pose proof (sys_open_files o (snprintf_path PATH_MAX src_dir path) flags) as S1.
  set (fpath := snprintf_path PATH_MAX src_dir path) in *.
  destruct (sys_open o fpath flags) as [fd o1] eqn:Eo. cbn [snd] in S1.
  destruct (Z.ltb_spec fd 0) as [Hneg|Hnn].
  { injection Ho as <-. discriminate. }
  rewrite Hv in Ho. cbn [run_bind] in Ho.
  destruct (open_concat_file o1 fd fpath) as [|[[cf'|] o2]] eqn:Ep;
    cbn [run_bind fst snd open_files_push_front] in Ho; try discriminate.
  injection Ho as <-. cbn [or_fh or_os or_reg] in *. injection Hfh as <-.
  destruct (open_concat_file_wf _ _ _ _ _ Hnn Ep) as [Hwf Hcf].
  cbn [open_files_find] in Hfind. rewrite Hcf, Z.eqb_refl in Hfind.
  injection Hfind as ->.
  destruct (sys_open_ok _ _ _ _ _ Eo Hnn) as [nd [Hn [_ [_ Hl]]]].
  destruct (open_concat_file_binds _ _ _ _ _ _ Hnn Hl Ep) as [sfd Hb].
  destruct (open_concat_file_opens _ _ _ _ _ Ep) as [S2 _].
  assert (Sf : same_files o o2) by (eapply same_files_trans; eassumption).
  assert (Elines : description_lines o fpath =
                   read_lines
                     (length (stream_text (mk_ofile nd flags 0)))
                     (stream_text (mk_ofile nd flags 0))).
  { unfold description_lines. rewrite Hn. reflexivity. }
  rewrite <- Elines, <- (accepted_lines_same o o1 _ _ S1) in Hb.
  destruct (bound_all_servable sfd o o2 _ _ Sf Hb Hfds Hreg
              (accepted_lines_within _ _ _) Hio) as [Hsv Hbytes].
  assert (Hfind : open_files_find (cf :: reg) fd = Some cf).
  { cbn [open_files_find]. rewrite Hcf, Z.eqb_refl. reflexivity. }
  assert (Hc64 : 0 <= count < 2 ^ 64).
  { pose proof INT_MAX_fits. lia. }
  assert (Ht : Forall full_read
                 (rr_trace (read_concat_file (cf :: reg) o2 fd count offset))).
  { unfold read_concat_file. rewrite Hfind.
    destruct (offset >? cf_fsize cf); [constructor|].
    destruct Hwf as [Hwf Hsum].
    destruct (skip_chunks_spec (cf_chunks cf) offset Hwf Hoff)
      as [pre [Ecs [_ [Hn0 [Hwf' Hhead]]]]].
    destruct (skip_chunks (cf_chunks cf) offset) as [cs off].
    cbn [fst snd] in *. cbn [rr_trace].
    apply read_chunks_servable; try assumption.
    rewrite Ecs in Hsv. apply Forall_app in Hsv. tauto. }
  destruct (read_concat_file_full (cf :: reg) o2 fd count offset cf Hfind Hwf
              Hoff Hc64 Hin Ht) as [Hret Hbuf].
  unfold concatfs_read. rewrite Hv. cbn [run_bind].
  eexists. split; [reflexivity|]. split; [|split].
  - rewrite Hret. apply to_int_small. unfold INT_MAX in *. lia.
  - rewrite Hbuf. unfold virtual_bytes. rewrite Hbytes. reflexivity.
  - rewrite <- Hbytes. destruct Hwf as [Hwf Hsum]. rewrite Hsum.
    symmetry. apply virtual_length. exact Hwf.
Qed.

Lemma open_then_read_serves_files_witness :
  exists rr,
    concatfs_read abc_served [abc_object] (str "/m-concat-x") 3 4 3 = Ret rr /\
    rr_ret rr = 4 /\
    rr_buf rr =
      firstn (Z.to_nat 4)
        (skipn (Z.to_nat 3)
           (concat
              (map (segment_bytes (sample_os abc))
                 (accepted_lines (sample_os abc)
                    (dirname (snprintf_path PATH_MAX (str "/s")
                                (str "/m-concat-x")))
                    (description_lines (sample_os abc)
                       (snprintf_path PATH_MAX (str "/s")
                          (str "/m-concat-x"))))))) /\
    cf_fsize abc_object =
      Z.of_nat
        (length
           (concat
              (map (segment_bytes (sample_os abc))
                 (accepted_lines (sample_os abc)
                    (dirname (snprintf_path PATH_MAX (str "/s")
                                (str "/m-concat-x")))
                    (description_lines (sample_os abc)
                       (snprintf_path PATH_MAX (str "/s")
                          (str "/m-concat-x"))))))).
Proof.
  apply (open_then_read_serves_files (str "/s") (sample_os abc) []
           (str "/m-concat-x") O_RDONLY
           (mk_open_result 0 (Some 3) abc_served [abc_object]) 3 4 3 abc_object).
  - vm_compute. reflexivity.
  - reflexivity.
  - vm_compute. reflexivity.
  - reflexivity.
  - repeat constructor; cbn; lia.
  - vm_compute. repeat constructor; discriminate.
  - intros d n off. reflexivity.
  - lia.
  - unfold INT_MAX. lia.
  - cbn. lia.
Defined.

(** ** The proof of concept, [src/poc_concatfs.c] *)

Lemma dropwhile_suffix {A} (p : A -> bool) (l : list A) :
  exists a, l = a ++ dropwhile p l.
Proof.
  induction l as [|x l [a IH]]; cbn [dropwhile]; [exists []; reflexivity|].
  destruct (p x).
  - exists (x :: a). cbn [app]. rewrite <- IH. reflexivity.
  - exists []. reflexivity.
Qed.

Lemma takewhile_prefix {A} (p : A -> bool) (l : list A) :
  exists b, l = takewhile p l ++ b.
Proof.
  induction l as [|x l [b IH]]; cbn [takewhile]; [exists []; reflexivity|].
  destruct (p x).
  - exists b. cbn [app]. rewrite <- IH. reflexivity.
  - exists (x :: l). reflexivity.
Qed.

(** The basename is a part of the path, except for a path of slashes. *)
Lemma basename_infix (p : cstr) :
  p <> [] ->
  basename p = str "/" \/ exists a b, p = a ++ basename p ++ b.
Proof.
  intros Hp. unfold basename. destruct p as [|c p]; [contradiction|].
  destruct (dropwhile_suffix is_slash (rev (c :: p))) as [a Ea].
  destruct (dropwhile is_slash (rev (c :: p))) as [|x body] eqn:Ed;
    [left; reflexivity|].
  right. destruct (takewhile_prefix not_slash (x :: body)) as [b Eb].
  exists (rev b), (rev a).
  rewrite <- !rev_app_distr, <- app_assoc, <- Eb, <- Ea, rev_involutive.
  reflexivity.
Qed.

(** X20.  The classifier of the proof of concept answers yes exactly when the
    marker occurs anywhere in the path.  Every path concatfs takes as
    virtual is virtual for the proof of concept; a path with the marker in
    a directory name only is virtual for the proof of concept and is not
    for concatfs. *)
Theorem poc_classifier_searches_whole_path (p : cstr) :
  (Poc.is_concatfs_file p = true <->
   exists pre post, p = pre ++ marker ++ post) /\
  (is_concatfs_file p = Ret true -> Poc.is_concatfs_file p = true) /\
  (forall dir name,
     p = dir ++ SLASH :: name -> (length p < PATH_MAX)%nat ->
     name <> [] -> forallb not_slash name = true ->
     (exists a b, dir = a ++ marker ++ b) -> strstr name marker = None ->
     Poc.is_concatfs_file p = true /\ is_concatfs_file p = Ret false).
Proof.
  assert (Hiff : Poc.is_concatfs_file p = true <->
                 exists pre post, p = pre ++ marker ++ post).
  { rewrite <- strstr_occurs. unfold Poc.is_concatfs_file.
    destruct (strstr p marker) as [r|]; split; eauto; try discriminate.
    intros [r H]. discriminate. }
  split; [exact Hiff|]. split.
  - intros H. apply Hiff.
    unfold is_concatfs_file, strncpy in H.
    destruct (length p <? PATH_MAX)%nat; [|discriminate].
    cbn [run_bind] in H.
    destruct (strstr (basename p) marker) as [r|] eqn:Es; [|discriminate].
    destruct (proj1 (strstr_occurs (basename p) marker) (ex_intro _ r Es))
      as [pre [post Eb]].
    destruct p as [|c p]; [discriminate|].
    destruct (basename_infix (c :: p)) as [E|[a [b E]]]; [discriminate| |].
    + rewrite E in Es. discriminate.
    + exists (a ++ pre), (post ++ b). rewrite E at 1. rewrite Eb.
      rewrite <- !app_assoc. reflexivity.
  - intros dir name Hd Hlen Hne Hns [a [b Ea]] Hno. split.
    + apply Hiff. exists a, (b ++ SLASH :: name). rewrite Hd, Ea.
      rewrite <- !app_assoc. reflexivity.
    + rewrite is_concatfs_file_ret by exact Hlen.
      rewrite Hd, basename_join by assumption. rewrite Hno. reflexivity.
Qed.

(** *** Its read *)

Lemma poc_skip_chunks (cs : list Poc.chunk) (offset : Z) :
  skip_chunks (map lift_chunk cs) offset =
  (map lift_chunk (fst (Poc.skip_chunks cs offset)),
   snd (Poc.skip_chunks cs offset)).
Proof.
  revert offset. induction cs as [|c cs IH]; intros offset;
    cbn [map skip_chunks Poc.skip_chunks]; [reflexivity|].
  cbn [lift_chunk c_fsize].
  destruct (offset >? Poc.c_fsize c); [apply IH | reflexivity].
Qed.

Lemma poc_read_chunks (cs : list Poc.chunk) :
  forall o count offset bytes_read,
    read_chunks o (map lift_chunk cs) count offset bytes_read =
    Poc.read_chunks o cs count offset bytes_read.
Proof.
  induction cs as [|c cs IH]; intros o count offset bytes_read;
    cbn [map read_chunks Poc.read_chunks]; [reflexivity|].
  unfold read_last, Poc.read_last.
  cbn [lift_chunk c_fsize c_fd c_startOffset]. rewrite Z.add_0_r.
  destruct (count >? to_size_t (Poc.c_fsize c - offset)); [|reflexivity].
  destruct (sys_pread o (Poc.c_fd c) (to_size_t (Poc.c_fsize c - offset)) offset)
    as [[rv got] o1].
  destruct (rv =? Poc.c_fsize c - offset); [|reflexivity].
  rewrite IH. reflexivity.
Qed.

Lemma poc_open_files_find (reg : list Poc.concat_file) (fd : Z) :
  open_files_find (map lift_file reg) fd =
  option_map lift_file (Poc.open_files_find reg fd).
Proof.
  induction reg as [|cf reg IH]; cbn [map open_files_find Poc.open_files_find];
    [reflexivity|].
  cbn [lift_file cf_fd]. destruct (Poc.cf_fd cf =? fd); [reflexivity | exact IH].
Qed.

(** X21.  The read of concatfs, on objects whose chunks all start at offset 0,
    is the read of the proof of concept: same value returned, same bytes
    stored, same positional reads. *)
Theorem poc_read_is_read_without_offsets (reg : list Poc.concat_file)
  (o : os) (fd count offset : Z) :
  read_concat_file (map lift_file reg) o fd count offset =
  Poc.read_concat_file reg o fd count offset.
Proof.
  unfold read_concat_file, Poc.read_concat_file. rewrite poc_open_files_find.
  destruct (Poc.open_files_find reg fd) as [cf|]; cbn [option_map];
    [|reflexivity].
  cbn [lift_file cf_fsize cf_chunks].
  destruct (offset >? Poc.cf_fsize cf); [reflexivity|].
  rewrite poc_skip_chunks.
  destruct (Poc.skip_chunks (Poc.cf_chunks cf) offset) as [cs off].
  cbn [fst snd]. rewrite poc_read_chunks. reflexivity.
Qed.

(** *** Its parser *)

Lemma not_in_strchr (s : cstr) (c : ascii) : ~ In c s -> strchr s c = None.
Proof.
  induction s as [|a s IH]; cbn [strchr]; [reflexivity|].
  intros H. destruct (Ascii.eqb_spec a c) as [->|Hne].
  - exfalso. apply H. left. reflexivity.
  - rewrite IH; [reflexivity|]. intros Hi. apply H. right. exact Hi.
Qed.

Lemma c_str_incl (b : list ascii) : incl (c_str b) b.
Proof.
  induction b as [|c b IH]; cbn [c_str]; [apply incl_refl|].
  destruct (c =? NUL)%char; [intros x []|].
  intros x [<-|H]; [left; reflexivity | right; apply IH; exact H].
Qed.

Lemma removelast_incl {A} (l : list A) : incl (removelast l) l.
Proof.
  induction l as [|a l IH]; [apply incl_refl|].
  destruct l as [|b l]; [intros x []|].
  change (removelast (a :: b :: l)) with (a :: removelast (b :: l)).
  intros x [<-|H]; [left; reflexivity | right; apply IH; exact H].
Qed.

Lemma firstn_incl {A} (n : nat) (l : list A) : incl (firstn n l) l.
Proof.
  revert l. induction n as [|n IH]; intros l; [intros x []|].
  destruct l as [|a l]; cbn [firstn]; [intros x []|].
  intros x [<-|H]; [left; reflexivity | right; apply IH; exact H].
Qed.

(** The path of a line is not empty, and its characters are those of the
    base directory, a slash, and those of the line. *)
Lemma line_path_chars (base : cstr) (b : list byte) (tpath : cstr) :
  line_path base b = Ret tpath ->
  tpath <> [] /\
  forall x, In x tpath -> In x base \/ x = SLASH \/ In x b.
Proof.
  unfold line_path. destruct (c_str b) as [|a s] eqn:E; [discriminate|].
  unfold entry_path.
  destruct (removelast (a :: s)) as [|x0 f] eqn:Er.
  - cbn [is_absolute]. intros H; injection H as <-. unfold snprintf_path.
    split.
    + destruct base; cbn; discriminate.
    + intros x Hx. apply firstn_incl in Hx. apply in_app_or in Hx.
      destruct Hx as [Hx|[Hx|[]]]; auto.
  - cbn [is_absolute].
    assert (Hin : incl (x0 :: f) b).
    { rewrite <- Er. intros x Hx. apply c_str_incl. rewrite E.
      apply removelast_incl. exact Hx. }
    destruct (is_slash x0).
    + unfold strncpy. destruct (_ <? _)%nat; [|discriminate].
      intros H; injection H as <-. split; [discriminate|].
      intros x Hx. right. right. apply Hin. exact Hx.
    + intros H; injection H as <-. unfold snprintf_path. split.
      * destruct base; cbn; discriminate.
      * intros x Hx. apply firstn_incl in Hx. apply in_app_or in Hx.
        destruct Hx as [Hx|[Hx|Hx]]; auto.
Qed.

(** On a path without a colon the offsets parser takes the whole file. *)
Lemma try_parse_line_offsets_plain (o : os) (tpath : cstr) :
  tpath <> [] -> ~ In COLON tpath ->
  try_parse_line_offsets o tpath =
  match sys_stat o tpath with
  | (Some sz, o1) => if sz <? 1 then (None, o1) else (Some (tpath, 0, sz), o1)
  | (None, o1) => (None, o1)
  end.
Proof.
  intros Hne Hc. unfold try_parse_line_offsets, cut_line.
  destruct tpath as [|a t]; [contradiction|].
  rewrite (not_in_strchr _ _ Hc).
  destruct (sys_stat o (a :: t)) as [[sz|] o1] eqn:St; [|reflexivity].
  destruct (Z.ltb_spec sz 1); [reflexivity|].
  destruct (sys_stat_some _ _ _ _ St) as [_ [Hb _]].
  cbn [scan_start scan_length]. rewrite !CLAMP_spec.
  replace (Z.min (sz - 1) (Z.max (-1) 0)) with 0 by lia.
  replace (Z.min (sz - 0) (Z.max OFF_T_MAX 1)) with sz by lia.
  reflexivity.
Qed.

Lemma poc_parse_line_lift (fd : Z) (base : cstr) (o : os)
  (pcf : Poc.concat_file) (b : list byte) (o1 : os) (pcf1 : Poc.concat_file) :
  0 <= fd -> ~ In COLON base -> ~ In COLON b ->
  Poc.parse_line fd base (o, pcf) b = Ret (o1, pcf1) ->
  Forall (fun c => 1 <= Poc.c_fsize c) (Poc.cf_chunks pcf1) ->
  parse_line fd base (o, lift_file pcf) b = Ret (o1, lift_file pcf1).
Proof.
  intros Hfd Hb Hl. unfold Poc.parse_line, parse_line.
  destruct (line_path base b) as [|tpath] eqn:Ep; cbn [run_bind];
    [discriminate|].
  destruct (line_path_chars _ _ _ Ep) as [Hne Hch].
  rewrite try_parse_line_offsets_plain; [|exact Hne|].
  2:{ intros Hi. destruct (Hch _ Hi) as [H|[H|H]]; auto. discriminate. }
  destruct (sys_stat o tpath) as [[sz|] oa].
  - unfold Poc.add_size.
    destruct (off_t_add (Poc.cf_fsize pcf) sz) as [|t] eqn:Ea; cbn [run_bind];
      [discriminate|].
    destruct (Z.geb_spec fd 0); [|lia].
    destruct (sys_open oa tpath O_RDONLY) as [d o2] eqn:Eo.
    intros E; injection E as <- <-. intros Hall.
    cbn [Poc.add_chunk Poc.cf_chunks] in Hall.
    apply Forall_app in Hall. destruct Hall as [_ Hlast].
    inversion Hlast as [|? ? Hsz _]; subst. cbn [Poc.c_fsize] in Hsz.
    destruct (Z.ltb_spec sz 1); [lia|].
    unfold add_size. cbn [lift_file cf_fsize]. rewrite Ea. cbn [run_bind].
    destruct (Z.geb_spec fd 0); [|lia]. rewrite Eo.
    unfold lift_file, add_chunk, Poc.add_chunk.
    cbn [cf_chunks cf_fd cf_fsize cf_refcount Poc.cf_chunks Poc.cf_fd
         Poc.cf_fsize Poc.cf_refcount].
    rewrite map_app. reflexivity.
  - intros E; injection E as <- <-. intros _. reflexivity.
Qed.

Lemma poc_parse_lines_chunks (fd : Z) (base : cstr) (bufs : list (list byte))
  (st st' : os * Poc.concat_file) :
  Poc.parse_lines fd base st bufs = Ret st' ->
  exists more, Poc.cf_chunks (snd st') = Poc.cf_chunks (snd st) ++ more.
Proof.
  revert st. induction bufs as [|b bufs IH]; intros st; cbn [Poc.parse_lines].
  - intros E; injection E as <-. exists []. rewrite app_nil_r. reflexivity.
  - destruct (Poc.parse_line fd base st b) as [|st1] eqn:E1; cbn [run_bind];
      [discriminate|].
    intros E. destruct (IH _ E) as [more Hm]. rewrite Hm. clear IH E Hm.
    unfold Poc.parse_line in E1. destruct st as [o cf].
    destruct (line_path base b) as [|tpath]; cbn [run_bind] in E1;
      [discriminate|].
    destruct (sys_stat o tpath) as [[sz|] oa].
    + unfold Poc.add_size in E1.
      destruct (off_t_add (Poc.cf_fsize cf) sz) as [|t]; cbn [run_bind] in E1;
        [discriminate|].
      destruct (fd >=? 0); [destruct (sys_open oa tpath O_RDONLY)|];
        injection E1 as <-; cbn [snd Poc.add_chunk Poc.cf_chunks].
      * rewrite <- app_assoc. eauto.
      * eauto.
    + injection E1 as <-. eauto.
Qed.

Lemma poc_parse_lines_lift (fd : Z) (base : cstr) (bufs : list (list byte))
  (o : os) (pcf : Poc.concat_file) (o1 : os) (pcf1 : Poc.concat_file) :
  0 <= fd -> ~ In COLON base ->
  Forall (fun b => ~ In COLON b) bufs ->
  Poc.parse_lines fd base (o, pcf) bufs = Ret (o1, pcf1) ->
  Forall (fun c => 1 <= Poc.c_fsize c) (Poc.cf_chunks pcf1) ->
  parse_lines fd base (o, lift_file pcf) bufs = Ret (o1, lift_file pcf1).
Proof.
  intros Hfd Hb Hall. revert o pcf.
  induction Hall as [|b bufs Hc Hall IH]; intros o pcf;
    cbn [Poc.parse_lines parse_lines].
  - intros E; injection E as <- <-. reflexivity.
  - destruct (Poc.parse_line fd base (o, pcf) b) as [|[oa pcfa]] eqn:E1;
      cbn [run_bind]; [discriminate|].
    intros E Hsz.
    destruct (poc_parse_lines_chunks _ _ _ _ _ E) as [more Hm].
    cbn [snd] in Hm.
    rewrite (poc_parse_line_lift fd base o pcf b oa pcfa Hfd Hb Hc E1).
    + cbn [run_bind]. apply IH; assumption.
    + rewrite Hm in Hsz. apply Forall_app in Hsz. tauto.
Qed.

(** X22.  A description for the proof of concept means the same to concatfs.
    When neither the directory of the description nor its text contains a
    colon, and no line names an empty file, the full parse of concatfs
    builds the object the proof of concept builds, each chunk starting at
    offset 0 and covering its whole file, and leaves the same system. *)
Theorem poc_descriptions_parse_alike (o : os) (fd : Z) (path : cstr)
  (sfd : Z) (text : list byte) (oa : os) (pcf : Poc.concat_file) (o1 : os) :
  0 <= fd ->
  open_stream o fd path = (Some (sfd, text), oa) ->
  ~ In COLON (dirname path) -> ~ In COLON text ->
  Poc.open_concat_file o fd path = Ret (Some pcf, o1) ->
  Forall (fun c => 1 <= Poc.c_fsize c) (Poc.cf_chunks pcf) ->
  open_concat_file o fd path = Ret (Some (lift_file pcf), o1).
Proof.
  intros Hfd Es Hd Ht. unfold Poc.open_concat_file, open_concat_file.
  rewrite Es. unfold strncpy. destruct (_ <? _)%nat; cbn [run_bind];
    [|discriminate].
  destruct (Poc.parse_lines fd (dirname path)
              (oa, Poc.mk_concat_file [] fd 0 1)
              (read_lines (length text) text)) as [|[ob pcf']] eqn:Ep;
    cbn [run_bind]; [discriminate|].
  cbn [fst snd].
  destruct (sys_close ob sfd) as [rc o3] eqn:Ec.
  intros E; injection E as <- <-. intros Hsz.
  change (mk_concat_file [] fd 0 1)
    with (lift_file (Poc.mk_concat_file [] fd 0 1)).
  rewrite (poc_parse_lines_lift fd (dirname path) _ oa _ ob pcf' Hfd Hd);
    try assumption.
  - cbn [run_bind fst snd]. rewrite Ec. reflexivity.
  - eapply Forall_impl; [|apply read_lines_buffers].
    intros b [_ [_ Hi]] Hc. apply Ht, Hi. exact Hc.
Qed.

Lemma poc_descriptions_parse_alike_witness :
  open_concat_file (opened abc) 3 desc_path =
  Ret (Some (lift_file
               (Poc.mk_concat_file
                  [Poc.mk_chunk 5 4; Poc.mk_chunk 6 2; Poc.mk_chunk 7 3] 3 9 1)),
       abc_served).
Proof.
  apply (poc_descriptions_parse_alike (opened abc) 3 desc_path 4 abc
           (snd (open_stream (opened abc) 3 desc_path))).
  - lia.
  - vm_compute. reflexivity.
  - cbn. intuition discriminate.
  - cbn. intuition discriminate.
  - vm_compute. reflexivity.
  - repeat constructor; cbn; lia.
Defined.

(** ** Where the paths of the lines lead *)

Lemma dropwhile_app_all {A} (p : A -> bool) (l r : list A) :
  forallb p l = true -> dropwhile p (l ++ r) = dropwhile p r.
Proof.
  induction l as [|a l IH]; cbn [forallb app dropwhile]; [reflexivity|].
  intros H. apply andb_true_iff in H. destruct H as [Ha Hl].
  rewrite Ha. apply IH. exact Hl.
Qed.

Lemma rev_head {A} (l : list A) : l <> [] -> exists x xs, rev l = x :: xs.
Proof.
  intros H. destruct (rev l) as [|x xs] eqn:E; [|eauto].
  apply (f_equal (@rev A)) in E. rewrite rev_involutive in E. contradiction.
Qed.

(** [dirname] of a path that ends in a name: the part before the slashes
    that precede the name. *)
Lemma dirname_join (dir : cstr) (c : ascii) (sl name : cstr) :
  is_slash c = false ->
  sl <> [] -> forallb is_slash sl = true ->
  name <> [] -> forallb not_slash name = true ->
  dirname ((dir ++ [c]) ++ sl ++ name) = dir ++ [c].
Proof.
  intros Hc Hsl Hs Hname Hn. unfold dirname.
  destruct ((dir ++ [c]) ++ sl ++ name) as [|p0 p] eqn:Ep.
  { destruct dir; discriminate. }
  rewrite <- Ep. clear Ep p0 p.
  rewrite !rev_app_distr. cbn [rev app]. rewrite <- !app_assoc.
  destruct (rev_head name Hname) as [x [xs Ex]].
  destruct (rev_head sl Hsl) as [y [ys Ey]].
  rewrite <- (forallb_rev _ name) in Hn. rewrite <- (forallb_rev _ sl) in Hs.
  assert (Hx : is_slash x = false).
  { rewrite Ex in Hn. cbn [forallb] in Hn. apply andb_true_iff in Hn.
    destruct Hn as [Hx _]. unfold not_slash in Hx.
    destruct (is_slash x); [discriminate | reflexivity]. }
  assert (Hy : is_slash y = true).
  { rewrite Ey in Hs. cbn [forallb] in Hs. apply andb_true_iff in Hs. tauto. }
  assert (E1 : dropwhile is_slash (rev name ++ rev sl ++ c :: rev dir)
               = rev name ++ rev sl ++ c :: rev dir).
  { rewrite Ex. cbn [app]. apply dropwhile_head. exact Hx. }
  rewrite E1. clear E1.
  assert (E2 : dropwhile not_slash (rev name ++ rev sl ++ c :: rev dir)
               = rev sl ++ c :: rev dir).
  { rewrite dropwhile_app_all by exact Hn. rewrite Ey. cbn [app].
    apply dropwhile_head. unfold not_slash. rewrite Hy. reflexivity. }
  assert (E3 : dropwhile is_slash (rev sl ++ c :: rev dir) = c :: rev dir).
  { rewrite dropwhile_app_all by exact Hs. apply dropwhile_head. exact Hc. }
  destruct (rev name ++ rev sl ++ c :: rev dir) as [|b0 body] eqn:Eb.
  { rewrite Ex in Eb. discriminate. }
  rewrite E2.
  destruct (rev sl ++ c :: rev dir) as [|s0 srest] eqn:Es.
  { rewrite Ey in Es. discriminate. }
  rewrite E3. cbn [rev]. rewrite rev_involutive. reflexivity.
Qed.

(** X18.  How the path of a line is found.  The description lies at
    [dir/name], and [base_dir] is [dirname] of that path, which is [dir].
    A line, its last character removed, is used as it is when it starts
    with a slash; any other line, the empty one included, is appended to
    [dir] after a slash, and the result is cut to [PATH_MAX - 1]
    characters. *)
Theorem lines_resolve_beside_description (dir : cstr) (c : ascii)
  (sl name : cstr) (x : list ascii) (e : ascii) :
  is_slash c = false ->
  sl <> [] -> forallb is_slash sl = true ->
  name <> [] -> forallb not_slash name = true ->
  ~ In NUL x -> e <> NUL ->
  line_path (dirname ((dir ++ [c]) ++ sl ++ name)) (x ++ [e]) =
    if is_absolute x then strncpy PATH_MAX x
    else Ret (firstn (PATH_MAX - 1) ((dir ++ [c]) ++ SLASH :: x)).
Proof.
  intros Hc Hsl Hs Hname Hn Hx He.
  rewrite dirname_join by assumption.
  rewrite line_path_snoc by assumption. reflexivity.
Qed.

Lemma lines_resolve_beside_description_witness :
  line_path (dirname ((str "/" ++ ["s"%char]) ++ str "//" ++ str "m-concat-x"))
    (str "b" ++ [LF]) =
    if is_absolute (str "b") then strncpy PATH_MAX (str "b")
    else Ret (firstn (PATH_MAX - 1)
                ((str "/" ++ ["s"%char]) ++ SLASH :: str "b")).
Proof.
  apply (lines_resolve_beside_description (str "/") "s"%char
           (str "//") (str "m-concat-x") (str "b") LF).
  - reflexivity.
  - discriminate.
  - reflexivity.
  - discriminate.
  - reflexivity.
  - cbn. intuition discriminate.
  - discriminate.
Defined.

(** ** The invariant of the registry *)

Lemma NoDup_app_inv {A} (l1 l2 : list A) :
  NoDup (l1 ++ l2) ->
  NoDup l1 /\ NoDup l2 /\ forall a, In a l1 -> ~ In a l2.
Proof.
  induction l1 as [|x l1 IH]; cbn [app]; intros H.
  - split; [constructor|]. split; [exact H|]. intros a [].
  - inversion H as [|? ? Hx Hrest]; subst.
    destruct (IH Hrest) as [H1 [H2 H3]].
    split; [|split; [exact H2|]].
    + constructor; [|exact H1]. intros Hi. apply Hx, in_or_app. left. exact Hi.
    + intros a [<-|Ha]; [|apply H3; exact Ha].
      intros Hi. apply Hx, in_or_app. right. exact Hi.
Qed.

Lemma live_app (a b : list Z) : live (a ++ b) = live a ++ live b.
Proof. apply filter_app. Qed.

Lemma live_In (d : Z) (ds : list Z) : In d (live ds) <-> In d ds /\ 0 <= d.
Proof.
  unfold live. rewrite filter_In. split; intros [H1 H2]; (split; [exact H1|]).
  - apply Z.leb_le. exact H2.
  - apply Z.leb_le. exact H2.
Qed.

Lemma open_stays_open (o o' : os) (d : Z) :
  (forall g, fd_lookup o d = Some g -> fd_lookup o' d = Some g) ->
  fd_lookup o d <> None -> fd_lookup o' d <> None.
Proof.
  intros H Hn. destruct (fd_lookup o d) as [g|]; [|contradiction Hn; reflexivity].
  rewrite (H g eq_refl). discriminate.
Qed.

(** One line of a full parse: the chunk descriptors stay pairwise
    distinct and open. *)
Lemma parse_line_distinct (fd : Z) (base : cstr) (o : os) (cf : concat_file)
  (b : list byte) (st : os * concat_file) :
  parse_line fd base (o, cf) b = Ret st ->
  NoDup (live (chunk_fds cf)) ->
  Forall (fun d => fd_lookup o d <> None) (live (chunk_fds cf)) ->
  NoDup (live (chunk_fds (snd st))) /\
  Forall (fun d => fd_lookup (fst st) d <> None) (live (chunk_fds (snd st))).
Proof.
  unfold parse_line.
  destruct (line_path base b) as [|tpath]; cbn [run_bind]; [discriminate|].
  pose proof (try_parse_line_offsets_frame o tpath) as [_ [F2 _]].
  destruct (try_parse_line_offsets o tpath) as [[[[p s] l]|] o1];
    cbn [fst snd] in *.
  - destruct (add_size cf l) as [|cf1] eqn:Ea; cbn [run_bind]; [discriminate|].
    apply add_size_ret in Ea. destruct Ea as [_ ->].
    destruct (fd >=? 0).
    + pose proof (sys_open_fresh o1 p O_RDONLY) as Hf.
      pose proof (sys_open_frame o1 p O_RDONLY) as Hk.
      destruct (sys_open o1 p O_RDONLY) as [d o2] eqn:Eo. cbn [fst snd] in *.
      intros E Hnd Hop; injection E as <-.
      unfold chunk_fds in *. cbn [fst snd add_chunk add_size cf_chunks].
      rewrite map_app, live_app. cbn [map c_fd].
      assert (Hold : Forall (fun a => fd_lookup o2 a <> None)
                       (live (map c_fd (cf_chunks cf)))).
      { eapply Forall_impl; [|exact Hop]. intros a Ha.
        apply (open_stays_open o1 o2); [apply Hk|].
        rewrite (fd_lookup_fds o1 o a F2). exact Ha. }
      unfold live at 2 4. cbn [filter].
      destruct (Z.leb_spec 0 d) as [Hd|Hd].
      * split.
        -- apply NoDup_app; [exact Hnd | repeat constructor; intros [] |].
           intros a Ha [E|[]]. subst a. rewrite Forall_forall in Hop.
           apply (Hop d Ha). rewrite <- (fd_lookup_fds o1 o d F2). exact Hf.
        -- apply Forall_app. split; [exact Hold|].
           constructor; [|constructor].
           destruct (sys_open_ok _ _ _ _ _ Eo Hd) as [nd [_ [_ [_ Hl]]]].
           rewrite Hl. discriminate.
      * rewrite !app_nil_r. split; [exact Hnd | exact Hold].
    + intros E Hnd Hop; injection E as <-. cbn [fst snd add_size].
      unfold chunk_fds in *. cbn [cf_chunks]. split; [exact Hnd|].
      eapply Forall_impl; [|exact Hop]. intros a Ha.
      rewrite (fd_lookup_fds o1 o a F2). exact Ha.
  - intros E Hnd Hop; injection E as <-. cbn [fst snd]. split; [exact Hnd|].
    eapply Forall_impl; [|exact Hop]. intros a Ha.
    rewrite (fd_lookup_fds o1 o a F2). exact Ha.
Qed.

Lemma parse_lines_distinct (fd : Z) (base : cstr) (bufs : list (list byte))
  (o : os) (cf : concat_file) (st : os * concat_file) :
  parse_lines fd base (o, cf) bufs = Ret st ->
  NoDup (live (chunk_fds cf)) ->
  Forall (fun d => fd_lookup o d <> None) (live (chunk_fds cf)) ->
  NoDup (live (chunk_fds (snd st))) /\
  Forall (fun d => fd_lookup (fst st) d <> None) (live (chunk_fds (snd st))).
Proof.
  revert o cf. induction bufs as [|b bufs IH]; intros o cf; cbn [parse_lines].
  - intros E; injection E as <-. cbn [fst snd]. auto.
  - destruct (parse_line fd base (o, cf) b) as [|[o1 cf1]] eqn:E1;
      cbn [run_bind]; [discriminate|].
    intros E Hnd Hop.
    destruct (parse_line_distinct _ _ _ _ _ _ E1 Hnd Hop) as [Hnd1 Hop1].
    exact (IH o1 cf1 E Hnd1 Hop1).
Qed.

(** The descriptors of the chunks of a parsed object are pairwise
    distinct and open in the system the parse leaves. *)
Lemma open_concat_file_distinct (o : os) (fd : Z) (path : cstr)
  (cf : concat_file) (o1 : os) :
  open_concat_file o fd path = Ret (Some cf, o1) ->
  NoDup (live (chunk_fds cf)) /\
  Forall (fun d => fd_lookup o1 d <> None) (live (chunk_fds cf)).
Proof.
  unfold open_concat_file.
  destruct (open_stream o fd path) as [[[sfd text]|] oa] eqn:Es; [|discriminate].
  destruct (open_stream_opens _ _ _ _ _ _ Es) as [_ [_ [[f Hs] _]]].
  destruct (strncpy (PATH_MAX + 1) path) as [|bpath]; cbn [run_bind];
    [discriminate|].
  destruct (parse_lines fd (dirname bpath) (oa, mk_concat_file [] fd 0 1)
              (read_lines (length text) text)) as [|st] eqn:Ep;
    cbn [run_bind]; [discriminate|].
  destruct (parse_lines_distinct _ _ _ _ _ _ Ep) as [Hnd Hop];
    [constructor | constructor |].
  destruct (parse_lines_opens oa _ _ _ _ _ _ Ep (same_files_refl oa))
    as [_ [Hin _]].
  { intros d []. }
  { intros d _. reflexivity. }
  pose proof (sys_close_lookup (fst st) sfd) as Hc.
  destruct (sys_close (fst st) sfd) as [rc o3]. cbn [snd] in Hc.
  intros E; injection E as <- <-. split; [exact Hnd|].
  rewrite Forall_forall in *. intros d Hd. rewrite Hc.
  destruct (Z.eqb_spec d sfd) as [->|Hne]; [|apply Hop; exact Hd].
  apply live_In in Hd. destruct Hd as [Hd _].
  rewrite (Hin sfd Hd) in Hs. discriminate.
Qed.

(** X16.  [concatfs_open] keeps the invariant of the registry: the descriptors
    of the object it registers are new, pairwise distinct and open, and
    the descriptors of the objects registered before stay open. *)
Theorem open_keeps_registry_invariant (src_dir : cstr) (o : os)
  (reg : registry) (path : cstr) (flags : access) (r : open_result) :
  reg_inv o reg ->
  concatfs_open src_dir o reg path flags = Ret r ->
  reg_inv (or_os r) (or_reg r).
Proof.
  intros [Hnd Hop]. unfold concatfs_open.
  pose proof (sys_open_fresh o (snprintf_path PATH_MAX src_dir path) flags) as Hf.
  pose proof (sys_open_lookup o (snprintf_path PATH_MAX src_dir path) flags) as Hl.
  pose proof (sys_open_frame o (snprintf_path PATH_MAX src_dir path) flags) as Hk.
  destruct (sys_open o (snprintf_path PATH_MAX src_dir path) flags)
    as [fd o1] eqn:Eo. cbn [fst snd] in Hf, Hl, Hk.
  assert (Hold1 : Forall (fun d => fd_lookup o1 d <> None) (live (reg_fds reg))).
  { eapply Forall_impl; [|exact Hop]. intros a Ha.
    apply (open_stays_open o o1); [apply Hk | exact Ha]. }
  destruct (Z.ltb_spec fd 0) as [Hneg|Hnn].
  { intros E; injection E as <-. split; assumption. }
  destruct (is_concatfs_file path) as [|[|]] eqn:Ev; cbn [run_bind];
    [discriminate| |].
  2:{ intros E; injection E as <-. split; assumption. }
  destruct (open_concat_file o1 fd (snprintf_path PATH_MAX src_dir path))
    as [|[[cf|] o2]] eqn:Ep; cbn [run_bind fst snd open_files_push_front];
    try discriminate.
  intros E; injection E as <-. cbn [or_os or_reg].
  destruct (open_concat_file_wf _ _ _ _ _ Hnn Ep) as [_ Hcf].
  destruct (open_concat_file_opens _ _ _ _ _ Ep) as [_ [Hin Hout]].
  destruct (open_concat_file_distinct _ _ _ _ _ Ep) as [Hcnd Hcop].
  destruct (sys_open_ok _ _ _ _ _ Eo Hnn) as [nd [_ [_ [_ Hfd]]]].
  assert (Hfdc : ~ In fd (chunk_fds cf)).
  { intros Hi. rewrite (Hin fd Hi) in Hfd. discriminate. }
  assert (Hnew : forall d, In d (live (owned cf)) -> fd_lookup o d = None).
  { intros d Hd. apply live_In in Hd. destruct Hd as [[<-|Hd] _].
    - rewrite Hcf. exact Hf.
    - rewrite <- (Hl d); [apply Hin; exact Hd|].
      intros ->. apply Hfdc. exact Hd. }
  assert (Hlive : live (owned cf) = fd :: live (chunk_fds cf)).
  { unfold owned, live. cbn [filter]. rewrite Hcf.
    destruct (Z.leb_spec 0 fd); [reflexivity | lia]. }
  unfold reg_inv, reg_fds. cbn [flat_map]. fold (reg_fds reg).
  rewrite live_app. split.
  - apply NoDup_app; [|exact Hnd|].
    + rewrite Hlive. constructor; [|exact Hcnd].
      intros Hi. apply live_In in Hi. apply Hfdc. tauto.
    + intros d Hd Hold. rewrite Forall_forall in Hop.
      apply (Hop d Hold). apply Hnew. exact Hd.
  - apply Forall_app. split.
    + rewrite Hlive. constructor; [|exact Hcop].
      rewrite (Hout fd Hfdc), Hfd. discriminate.
    + rewrite Forall_forall in *. intros d Hd.
      rewrite Hout; [apply Hold1; exact Hd|].
      intros Hi. apply (Hop d Hd). apply Hnew.
      apply live_In. apply live_In in Hd. split; [right; exact Hi | tauto].
Qed.

Lemma reg_inv_nil (o : os) : reg_inv o [].
Proof. split; constructor. Qed.

Lemma open_keeps_registry_invariant_witness :
  reg_inv abc_served [abc_object].
Proof.
  apply (open_keeps_registry_invariant (str "/s") (sample_os abc) []
           (str "/m-concat-x") O_RDONLY
           (mk_open_result 0 (Some 3) abc_served [abc_object])).
  - apply reg_inv_nil.
  - vm_compute. reflexivity.
Defined.

(** X17.  [concatfs_release] keeps the invariant of the registry.  For a
    virtual path it closes the descriptors of the object registered under
    the handle and of no other object; for any other path it closes the
    handle, which must not be a descriptor a registered object carries. *)
Theorem release_keeps_registry_invariant (o : os) (reg : registry)
  (path : cstr) (fh : Z) (o' : os) (reg' : registry) :
  reg_inv o reg ->
  (is_concatfs_file path = Ret false -> ~ In fh (reg_fds reg)) ->
  concatfs_release o reg path fh = Ret (o', reg') ->
  reg_inv o' reg'.
Proof.
  intros [Hnd Hop] Hplain. unfold concatfs_release.
  destruct (is_concatfs_file path) as [|[|]] eqn:Ev; cbn [run_bind];
    [discriminate| |].
  - destruct (open_files_find reg fh) as [cf|] eqn:Ef.
    + destruct (open_files_erase_some _ _ _ Ef)
        as [Hcf [pre [post [Hreg [_ ->]]]]].
      intros E.
      assert (Eo : o' = close_concat_file o (Some cf)) by congruence.
      assert (Er : reg' = pre ++ post) by congruence.
      subst o' reg'. clear E.
      unfold reg_inv, reg_fds in *. rewrite Hreg in Hnd, Hop.
      rewrite !flat_map_app in *. cbn [flat_map] in Hnd, Hop.
      rewrite !live_app in *.
      destruct (NoDup_app_inv _ _ Hnd) as [N1 [N2 N3]].
      destruct (NoDup_app_inv _ _ N2) as [N4 [N5 N6]].
      apply Forall_app in Hop. destruct Hop as [O1 O2].
      apply Forall_app in O2. destruct O2 as [_ O3].
      assert (Hkeep : forall d, 0 <= d -> ~ In d (live (owned cf)) ->
                                fd_lookup (close_concat_file o (Some cf)) d
                                = fd_lookup o d).
      { intros d Hd Hn. rewrite close_concat_file_lookup.
        destruct (mem_fd d (owned cf)) eqn:Em; [|reflexivity].
        exfalso. apply Hn, live_In. split; [|exact Hd].
        apply mem_fd_In. exact Em. }
      split.
      * apply NoDup_app; [exact N1 | exact N5 |].
        intros a Ha Hb. apply (N3 a Ha). apply in_or_app. right. exact Hb.
      * rewrite Forall_forall in O1, O3.
        apply Forall_app. split; apply Forall_forall; intros d Hd.
        -- rewrite Hkeep; [apply O1; exact Hd| |].
           ++ apply live_In in Hd. tauto.
           ++ intros Hi. apply (N3 d Hd). apply in_or_app. left. exact Hi.
        -- rewrite Hkeep; [apply O3; exact Hd| |].
           ++ apply live_In in Hd. tauto.
           ++ intros Hi. apply (N6 d Hi). exact Hd.
    + destruct (open_files_erase_none _ _ Ef) as [_ ->].
      intros E; injection E as <- <-. split; assumption.
  - intros E; injection E as <- <-. split; [exact Hnd|].
    rewrite Forall_forall in *. intros d Hd. rewrite sys_close_lookup.
    destruct (Z.eqb_spec d fh) as [->|Hne]; [|apply Hop; exact Hd].
    exfalso. apply (Hplain eq_refl). apply live_In in Hd. tauto.
Qed.

Lemma release_keeps_registry_invariant_witness :
  reg_inv (close_concat_file abc_served (Some abc_object)) [].
Proof.
  apply (release_keeps_registry_invariant abc_served [abc_object]
           (str "/m-concat-x") 3).
  - split.
    + vm_compute. repeat constructor; cbn; intuition discriminate.
    + vm_compute. repeat constructor; discriminate.
  - vm_compute. discriminate.
  - vm_compute. reflexivity.
Defined.

(** ** Descriptions put one after the other *)

Lemma read_lines_nil (fuel : nat) : read_lines fuel [] = [].
Proof. destruct fuel; reflexivity. Qed.

(** Enough fuel is enough: the loop ends when the stream does. *)
Lemma read_lines_fuel (f1 : nat) :
  forall f2 s, (length s <= f1)%nat -> (length s <= f2)%nat ->
               read_lines f1 s = read_lines f2 s.
Proof.
  induction f1 as [|f1 IH]; intros f2 s H1 H2.
  - destruct s; [|cbn [length] in H1; lia]. rewrite !read_lines_nil. reflexivity.
  - destruct s as [|c s]; [rewrite !read_lines_nil; reflexivity|].
    destruct f2 as [|f2]; [cbn [length] in H2; lia|].
    cbn [read_lines].
    pose proof (fgets_app PATH_MAX (c :: s)) as Ha.
    pose proof (fgets_nonempty (pred PATH_MAX) c s) as Hn.
    change (S (pred PATH_MAX)) with PATH_MAX in Hn.
    destruct (fgets PATH_MAX (c :: s)) as [l r]. cbn [fst snd] in *.
    f_equal. apply (f_equal (@length _)) in Ha.
    rewrite length_app in Ha. cbn [length] in *.
    assert (0 < length l)%nat by (destruct l; [contradiction|cbn; lia]).
    apply IH; lia.
Qed.

(** A buffer never runs over the end of a line: on a stream that starts
    with a text ending in a newline, [fgets] reads within that text, and
    what it leaves of the text is empty or again ends in a newline. *)
Lemma fgets_within_line (n : nat) (u t2 : list byte) :
  fgets n ((u ++ [LF]) ++ t2) =
    (fst (fgets n (u ++ [LF])), snd (fgets n (u ++ [LF])) ++ t2) /\
  (snd (fgets n (u ++ [LF])) = [] \/
   exists v, snd (fgets n (u ++ [LF])) = v ++ [LF]).
Proof.
  revert u. induction n as [|n IH]; intros u.
  - destruct u; cbn [app fgets fst snd]; (split; [reflexivity|]); right.
    + exists []. reflexivity.
    + exists (a :: u). reflexivity.
  - destruct u as [|c u]; cbn [app fgets].
    + rewrite Ascii.eqb_refl. cbn [fst snd app]. split; [reflexivity|].
      left. reflexivity.
    + destruct (c =? LF)%char.
      * cbn [fst snd]. split; [reflexivity|]. right. exists u. reflexivity.
      * destruct (IH u) as [E Hr]. cbn [app] in E. rewrite E.
        destruct (fgets n (u ++ [LF])) as [l r]. cbn [fst snd] in *.
        split; [reflexivity | exact Hr].
Qed.

Lemma read_lines_step (fuel : nat) (s : list byte) :
  s <> [] ->
  read_lines (S fuel) s =
  fst (fgets PATH_MAX s) :: read_lines fuel (snd (fgets PATH_MAX s)).
Proof.
  intros H. cbn [read_lines]. destruct s as [|c s]; [contradiction|].
  destruct (fgets PATH_MAX (c :: s)). reflexivity.
Qed.

Lemma read_lines_app (fuel : nat) :
  forall u t2,
    (length ((u ++ [LF]) ++ t2) <= fuel)%nat ->
    read_lines fuel ((u ++ [LF]) ++ t2) =
    read_lines fuel (u ++ [LF]) ++ read_lines fuel t2.
Proof.
  induction fuel as [|fuel IH]; intros u t2 Hf.
  - rewrite !length_app in Hf. cbn [length] in Hf. lia.
  - rewrite (read_lines_step fuel ((u ++ [LF]) ++ t2))
      by (destruct u; discriminate).
    rewrite (read_lines_step fuel (u ++ [LF])) by (destruct u; discriminate).
    destruct (fgets_within_line PATH_MAX u t2) as [E Hr]. rewrite E.
    pose proof (fgets_app PATH_MAX (u ++ [LF])) as Ha.
    assert (Hn : fst (fgets PATH_MAX (u ++ [LF])) <> []).
    { destruct (u ++ [LF]) as [|a1 s1] eqn:E1; [destruct u; discriminate|].
      apply (fgets_nonempty (pred PATH_MAX)). }
    destruct (fgets PATH_MAX (u ++ [LF])) as [l r]. cbn [fst snd] in *.
    cbn [app]. f_equal.
    assert (Hlen : (length (r ++ t2) <= fuel)%nat).
    { rewrite <- Ha in Hf. rewrite !length_app in *. cbn [length] in *.
      assert (0 < length l)%nat by (destruct l; [contradiction|cbn; lia]).
      lia. }
    destruct Hr as [->|[v ->]].
    + cbn [app]. rewrite read_lines_nil. cbn [app].
      apply read_lines_fuel; [exact Hlen | cbn [app] in Hlen; lia].
    + rewrite (IH v t2 Hlen). f_equal.
      apply read_lines_fuel; rewrite !length_app in *; cbn [length] in *; lia.
Qed.

(** X19.  A description made of two descriptions, the first ending in a
    newline, is parsed as the first followed by the second: the lines of
    the second are read and resolved as they are in the second alone, and
    the object is that of the first with the segments of the second
    appended. *)
Theorem descriptions_compose (fd : Z) (base : cstr) (st : os * concat_file)
  (u d2 : list byte) :
  parse_lines fd base st
    (read_lines (length ((u ++ [LF]) ++ d2)) ((u ++ [LF]) ++ d2)) =
  (st1 <- parse_lines fd base st
            (read_lines (length (u ++ [LF])) (u ++ [LF])) ;;
   parse_lines fd base st1 (read_lines (length d2) d2)).
Proof.
  rewrite read_lines_app by lia. rewrite parse_lines_app.
  rewrite (read_lines_fuel (length ((u ++ [LF]) ++ d2))
             (length (u ++ [LF])) (u ++ [LF]));
    [|rewrite !length_app; lia | lia].
  rewrite (read_lines_fuel (length ((u ++ [LF]) ++ d2)) (length d2) d2);
    [reflexivity | rewrite !length_app; lia | lia].
Qed.

(** ** Whatever the kernel returns *)

(** The bytes of a read inside a segment, served in full or in part, are
    the first bytes of the backing slice at that offset. *)
Lemma slice_of_read (o : os) (c : chunk) (offset n rv : Z) (got : list byte)
  (m : nat) :
  0 <= c_startOffset c -> 0 <= offset -> 0 <= n -> offset + n <= c_fsize c ->
  (m <= Z.to_nat n)%nat ->
  got = firstn m
          (skipn (Z.to_nat (offset + c_startOffset c)) (fd_data o (c_fd c))) ->
  rv = Z.of_nat (length got) ->
  firstn (Z.to_nat rv) (skipn (Z.to_nat offset) (backing_slice o c)) = got.
Proof.
  intros Hs Ho Hn Hb Hm Hgot Hrv. subst rv. rewrite Nat2Z.id.
  assert (Hlen : (length got <= m)%nat).
  { rewrite Hgot, length_firstn. lia. }
  assert (E : got = firstn (length got)
                      (skipn (Z.to_nat (offset + c_startOffset c))
                         (fd_data o (c_fd c)))).
  { set (X := skipn (Z.to_nat (offset + c_startOffset c))
                (fd_data o (c_fd c))) in *.
    rewrite Hgot, length_firstn.
    destruct (Nat.le_ge_cases m (length X)).
    - rewrite Nat.min_l by lia. reflexivity.
    - rewrite Nat.min_r by lia. rewrite !firstn_all2 by lia. reflexivity. }
  unfold backing_slice.
  replace (Z.to_nat (offset + c_startOffset c))
    with (Z.to_nat offset + Z.to_nat (c_startOffset c))%nat in E by lia.
  rewrite pslice_read; [symmetry; exact E | lia |].
  rewrite <- E. reflexivity.
Qed.

Lemma read_chunks_prefix (o : os) (cs : list chunk) :
  Forall chunk_wf cs ->
  forall count offset bytes_read,
    0 <= offset -> 0 <= count < 2 ^ 64 ->
    match cs with
    | c :: _ => offset <= c_fsize c
    | [] => True
    end ->
    rr_buf (read_chunks o cs count offset bytes_read) =
      firstn (length (rr_buf (read_chunks o cs count offset bytes_read)))
        (skipn (Z.to_nat offset) (concat (map (backing_slice o) cs))) /\
    (rr_ret (read_chunks o cs count offset bytes_read) =
       bytes_read
       + Z.of_nat (length (rr_buf (read_chunks o cs count offset bytes_read)))
     \/ rr_ret (read_chunks o cs count offset bytes_read) =
          - os_errno (rr_os (read_chunks o cs count offset bytes_read))).
Proof.
  induction 1 as [|c cs [Hst Hsz] Hwf IH];
    intros count offset bytes_read Hoff Hcount Hhead.
  - cbn [read_chunks rr_ret rr_buf length firstn]. split; [reflexivity|].
    left. lia.
  - pose proof OFF_T_MAX_fits as Hmax.
    cbn [read_chunks map concat].
    assert (Hwant : to_size_t (c_fsize c - offset) = c_fsize c - offset)
      by (apply to_size_t_small; lia).
    rewrite Hwant.
    assert (Hsl : length (backing_slice o c) = Z.to_nat (c_fsize c))
      by apply backing_slice_length.
    destruct (Z.gtb_spec count (c_fsize c - offset)) as [Hgt|Hle].
    + destruct (sys_pread o (c_fd c) (c_fsize c - offset) (offset + c_startOffset c))
        as [[rv got] o1] eqn:Ep.
      destruct (Z.eqb_spec rv (c_fsize c - offset)) as [->|Hne].
      * destruct (sys_pread_full _ _ _ _ _ _ Ep ltac:(lia)) as [-> [_ [Hlen Hgot]]].
        assert (Hc2 : to_size_t (count - (c_fsize c - offset))
                      = count - (c_fsize c - offset))
          by (apply to_size_t_small; lia).
        rewrite Hc2.
        destruct (IH (count - (c_fsize c - offset)) 0
                    (bytes_read + (c_fsize c - offset))) as [Eb Er]; try lia.
        { destruct cs as [|c2 cs]; [exact I|].
          inversion Hwf as [|? ? [_ H2] _]; subst. lia. }
        cbn [after_call rr_ret rr_buf rr_os]. rewrite length_app.
        assert (Eg : skipn (Z.to_nat offset) (backing_slice o c) = got).
        { rewrite <- (slice_of_full_read o c offset (c_fsize c - offset) got);
            try assumption; try lia.
          symmetry. apply firstn_all2. rewrite length_skipn, Hsl. lia. }
        split.
        -- rewrite skipn_app, Eg, Hsl.
           replace (Z.to_nat offset - Z.to_nat (c_fsize c))%nat with 0%nat by lia.
           rewrite skipn_O, firstn_app.
           replace (length got + _ - length got)%nat
             with (length (rr_buf
                             (read_chunks o cs (count - (c_fsize c - offset)) 0
                                (bytes_read + (c_fsize c - offset))))) by lia.
           rewrite firstn_all2 by lia.
           change (Z.to_nat 0) with 0%nat in Eb. rewrite skipn_O in Eb.
           rewrite <- Eb. reflexivity.
        -- destruct Er as [Er|Er]; [left; lia | right; exact Er].
      * pose proof (sys_pread_range _ _ _ _ _ _ _ Ep ltac:(lia)) as Hr.
        destruct (Z.gtb_spec rv 0) as [Hpos|Hnp]; cbn [rr_ret rr_buf rr_os].
        -- destruct (sys_pread_ok _ _ _ _ _ _ _ Ep ltac:(lia))
             as [_ [Hlen [_ [m [Hm Hg]]]]].
           split; [|left; lia].
           rewrite skipn_app, firstn_app, length_skipn, Hsl.
           replace (length got - (Z.to_nat (c_fsize c) - Z.to_nat offset))%nat
             with 0%nat by lia.
           rewrite firstn_O, app_nil_r. symmetry.
           rewrite <- (slice_of_read o c offset (c_fsize c - offset) rv got m)
             at 2; try assumption; try lia.
           rewrite Hlen, Nat2Z.id. reflexivity.
        -- split; [reflexivity | right; reflexivity].
    + unfold read_last. destruct (Z.gtb_spec count 0) as [Hpos|Hzero].
      * destruct (sys_pread o (c_fd c) count (offset + c_startOffset c))
          as [[rv got] o1] eqn:Ep.
        pose proof (sys_pread_range _ _ _ _ _ _ _ Ep ltac:(lia)) as Hr.
        destruct (Z.ltb_spec rv 0) as [Hneg|Hnn]; cbn [rr_ret rr_buf rr_os].
        -- split; [reflexivity | right; reflexivity].
        -- destruct (sys_pread_ok _ _ _ _ _ _ _ Ep Hnn)
             as [_ [Hlen [_ [m [Hm Hg]]]]].
           split; [|left; lia].
           rewrite skipn_app, firstn_app, length_skipn, Hsl.
           replace (length got - (Z.to_nat (c_fsize c) - Z.to_nat offset))%nat
             with 0%nat by lia.
           rewrite firstn_O, app_nil_r. symmetry.
           rewrite <- (slice_of_read o c offset count rv got m)
             at 2; try assumption; try lia.
           rewrite Hlen, Nat2Z.id. reflexivity.
      * cbn [rr_ret rr_buf length firstn]. split; [reflexivity | left; lia].
Qed.

(** X23.  Whatever the positional reads return (all, part or none of the
    bytes asked for, or an error), the bytes [read_concat_file] stores
    are the first bytes of the virtual file from [offset]: it never
    delivers a byte of the wrong file or the wrong position.  The value
    it returns is the number of bytes stored or the negated [errno]. *)
Theorem read_never_serves_wrong_bytes (reg : registry) (o : os)
  (fd count offset : Z) (cf : concat_file) :
  open_files_find reg fd = Some cf -> cf_wf cf ->
  0 <= offset -> 0 <= count < 2 ^ 64 ->
  rr_buf (read_concat_file reg o fd count offset) =
    firstn (length (rr_buf (read_concat_file reg o fd count offset)))
      (skipn (Z.to_nat offset) (virtual_bytes o cf)) /\
  (rr_ret (read_concat_file reg o fd count offset) =
     to_int (Z.of_nat (length (rr_buf (read_concat_file reg o fd count offset))))
   \/ rr_ret (read_concat_file reg o fd count offset) =
        to_int (- os_errno (rr_os (read_concat_file reg o fd count offset)))).
Proof.
  intros Hf [Hwf Hsum] Hoff Hcount. unfold read_concat_file. rewrite Hf.
  destruct (offset >? cf_fsize cf).
  { cbn [rr_buf rr_ret length firstn]. split; [reflexivity | left; reflexivity]. }
  destruct (skip_chunks_spec (cf_chunks cf) offset Hwf Hoff)
    as [pre [Ecs [Eoff [Hn [Hwf' Hhead]]]]].
  destruct (skip_chunks (cf_chunks cf) offset) as [cs off].
  cbn [fst snd] in *. cbn [rr_buf rr_ret rr_os].
  destruct (read_chunks_prefix o cs Hwf' count off 0 Hn Hcount Hhead) as [Eb Er].
  assert (Hpre : Forall chunk_wf pre).
  { rewrite Ecs in Hwf. apply Forall_app in Hwf. tauto. }
  split.
  - unfold virtual_bytes. rewrite Ecs.
    rewrite virtual_bytes_split by (try assumption; lia).
    rewrite <- Eoff. exact Eb.
  - destruct Er as [Er|Er]; [left | right]; rewrite Er; reflexivity.
Qed.

Lemma read_never_serves_wrong_bytes_witness :
  rr_buf (read_concat_file [bdc_object] (bdc_served 3) 3 15 0) =
    firstn (length (rr_buf (read_concat_file [bdc_object] (bdc_served 3) 3 15 0)))
      (skipn (Z.to_nat 0) (virtual_bytes (bdc_served 3) bdc_object)) /\
  (rr_ret (read_concat_file [bdc_object] (bdc_served 3) 3 15 0) =
     to_int (Z.of_nat
               (length (rr_buf (read_concat_file [bdc_object] (bdc_served 3)
                                  3 15 0))))
   \/ rr_ret (read_concat_file [bdc_object] (bdc_served 3) 3 15 0) =
        to_int (- os_errno
                    (rr_os (read_concat_file [bdc_object] (bdc_served 3)
                              3 15 0)))).
Proof.
  apply (read_never_serves_wrong_bytes [bdc_object] (bdc_served 3) 3 15 0
           bdc_object).
  - reflexivity.
  - split; [|reflexivity]. repeat constructor; unfold OFF_T_MAX; cbn; lia.
  - lia.
  - change (2 ^ 64) with 18446744073709551616. lia.
Defined.

(** ** Two edges *)

Lemma to_size_t_nonneg (x : Z) : 0 <= to_size_t x.
Proof.
  unfold to_size_t. apply Z.mod_pos_bound. reflexivity.
Qed.

(** X24.  A read of 0 bytes through a registered handle returns 0, stores
    nothing and issues no positional read, at every offset and whatever
    the object holds: the second loop is not entered and the final read
    is guarded by [count > 0]. *)
Theorem empty_read_is_free (reg : registry) (o : os) (fd offset : Z)
  (cf : concat_file) :
  open_files_find reg fd = Some cf ->
  read_concat_file reg o fd 0 offset = mk_result 0 [] [] o.
Proof.
  intros Hf. unfold read_concat_file. rewrite Hf.
  destruct (offset >? cf_fsize cf); [reflexivity|].
  destruct (skip_chunks (cf_chunks cf) offset) as [cs off].
  destruct cs as [|c cs]; cbn [read_chunks]; [reflexivity|].
  pose proof (to_size_t_nonneg (c_fsize c - off)) as Hn.
  destruct (Z.gtb_spec 0 (to_size_t (c_fsize c - off))); [lia|].
  reflexivity.
Qed.

Lemma empty_read_is_free_witness :
  read_concat_file [au_object] au_served 3 0 4 = mk_result 0 [] [] au_served.
Proof.
  apply (empty_read_is_free [au_object] au_served 3 4 au_object).
  reflexivity.
Defined.

(** X25.  Whenever [get_concat_file_size] has opened the description, it
    leaves EBADF in [errno]: the object of a size-only parse carries the
    descriptor -1, and [close_concat_file] closes it. *)
Theorem size_only_parse_leaves_ebadf (o : os) (path : cstr) (n : Z) (o' : os)
  (sfd : Z) (text : list byte) (oa : os) :
  open_stream o (-1) path = (Some (sfd, text), oa) ->
  get_concat_file_size o path = Ret (n, o') ->
  os_errno o' = EBADF.
Proof.
  intros Es. unfold get_concat_file_size.
  destruct (open_concat_file o (-1) path) as [|[[cf|] o1]] eqn:E;
    cbv beta iota delta [run_bind fst snd]; [discriminate| |]; intros H.
  - assert (Ho : o' = close_concat_file o1 (Some cf)) by congruence.
    subst o'. clear H.
    destruct (open_concat_file_size_only o (-1) path cf o1 ltac:(lia) E)
      as [Hc Hf].
    unfold close_concat_file. rewrite Hc, Hf. reflexivity.
  - exfalso. exact (open_concat_file_not_null _ _ _ _ _ _ _ Es E).
Qed.

Lemma size_only_parse_leaves_ebadf_witness :
  os_errno
    (close_concat_file
       (os_after (sample_os abc) (open_concat_file (sample_os abc) (-1) desc_path))
       (Some (mk_concat_file [] (-1) 9 1))) = EBADF.
Proof.
  apply (size_only_parse_leaves_ebadf (sample_os abc) desc_path 9 _ 3 abc
           (snd (open_stream (sample_os abc) (-1) desc_path))).
  - vm_compute. reflexivity.
  - vm_compute. reflexivity.
Defined.
